(** * inst.js: record store, filter engine and bounded undo/redo history

    A shallow embedding of the core of [src/inst.js]: the three persisted
    collections (instructions, undo stack, redo stack), the command handlers
    that mutate them, the filter engine with its option validation, and the
    month resolution.  What the JavaScript runtime and third-party libraries
    supply (the clock, the answer to a confirmation prompt, chrono's deadline
    parser, the built-in [Date] parser) is gathered in the record [World].

    Conventions of the embedding:
    - the three JSON files are the three fields of [State]; reading and
      writing a file is reading and replacing the field (files are assumed
      readable and well-formed);
    - ids and calendar fields are integers of [Z]; the id of a new record
      is rounded to 53 bits as the addition of JavaScript rounds it
      ([round_to_double]).  A numeric option of the command line ([--year],
      [--week]) is an integer or [NaN], which is what yargs delivers for
      text that is no number ([Number]); fractions and infinities are not
      modelled;
    - strings are strings of bytes, and case folding and white space are
      those of the ASCII range;
    - an option of the command line that may be [undefined] is an [option];
      the truthiness tests of the program are written out ([JS.truthy_str],
      [JS.truthy_num], ...);
    - a handler returns what it prints, as a constructor of [Outcome],
      together with the persisted state it leaves;
    - yargs runs the [coerce] hooks of an option first, then tests the
      options that have [choices] (those of show), then runs the [check]
      hook, and calls the handler only when all succeed;
    - the measure of a line of text by the PDF font and the rendering of a
      date in the locale of the machine are parameters of the functions
      that use them ([wrapTextForPdf], the CSV export). *)

From Stdlib Require Import String Ascii ZArith List Bool Lia Sorted.
From Stdlib Require Import Permutation.
Import ListNotations.

Open Scope Z_scope.

(** ** JavaScript primitives used by the program *)
(** A number as a numeric option of the command line delivers it. *)
Inductive Number : Type :=
| Integer (n : Z)
| NaN.

Module JS.

(** Truthiness of a string that may be [undefined]: only a present,
    non-empty string is truthy. *)
Definition truthy_str (o : option string) : bool :=
  match o with
  | Some s => negb (String.eqb s "")
  | None => false
  end.

(** Truthiness of a number that may be [undefined]: [0] and [NaN] are
    falsy. *)
Definition truthy_num (o : option Number) : bool :=
  match o with
  | Some (Integer n) => negb (n =? 0)
  | Some NaN => false
  | None => false
  end.

(** [a < b] and [a === b] on numbers: a comparison with [NaN] is false. *)
Definition less_than (a b : Number) : bool :=
  match a, b with
  | Integer x, Integer y => x <? y
  | _, _ => false
  end.

Definition strict_equal (a b : Number) : bool :=
  match a, b with
  | Integer x, Integer y => x =? y
  | _, _ => false
  end.

(** Truthiness of a boolean flag that may be [undefined]. *)
Definition truthy_flag (o : option bool) : bool :=
  match o with
  | Some b => b
  | None => false
  end.

Definition is_upper (c : ascii) : bool :=
  let n := nat_of_ascii c in (Nat.leb 65 n && Nat.leb n 90)%bool.

Definition lower_char (c : ascii) : ascii :=
  if is_upper c then ascii_of_nat (nat_of_ascii c + 32) else c.

(** [String.prototype.toLowerCase], on the ASCII range. *)
Fixpoint toLowerCase (s : string) : string :=
  match s with
  | EmptyString => EmptyString
  | String c s' => String (lower_char c) (toLowerCase s')
  end.

(** White space as [trim] and [parseInt] skip it (ASCII range):
    TAB, LF, VT, FF, CR and SPACE. *)
Definition is_space (c : ascii) : bool :=
  let n := nat_of_ascii c in
  (Nat.leb 9 n && Nat.leb n 13 || Nat.eqb n 32)%bool.

Fixpoint trimStart (s : string) : string :=
  match s with
  | EmptyString => EmptyString
  | String c s' => if is_space c then trimStart s' else s
  end.

Fixpoint trimEnd (s : string) : string :=
  match s with
  | EmptyString => EmptyString
  | String c s' =>
      match trimEnd s' with
      | EmptyString => if is_space c then EmptyString else String c EmptyString
      | t => String c t
      end
  end.

Definition trim (s : string) : string := trimEnd (trimStart s).

Definition is_digit (c : ascii) : bool :=
  let n := nat_of_ascii c in (Nat.leb 48 n && Nat.leb n 57)%bool.

Definition digit_value (c : ascii) : Z := Z.of_nat (nat_of_ascii c) - 48.

(** The longest prefix of decimal digits, read as a number; [None] when
    the string does not start with a digit. *)
Fixpoint digits_from (acc : option Z) (s : string) : option Z :=
  match s with
  | EmptyString => acc
  | String c s' =>
      if is_digit c then
        digits_from
          (Some (match acc with
                 | Some a => 10 * a + digit_value c
                 | None => digit_value c
                 end)) s'
      else acc
  end.

(** [parseInt(s, 10)]: leading white space is skipped, an optional sign is
    read, then the longest run of digits; whatever follows is ignored.
    [None] stands for [NaN]. *)
Definition parseInt (s : string) : option Z :=
  match trimStart s with
  | String "-"%char s' => option_map Z.opp (digits_from None s')
  | String "+"%char s' => digits_from None s'
  | t => digits_from None t
  end.

(** [Array.prototype.pop]: the last element and the shortened array. *)
Fixpoint pop {A : Type} (l : list A) : option (A * list A) :=
  match l with
  | [] => None
  | x :: l' =>
      match pop l' with
      | None => Some (x, [])
      | Some (y, r) => Some (y, x :: r)
      end
  end.

(** [Array.prototype.shift], for its effect on the array. *)
Definition shift {A : Type} (l : list A) : list A := tl l.

(** [Array.prototype.push], for its effect on the array. *)
Definition push {A : Type} (l : list A) (x : A) : list A := l ++ [x].

(** [Array.prototype.findIndex]; [None] stands for [-1]. *)
Fixpoint findIndex {A : Type} (p : A -> bool) (l : list A) : option nat :=
  match l with
  | [] => None
  | x :: l' => if p x then Some O else option_map S (findIndex p l')
  end.

(** Assignment to [a[i]] for an index inside the array. *)
Fixpoint set_at {A : Type} (i : nat) (x : A) (l : list A) : list A :=
  match l, i with
  | [], _ => []
  | _ :: l', O => x :: l'
  | y :: l', S j => y :: set_at j x l'
  end.

End JS.

(** ** Data model *)

(** A [Date] object, by what the program observes of it: the local calendar
    fields, the weekday name in en-US and the first ten characters of
    [toISOString()].  A stored ISO string is identified with the [Date] it
    denotes. *)
Record Timestamp : Type := mkTimestamp {
  getFullYear : Z;
  getMonth : Z;          (* 0-based, as in JavaScript *)
  getDate : Z;           (* day of the month *)
  getDayName : string;   (* toLocaleDateString("en-US", { weekday: "long" }) *)
  isoDay : string        (* toISOString().slice(0, 10) *)
}.

Record Instruction : Type := mkInstruction {
  id : Z;
  source : string;
  text : string;
  added : Timestamp;
  priority : string;
  deadline : option Timestamp;
  status : string;
  isDeleted : bool;
  deletedAt : option Timestamp
}.

Record HistoryEntry : Type := mkEntry {
  command : string;
  data : list Instruction
}.

(** The three persisted files: inst.json, undoInst.json, redoInst.json.
    Both stacks are stored oldest entry first. *)
Record State : Type := mkState {
  instructions : list Instruction;
  undoStack : list HistoryEntry;
  redoStack : list HistoryEntry
}.

(** What one invocation takes from outside the program. *)
Record World : Type := mkWorld {
  Date_now : Timestamp;                         (* new Date() *)
  chrono_parseDate : string -> option Timestamp; (* chrono.parseDate *)
  prompt_answer : bool;                         (* promptConfirmation *)
  Date_parse : string -> option string
    (* new Date(s): [None] when the time value is NaN, otherwise
       toISOString().slice(0, 10) of the result *)
}.

Definition MAX_UNDO_REDO_STATES : nat := 10.

(** ensureDataFilesExist: every file starts as "[]". *)
Definition initial_state : State := mkState [] [] [].

Definition loadInstructions (st : State) : list Instruction := instructions st.

Definition saveInstructions (d : list Instruction) (st : State) : State :=
  mkState d (undoStack st) (redoStack st).

Definition write_undo (s : list HistoryEntry) (st : State) : State :=
  mkState (instructions st) s (redoStack st).

Definition write_redo (s : list HistoryEntry) (st : State) : State :=
  mkState (instructions st) (undoStack st) s.

(** ** Undo/redo stack management *)

(** The body shared by pushToUndoStack and pushToRedoStack: push, then
    shift once when the length exceeds the maximum. *)
Definition push_capped (stack : list HistoryEntry) (e : HistoryEntry)
  : list HistoryEntry :=
  let stack' := JS.push stack e in
  if Nat.ltb MAX_UNDO_REDO_STATES (length stack') then JS.shift stack'
  else stack'.

Definition pushToUndoStack (commandName : string) (st : State) : State :=
  let currentData := loadInstructions st in
  write_undo (push_capped (undoStack st) (mkEntry commandName currentData)) st.

Definition pushToRedoStack (commandName : string) (st : State) : State :=
  let currentData := loadInstructions st in
  write_redo (push_capped (redoStack st) (mkEntry commandName currentData)) st.

Definition popFromUndoStack (st : State) : option string * State :=
  match JS.pop (undoStack st) with
  | Some (prevState, undoStack') =>
      let st1 := pushToRedoStack (command prevState) st in
      let st2 := saveInstructions (data prevState) st1 in
      let st3 := write_undo undoStack' st2 in
      (Some (command prevState), st3)
  | None => (None, st)
  end.

Definition popFromRedoStack (st : State) : option string * State :=
  match JS.pop (redoStack st) with
  | Some (nextState, redoStack') =>
      let st1 := pushToUndoStack (command nextState) st in
      let st2 := saveInstructions (data nextState) st1 in
      let st3 := write_redo redoStack' st2 in
      (Some (command nextState), st3)
  | None => (None, st)
  end.

Definition clearRedoStack (st : State) : State := write_redo [] st.

(** ** Command handlers of the record store *)

(** What a handler reports on the terminal, one constructor per message. *)
Inductive Outcome : Type :=
| InstructionAdded (newId : Z)
| InvalidDeadline
| IdDoesNotExist (i : Z)
| CannotEditDeleted
| NoChangesProvided
| InstructionUpdated (i : Z)
| CannotMarkDeleted
| AlreadyMarked (i : Z) (s : string)
| StatusUpdated (i : Z) (oldStatus newStatus : string)
| NotExistOrAlreadyDeleted (i : Z)
| InstructionDeleted (i : Z)
| OperationCancelled
| NotExistOrNotDeleted (i : Z)
| InstructionRecovered (i : Z)
| AllInstructionsErased
| NothingToUndo
| OperationUndone (c : string)
| NothingToRedo
| OperationRedone (c : string)
| NoOutput
| ValidationFailed (msg : string)
| NoMatches
| Showing (l : list Instruction)
| Total (n : nat)
| UncaughtRangeError
| InvalidValues (status priority : option string).

Record AddArgv : Type := mkAddArgv {
  add_source : string;
  add_instruction : string;
  add_priority : string;
  add_deadline : option string
}.

Record EditArgv : Type := mkEditArgv {
  edit_id : Z;
  edit_source : option string;
  edit_instruction : option string;
  edit_priority : option string;
  edit_status : option string;
  edit_deadline : option string
}.

Definition set_source (v : string) (i : Instruction) : Instruction :=
  mkInstruction (id i) v (text i) (added i) (priority i) (deadline i)
    (status i) (isDeleted i) (deletedAt i).

Definition set_text (v : string) (i : Instruction) : Instruction :=
  mkInstruction (id i) (source i) v (added i) (priority i) (deadline i)
    (status i) (isDeleted i) (deletedAt i).

Definition set_priority (v : string) (i : Instruction) : Instruction :=
  mkInstruction (id i) (source i) (text i) (added i) v (deadline i)
    (status i) (isDeleted i) (deletedAt i).

Definition set_status (v : string) (i : Instruction) : Instruction :=
  mkInstruction (id i) (source i) (text i) (added i) (priority i) (deadline i)
    v (isDeleted i) (deletedAt i).

Definition set_deadline (v : option Timestamp) (i : Instruction) : Instruction :=
  mkInstruction (id i) (source i) (text i) (added i) (priority i) v
    (status i) (isDeleted i) (deletedAt i).

Definition set_deleted (b : bool) (at_ : option Timestamp) (i : Instruction)
  : Instruction :=
  mkInstruction (id i) (source i) (text i) (added i) (priority i) (deadline i)
    (status i) b at_.

(** The double nearest to an integer, ties going to the even significand,
    which is how an arithmetic result is rounded.  Every integer up to
    [2 ^ 53] in magnitude is a double; beyond, the doubles are the 53-bit
    integers times a power of two. *)
Definition round_to_double (z : Z) : Z :=
  let a := Z.abs z in
  if a <=? 2 ^ 53 then z
  else
    let ulp := 2 ^ (Z.log2 a - 52) in
    let q := a / ulp in
    let r := a mod ulp in
    let q' :=
      if 2 * r <? ulp then q
      else if ulp <? 2 * r then q + 1
      else if Z.even q then q else q + 1 in
    Z.sgn z * (q' * ulp).

(** [instructions.length > 0 ? Math.max(...instructions.map(i => i.id)) + 1 : 1];
    the ids of the store are doubles, their maximum is one of them, and the
    sum is rounded. *)
Definition newId (instructions : list Instruction) : Z :=
  match map id instructions with
  | [] => 1
  | i :: rest => round_to_double (fold_left Z.max rest i + 1)
  end.

Definition add_handler (w : World) (argv : AddArgv) (st : State)
  : Outcome * State :=
  let st := pushToUndoStack "add" st in
  let st := clearRedoStack st in
  let instructions := loadInstructions st in
  let newId := newId instructions in
  let deadlineDate :=
    if JS.truthy_str (add_deadline argv)
    then match add_deadline argv with
         | Some s => chrono_parseDate w s
         | None => None
         end
    else None in
  match JS.truthy_str (add_deadline argv), deadlineDate with
  | true, None => (InvalidDeadline, st)
  | _, _ =>
      let instructions :=
        JS.push instructions
          (mkInstruction newId (add_source argv) (add_instruction argv)
             (Date_now w) (add_priority argv) deadlineDate "pending" false None) in
      (InstructionAdded newId, saveInstructions instructions st)
  end.

(** [if (argv.f) { instToEdit.f = argv.f; changed = true; }] *)
Definition assign_if_truthy (o : option string)
    (setter : string -> Instruction -> Instruction)
    (p : Instruction * bool) : Instruction * bool :=
  match o with
  | Some s => if JS.truthy_str o then (setter s (fst p), true) else p
  | None => p
  end.

(** The field assignments of the edit handler, in order; [None] when the
    deadline phrase is supplied and chrono cannot parse it (the handler
    returns there). *)
Definition edit_fields (w : World) (argv : EditArgv) (instToEdit : Instruction)
  : option (Instruction * bool) :=
  let p := (instToEdit, false) in
  let p := assign_if_truthy (edit_source argv) set_source p in
  let p := assign_if_truthy (edit_instruction argv) set_text p in
  let p := assign_if_truthy (edit_priority argv) set_priority p in
  let p := assign_if_truthy (edit_status argv) set_status p in
  match edit_deadline argv with
  | Some s =>
      if JS.truthy_str (edit_deadline argv) then
        match chrono_parseDate w s with
        | None => None
        | Some deadlineDate => Some (set_deadline (Some deadlineDate) (fst p), true)
        end
      else Some p
  | None => Some p
  end.

Definition edit_handler (w : World) (argv : EditArgv) (st : State)
  : Outcome * State :=
  let instructions := loadInstructions st in
  match JS.findIndex (fun inst => id inst =? edit_id argv) instructions with
  | None => (IdDoesNotExist (edit_id argv), st)
  | Some instIndex =>
      match nth_error instructions instIndex with
      | None => (IdDoesNotExist (edit_id argv), st)
      | Some instToEdit =>
          if isDeleted instToEdit then (CannotEditDeleted, st)
          else
            match edit_fields w argv instToEdit with
            | None => (InvalidDeadline, st)
            | Some (edited, changed) =>
                if changed then
                  let instructions := JS.set_at instIndex edited instructions in
                  let st := pushToUndoStack "edit" st in
                  let st := clearRedoStack st in
                  (InstructionUpdated (edit_id argv),
                   saveInstructions instructions st)
                else (NoChangesProvided, st)
            end
      end
  end.

Definition mark_handler (argv_id : Z) (argv_status : string) (st : State)
  : Outcome * State :=
  let instructions := loadInstructions st in
  match JS.findIndex (fun inst => id inst =? argv_id) instructions with
  | None => (IdDoesNotExist argv_id, st)
  | Some instIndex =>
      match nth_error instructions instIndex with
      | None => (IdDoesNotExist argv_id, st)
      | Some inst =>
          if isDeleted inst then (CannotMarkDeleted, st)
          else if String.eqb (status inst) argv_status
          then (AlreadyMarked argv_id argv_status, st)
          else
            let st := pushToUndoStack "mark" st in
            let st := clearRedoStack st in
            let oldStatus := status inst in
            let instructions :=
              JS.set_at instIndex (set_status argv_status inst) instructions in
            (StatusUpdated argv_id oldStatus argv_status,
             saveInstructions instructions st)
      end
  end.

Definition delete_handler (w : World) (argv_id : Z) (st : State)
  : Outcome * State :=
  let instructions := loadInstructions st in
  match JS.findIndex
          (fun inst => (id inst =? argv_id) && negb (isDeleted inst))%bool
          instructions with
  | None => (NotExistOrAlreadyDeleted argv_id, st)
  | Some instIndex =>
      match nth_error instructions instIndex with
      | None => (NotExistOrAlreadyDeleted argv_id, st)
      | Some inst =>
          if prompt_answer w then
            let st := pushToUndoStack "delete" st in
            let st := clearRedoStack st in
            let instructions :=
              JS.set_at instIndex (set_deleted true (Some (Date_now w)) inst)
                instructions in
            (InstructionDeleted argv_id, saveInstructions instructions st)
          else (OperationCancelled, st)
      end
  end.

Definition recover_handler (argv_id : Z) (st : State) : Outcome * State :=
  let instructions := loadInstructions st in
  match JS.findIndex (fun inst => id inst =? argv_id) instructions with
  | None => (NotExistOrNotDeleted argv_id, st)
  | Some instIndex =>
      match nth_error instructions instIndex with
      | None => (NotExistOrNotDeleted argv_id, st)
      | Some inst =>
          if negb (isDeleted inst) then (NotExistOrNotDeleted argv_id, st)
          else
            let st := pushToUndoStack "recover" st in
            let st := clearRedoStack st in
            let instructions :=
              JS.set_at instIndex (set_deleted false None inst) instructions in
            (InstructionRecovered argv_id, saveInstructions instructions st)
      end
  end.

Definition reset_handler (w : World) (st : State) : Outcome * State :=
  if prompt_answer w then
    let st := pushToUndoStack "reset" st in
    let st := clearRedoStack st in
    (AllInstructionsErased, saveInstructions [] st)
  else (OperationCancelled, st).

Definition undo_handler (w : World) (st : State) : Outcome * State :=
  match undoStack st with
  | [] => (NothingToUndo, st)
  | _ :: _ =>
      if prompt_answer w then
        match popFromUndoStack st with
        | (Some undoneCommand, st') =>
            (if JS.truthy_str (Some undoneCommand)
             then OperationUndone undoneCommand else NoOutput, st')
        | (None, st') => (NoOutput, st')
        end
      else (OperationCancelled, st)
  end.

Definition redo_handler (w : World) (st : State) : Outcome * State :=
  match redoStack st with
  | [] => (NothingToRedo, st)
  | _ :: _ =>
      if prompt_answer w then
        match popFromRedoStack st with
        | (Some redoneCommand, st') =>
            (if JS.truthy_str (Some redoneCommand)
             then OperationRedone redoneCommand else NoOutput, st')
        | (None, st') => (NoOutput, st')
        end
      else (OperationCancelled, st)
  end.

(** ** Month and week coercion, filter-option validation *)

(** Exceptions the modelled code can raise. *)
Inductive Exception : Type :=
| Error (message : string)   (* throw new Error(message) *)
| RangeError.                (* toISOString() of an invalid Date *)

Inductive result (A : Type) : Type :=
| Ok (a : A)
| Throw (e : Exception).

Arguments Ok {A} a.
Arguments Throw {A} e.

Definition bind {A B : Type} (m : result A) (k : A -> result B) : result B :=
  match m with
  | Ok a => k a
  | Throw e => Throw e
  end.

Notation "x <- m ;; k" := (bind m (fun x => k))
  (at level 100, m at next level, right associativity).

(** What [monthMap[monthStr] || null] can evaluate to: a month number of the
    table, or a member that the object literal inherits from
    [Object.prototype]. *)
Inductive MonthValue : Type :=
| MonthNumber (n : Z)
| InheritedProperty (key : string).

Definition monthMap : list (string * Z) :=
  [ ("january", 1); ("jan", 1); ("february", 2); ("feb", 2);
    ("march", 3); ("mar", 3); ("april", 4); ("apr", 4); ("may", 5);
    ("june", 6); ("jun", 6); ("july", 7); ("jul", 7);
    ("august", 8); ("aug", 8); ("september", 9); ("sep", 9);
    ("october", 10); ("oct", 10); ("november", 11); ("nov", 11);
    ("december", 12); ("dec", 12) ]%string.

(** The property names of [Object.prototype]; each holds a function or an
    object, hence a truthy value. *)
Definition Object_prototype_keys : list string :=
  [ "constructor"; "__defineGetter__"; "__defineSetter__"; "hasOwnProperty";
    "__lookupGetter__"; "__lookupSetter__"; "isPrototypeOf";
    "propertyIsEnumerable"; "toString"; "valueOf"; "__proto__";
    "toLocaleString" ]%string.

Fixpoint own_property (key : string) (m : list (string * Z)) : option Z :=
  match m with
  | [] => None
  | (k, v) :: m' => if String.eqb k key then Some v else own_property key m'
  end.

(** [monthMap[key]]: own property first, then the prototype; [None] stands
    for [undefined]. *)
Definition monthMap_get (key : string) : option MonthValue :=
  match own_property key monthMap with
  | Some v => Some (MonthNumber v)
  | None =>
      if existsb (String.eqb key) Object_prototype_keys
      then Some (InheritedProperty key)
      else None
  end.

(** [parseMonth]; [None] stands for [null]. *)
Definition parseMonth (monthInput : string) : option MonthValue :=
  if String.eqb monthInput "" then None
  else
    let monthNumber := JS.parseInt monthInput in
    match monthNumber with
    | Some n =>
        if ((1 <=? n) && (n <=? 12))%bool then Some (MonthNumber n)
        else monthMap_get (JS.trim (JS.toLowerCase monthInput))
    | None => monthMap_get (JS.trim (JS.toLowerCase monthInput))
    end.

Definition invalid_month_message (monthInput : string) : string :=
  ("Invalid month: '" ++ monthInput ++ "'.")%string.

Definition monthCoercion (monthInput : option string)
  : result (option MonthValue) :=
  match monthInput with
  | None => Ok None
  | Some s =>
      match parseMonth s with
      | None => Throw (Error (invalid_month_message s))
      | Some monthNumber => Ok (Some monthNumber)
      end
  end.

Definition invalid_week_message : string :=
  "Invalid week value: The week must be a number between 1 and 5.".

(** [typeof week !== "number"] is false of every value the option can
    have, [NaN] included. *)
Definition weekCoercion (week : option Number) : result (option Number) :=
  match week with
  | None => Ok None
  | Some n =>
      if (JS.less_than n (Integer 1) || JS.less_than (Integer 5) n)%bool
      then Throw (Error invalid_week_message)
      else Ok (Some n)
  end.

(** The options of show, total and export as the command line gives them. *)
Record FilterArgv : Type := mkFilterArgv {
  a_priority : option string;
  a_source : option string;
  a_status : option string;
  a_deadline : option bool;
  a_all : option bool;
  a_date : option string;
  a_day : option string;
  a_month : option string;
  a_year : option Number;
  a_week : option Number
}.

(** The same options after coercion, as validateFilterOptions and
    filterInstructions read them. *)
Record Filters : Type := mkFilters {
  f_priority : option string;
  f_source : option string;
  f_status : option string;
  f_deadline : option bool;
  f_all : option bool;
  f_date : option string;
  f_day : option string;
  f_month : option MonthValue;
  f_year : option Number;
  f_week : option Number
}.

Definition truthy_month (o : option MonthValue) : bool :=
  match o with
  | Some (MonthNumber n) => negb (n =? 0)
  | Some (InheritedProperty _) => true
  | None => false
  end.

(** [/^\d{4}-\d{2}-\d{2}$/.test(s)] *)
Definition matches_date_pattern (s : string) : bool :=
  match list_ascii_of_string s with
  | [y1; y2; y3; y4; d1; m1; m2; d2; a1; a2] =>
      (JS.is_digit y1 && JS.is_digit y2 && JS.is_digit y3 && JS.is_digit y4
       && Ascii.eqb d1 "-" && JS.is_digit m1 && JS.is_digit m2
       && Ascii.eqb d2 "-" && JS.is_digit a1 && JS.is_digit a2)%bool
  | _ => false
  end.

Definition msg_invalid_date : string :=
  "Invalid date format for --date. Please use YYYY-MM-DD.".
Definition msg_date_with_others : string :=
  "Cannot use --date with other time filters like --day, --month, etc.".
Definition msg_week_without_month : string :=
  "The --week filter must be used with the --month filter.".

(** [validateFilterOptions]; [None] stands for the return value [true],
    [Some msg] for the returned message. *)
Definition validateFilterOptions (w : World) (options : Filters)
  : option string :=
  let date_failure :=
    match f_date options with
    | Some s =>
        if JS.truthy_str (f_date options) then
          if (negb (matches_date_pattern s)
              || match Date_parse w s with None => true | Some _ => false end)%bool
          then Some msg_invalid_date
          else if (JS.truthy_str (f_day options)
                   || truthy_month (f_month options)
                   || JS.truthy_num (f_week options)
                   || JS.truthy_num (f_year options))%bool
          then Some msg_date_with_others
          else None
        else None
    | None => None
    end in
  match date_failure with
  | Some msg => Some msg
  | None =>
      if (JS.truthy_num (f_week options)
          && negb (truthy_month (f_month options)))%bool
      then Some msg_week_without_month
      else None
  end.

(** ** Filter engine *)

(** [Math.ceil(a / b)] for integers [a] and positive [b]. *)
Definition Math_ceil_div (a b : Z) : Z := - ((- a) / b).

Definition getWeekOfMonth (date : Timestamp) : Z :=
  Math_ceil_div (getDate date) 7.

(** [filter] with a predicate that may throw: the first exception aborts. *)
Fixpoint filter_throwing {A : Type} (p : A -> result bool) (l : list A)
  : result (list A) :=
  match l with
  | [] => Ok []
  | x :: l' =>
      keep <- p x ;;
      rest <- filter_throwing p l' ;;
      Ok (if keep then x :: rest else rest)
  end.

(** The inner function [checkDate] of filterInstructions. *)
Definition checkDate (w : World) (filters : Filters)
    (dateString : option Timestamp) : result bool :=
  match dateString with
  | None => Ok false
  | Some date =>
      dateMatch <-
        match f_date filters with
        | Some s =>
            if negb (JS.truthy_str (f_date filters)) then Ok true
            else match Date_parse w s with
                 | Some day => Ok (String.eqb (isoDay date) day)
                 | None => Throw RangeError
                 end
        | None => Ok true
        end ;;
      let dayMatch :=
        match f_day filters with
        | Some d =>
            (negb (JS.truthy_str (f_day filters))
             || String.eqb (JS.toLowerCase (getDayName date)) (JS.toLowerCase d))%bool
        | None => true
        end in
      let monthMatch :=
        match f_month filters with
        | Some (MonthNumber m) =>
            (negb (truthy_month (f_month filters)) || (getMonth date + 1 =? m))%bool
        | Some (InheritedProperty _) => false
        | None => true
        end in
      let yearMatch :=
        match f_year filters with
        | Some y =>
            (negb (JS.truthy_num (f_year filters))
             || JS.strict_equal (Integer (getFullYear date)) y)%bool
        | None => true
        end in
      let weekMatch :=
        match f_week filters with
        | Some k =>
            (negb (JS.truthy_num (f_week filters))
             || JS.strict_equal (Integer (getWeekOfMonth date)) k)%bool
        | None => true
        end in
      Ok (dateMatch && dayMatch && monthMatch && yearMatch && weekMatch)%bool
  end.

(** [checkDate(inst.added) || checkDate(inst.deadline)] *)
Definition temporal_predicate (w : World) (filters : Filters)
    (inst : Instruction) : result bool :=
  byAdded <- checkDate w filters (Some (added inst)) ;;
  if byAdded then Ok true else checkDate w filters (deadline inst).

Definition hasDateFilter (filters : Filters) : bool :=
  (JS.truthy_str (f_date filters) || JS.truthy_str (f_day filters)
   || truthy_month (f_month filters) || JS.truthy_num (f_year filters)
   || JS.truthy_num (f_week filters))%bool.

Definition is_some {A : Type} (o : option A) : bool :=
  match o with Some _ => true | None => false end.

Definition filterInstructions (w : World) (instructions : list Instruction)
    (filters : Filters) : result (list Instruction) :=
  let filteredData := instructions in
  let filteredData :=
    match f_priority filters with
    | Some p =>
        if JS.truthy_str (f_priority filters)
        then filter (fun inst => String.eqb (priority inst) p) filteredData
        else filteredData
    | None => filteredData
    end in
  let filteredData :=
    match f_source filters with
    | Some s =>
        if JS.truthy_str (f_source filters)
        then filter (fun inst =>
                       String.eqb (JS.toLowerCase (source inst)) (JS.toLowerCase s))
               filteredData
        else filteredData
    | None => filteredData
    end in
  let filteredData :=
    match f_status filters with
    | Some s =>
        if JS.truthy_str (f_status filters)
        then filter (fun inst => String.eqb (status inst) s) filteredData
        else filteredData
    | None => filteredData
    end in
  let filteredData :=
    if JS.truthy_flag (f_deadline filters)
    then filter (fun inst => is_some (deadline inst)) filteredData
    else filteredData in
  let filteredData :=
    if negb (JS.truthy_flag (f_all filters))
    then filter (fun inst => negb (isDeleted inst)) filteredData
    else filteredData in
  if hasDateFilter filters
  then filter_throwing (temporal_predicate w filters) filteredData
  else Ok filteredData.

(** ** The filtering commands *)

(** The two [coerce] hooks, then the [check] hook. *)
Definition parse_filters (w : World) (argv : FilterArgv) : result Filters :=
  week <- weekCoercion (a_week argv) ;;
  month <- monthCoercion (a_month argv) ;;
  let options :=
    mkFilters (a_priority argv) (a_source argv) (a_status argv)
      (a_deadline argv) (a_all argv) (a_date argv) (a_day argv)
      month (a_year argv) week in
  match validateFilterOptions w options with
  | Some msg => Throw (Error msg)
  | None => Ok options
  end.

Definition PRIORITY_ORDER : list (string * Z) :=
  [ ("high", 1); ("medium", 2); ("low", 3); ("normal", 4) ]%string.

(** What [CONFIG.PRIORITY_ORDER[p] || 4] evaluates to: a number of the
    table, the number 4 when the object has no member [p], or a member
    that the object literal inherits from [Object.prototype] (a function or
    an object, hence truthy). *)
Inductive RankValue : Type :=
| RankNumber (n : Z)
| RankInherited (key : string).

Definition priority_rank (p : string) : RankValue :=
  match own_property p PRIORITY_ORDER with
  | Some n => if n =? 0 then RankNumber 4 else RankNumber n
  | None =>
      if existsb (String.eqb p) Object_prototype_keys
      then RankInherited p
      else RankNumber 4
  end.

(** The comparator of the show handler, the difference of the two ranks;
    [None] stands for [NaN], the difference when a rank is no number. *)
Definition compare_priority (a b : Instruction) : option Z :=
  match priority_rank (priority a), priority_rank (priority b) with
  | RankNumber x, RankNumber y => Some (x - y)
  | _, _ => None
  end.

(** [SortCompare]: a positive result puts [y] first; [NaN] counts as 0. *)
Fixpoint insert_by_rank (x : Instruction) (l : list Instruction)
  : list Instruction :=
  match l with
  | [] => [x]
  | y :: l' =>
      if match compare_priority x y with
         | Some v => 0 <? v
         | None => false
         end
      then y :: insert_by_rank x l'
      else x :: l
  end.

(** The [sort] of the show handler, which is stable.  When the priority of
    a record names an inherited member the comparator is not consistent
    and ECMAScript leaves the resulting order to the engine; the order
    computed here is then one of those it permits. *)
Definition sort_by_priority (l : list Instruction) : list Instruction :=
  fold_right insert_by_rank [] l.

Definition exception_outcome (e : Exception) : Outcome :=
  match e with
  | Error msg => ValidationFailed msg
  | RangeError => UncaughtRangeError
  end.

(** The [choices] of the show builder for [--status]: the keys of
    [CONFIG.STATUS_SYMBOLS]; those for [--priority] are the keys of
    [CONFIG.PRIORITY_ORDER]. *)
Definition STATUS_SYMBOLS_keys : list string :=
  [ "completed"; "processing"; "paused"; "pending" ]%string.

(** yargs' test of an option against its choices: the value, when one is
    given and it is none of the choices. *)
Definition outside_choices (choices : list string) (o : option string)
  : option string :=
  match o with
  | Some v => if existsb (String.eqb v) choices then None else Some v
  | None => None
  end.

(** The two [coerce] hooks on their own. *)
Definition coercions (argv : FilterArgv)
  : result (option Number * option MonthValue) :=
  week <- weekCoercion (a_week argv) ;;
  month <- monthCoercion (a_month argv) ;;
  Ok (week, month).

(** The show command.  yargs reports a failed coercion first, then a value
    outside the choices of an option ([InvalidValues], with the offending
    value of each option), and runs the check hook last; the handler is
    called when all three pass. *)
Definition show_handler (w : World) (argv : FilterArgv) (st : State)
  : Outcome * State :=
  match coercions argv with
  | Throw e => (exception_outcome e, st)
  | Ok _ =>
      match outside_choices STATUS_SYMBOLS_keys (a_status argv),
            outside_choices (map fst PRIORITY_ORDER) (a_priority argv) with
      | None, None =>
          match parse_filters w argv with
          | Throw e => (exception_outcome e, st)
          | Ok filters =>
              match filterInstructions w (loadInstructions st) filters with
              | Throw e => (exception_outcome e, st)
              | Ok [] => (NoMatches, st)
              | Ok filtered => (Showing (sort_by_priority filtered), st)
              end
          end
      | status, priority => (InvalidValues status priority, st)
      end
  end.

Definition total_handler (w : World) (argv : FilterArgv) (st : State)
  : Outcome * State :=
  match parse_filters w argv with
  | Throw e => (exception_outcome e, st)
  | Ok filters =>
      match filterInstructions w (loadInstructions st) filters with
      | Throw e => (exception_outcome e, st)
      | Ok [] => (NoMatches, st)
      | Ok filtered => (Total (length filtered), st)
      end
  end.

(** ** Commands and runs *)

Inductive Command : Type :=
| Add (argv : AddArgv)
| Edit (argv : EditArgv)
| Mark (argv_id : Z) (argv_status : string)
| Delete (argv_id : Z)
| Recover (argv_id : Z)
| Reset
| Undo
| Redo
| ShowCmd (argv : FilterArgv)
| TotalCmd (argv : FilterArgv).

Definition exec (w : World) (c : Command) (st : State) : Outcome * State :=
  match c with
  | Add argv => add_handler w argv st
  | Edit argv => edit_handler w argv st
  | Mark i s => mark_handler i s st
  | Delete i => delete_handler w i st
  | Recover i => recover_handler i st
  | Reset => reset_handler w st
  | Undo => undo_handler w st
  | Redo => redo_handler w st
  | ShowCmd argv => show_handler w argv st
  | TotalCmd argv => total_handler w argv st
  end.

(** A session: one invocation after the other, each in its own world. *)
Fixpoint run (script : list (World * Command)) (st : State)
  : list Outcome * State :=
  match script with
  | [] => ([], st)
  | (w, c) :: script' =>
      let (o, st1) := exec w c st in
      let (os, st2) := run script' st1 in
      (o :: os, st2)
  end.

(** ** filterInstructions over a store of array objects

    The same function with the arrays it allocates made explicit: the spread
    copy and every [filter] call create a new array object, and the variable
    [filteredData] is rebound to it.  Array objects live in a heap addressed
    by their allocation index. *)

Module ArrayHeap.

Definition loc : Type := nat.
Definition heap : Type := list (list Instruction).

Definition deref (h : heap) (l : loc) : list Instruction := nth l h [].

Definition alloc (a : list Instruction) (h : heap) : loc * heap :=
  (length h, h ++ [a]).

(** [if (cond) filteredData = filteredData.filter(p);] *)
Definition filter_stage (cond : bool) (p : Instruction -> bool)
    (cur : loc * heap) : loc * heap :=
  if cond then alloc (filter p (deref (snd cur) (fst cur))) (snd cur)
  else cur.

Definition filterInstructions (w : World) (h : heap) (instructions : loc)
    (filters : Filters) : result (loc * heap) :=
  let cur := alloc (deref h instructions) h in
  let cur :=
    filter_stage (JS.truthy_str (f_priority filters))
      (fun inst => match f_priority filters with
                   | Some p => String.eqb (priority inst) p
                   | None => false
                   end) cur in
  let cur :=
    filter_stage (JS.truthy_str (f_source filters))
      (fun inst => match f_source filters with
                   | Some s => String.eqb (JS.toLowerCase (source inst))
                                 (JS.toLowerCase s)
                   | None => false
                   end) cur in
  let cur :=
    filter_stage (JS.truthy_str (f_status filters))
      (fun inst => match f_status filters with
                   | Some s => String.eqb (status inst) s
                   | None => false
                   end) cur in
  let cur :=
    filter_stage (JS.truthy_flag (f_deadline filters))
      (fun inst => is_some (deadline inst)) cur in
  let cur :=
    filter_stage (negb (JS.truthy_flag (f_all filters)))
      (fun inst => negb (isDeleted inst)) cur in
  if hasDateFilter filters then
    kept <- filter_throwing (temporal_predicate w filters)
              (deref (snd cur) (fst cur)) ;;
    Ok (alloc kept (snd cur))
  else Ok cur.

End ArrayHeap.

(** ** Notions used to state the properties *)

(** The last [n] elements of a list, in order. *)
Definition lastn {A : Type} (n : nat) (l : list A) : list A :=
  skipn (length l - n) l.

(** The stacks respect the capacity. *)
Definition within_capacity (st : State) : Prop :=
  (length (undoStack st) <= MAX_UNDO_REDO_STATES)%nat /\
  (length (redoStack st) <= MAX_UNDO_REDO_STATES)%nat.

(** The messages that announce a completed change of the store. *)
Definition applied (o : Outcome) : bool :=
  match o with
  | InstructionAdded _ | InstructionUpdated _ | StatusUpdated _ _ _
  | InstructionDeleted _ | InstructionRecovered _ | AllInstructionsErased => true
  | _ => false
  end.

(** The name under which a mutating command records its snapshot. *)
Definition command_name (c : Command) : string :=
  match c with
  | Add _ => "add"
  | Edit _ => "edit"
  | Mark _ _ => "mark"
  | Delete _ => "delete"
  | Recover _ => "recover"
  | Reset => "reset"
  | Undo => "undo"
  | Redo => "redo"
  | ShowCmd _ => "show"
  | TotalCmd _ => "total"
  end.

(** The commands that announce a change through [applied]: every command
    except undo, redo and the queries. *)
Definition mutating (c : Command) : bool :=
  match c with
  | Add _ | Edit _ | Mark _ _ | Delete _ | Recover _ | Reset => true
  | _ => false
  end.

(** The commands that never replace the store wholesale. *)
Definition keeps_records (c : Command) : bool :=
  match c with
  | Reset | Undo | Redo => false
  | _ => true
  end.

(** The store before each command of a session, tagged with the command's
    name: the snapshots a session of applied mutations records. *)
Fixpoint snapshots (script : list (World * Command)) (st : State)
  : list HistoryEntry :=
  match script with
  | [] => []
  | (w, c) :: script' =>
      mkEntry (command_name c) (instructions st)
      :: snapshots script' (snd (exec w c st))
  end.

(** The ids handed out during a session, in order. *)
Fixpoint assigned_ids (os : list Outcome) : list Z :=
  match os with
  | [] => []
  | InstructionAdded n :: os' => n :: assigned_ids os'
  | _ :: os' => assigned_ids os'
  end.

(** [m] is the greatest element of [l]. *)
Definition is_max (m : Z) (l : list Z) : Prop :=
  In m l /\ Forall (fun x => x <= m) l.

(** [Number.isSafeInteger]: an integer that doubles hold together with its
    neighbours. *)
Definition safe_integer (x : Z) : Prop := Z.abs x < 2 ^ 53.

(** The ids of the store leave room for [k] further assignments within the
    safe integers. *)
Definition room_for (k : nat) (l : list Instruction) : Prop :=
  Z.of_nat k < 2 ^ 53
  /\ Forall (fun x => Z.abs x + Z.of_nat k < 2 ^ 53) (map id l).

(** The deadline phrase of an add is left out (or empty), or chrono reads
    it. *)
Definition deadline_accepted (w : World) (argv : AddArgv) : bool :=
  match add_deadline argv with
  | Some s =>
      if JS.truthy_str (add_deadline argv) then is_some (chrono_parseDate w s)
      else true
  | None => true
  end.

(** The additions of a session whose deadline is accepted. *)
Definition accepted_adds (script : list (World * Command))
    : list (World * Command) :=
  filter (fun wc => match snd wc with
                    | Add argv => deadline_accepted (fst wc) argv
                    | _ => false
                    end) script.

(** The assignment of ids as the specification words it: whatever the
    store, a new record gets one more than the greatest id of the store, or
    1 on the empty store, and so an id that no record of the store has. *)
Definition ids_assigned_as_specified : Prop :=
  forall (w : World) (argv : AddArgv) (st st' : State) (n : Z),
    add_handler w argv st = (InstructionAdded n, st') ->
    (instructions st = [] -> n = 1)
    /\ (instructions st <> [] -> is_max (n - 1) (map id (instructions st)))
    /\ ~ In n (map id (instructions st)).

(** The typed results of the specification. *)
Inductive TypedResult : Type :=
| NotFound
| AlreadyDeleted
| NoOp
| Applied.

(** Temporal criteria, as the specification lists them. *)
Inductive TemporalCriterion : Type :=
| OnDate (s : string)
| OnDay (d : string)
| InMonth (m : MonthValue)
| InYear (y : Z)
| InWeek (k : Z).

(** An option counts as supplied when the program finds it truthy. *)
Definition supplied_str (o : option string) : option string :=
  match o with
  | Some s => if String.eqb s "" then None else Some s
  | None => None
  end.

Definition supplied_num (o : option Number) : option Z :=
  match o with
  | Some (Integer n) => if n =? 0 then None else Some n
  | Some NaN => None
  | None => None
  end.

Definition supplied_month (o : option MonthValue) : option MonthValue :=
  match o with
  | Some (MonthNumber n) => if n =? 0 then None else Some (MonthNumber n)
  | other => other
  end.

Definition criterion {A : Type} (C : A -> TemporalCriterion) (o : option A)
  : list TemporalCriterion :=
  match o with
  | Some v => [C v]
  | None => []
  end.

Definition specified_criteria (f : Filters) : list TemporalCriterion :=
  criterion OnDate (supplied_str (f_date f))
  ++ criterion OnDay (supplied_str (f_day f))
  ++ criterion InMonth (supplied_month (f_month f))
  ++ criterion InYear (supplied_num (f_year f))
  ++ criterion InWeek (supplied_num (f_week f)).

(** One timestamp against one criterion.  Week [k] of a month holds the days
    [7(k-1)+1 .. 7k], which is [k = ceil(day / 7)]. *)
Definition satisfies (w : World) (t : Timestamp) (c : TemporalCriterion)
  : Prop :=
  match c with
  | OnDate s => Date_parse w s = Some (isoDay t)
  | OnDay d => JS.toLowerCase (getDayName t) = JS.toLowerCase d
  | InMonth m => m = MonthNumber (getMonth t + 1)
  | InYear y => getFullYear t = y
  | InWeek k => 7 * (k - 1) < getDate t <= 7 * k
  end.

(** Disjunction over the two timestamps of the record, conjunction over the
    specified criteria. *)
Definition temporal_match (w : World) (f : Filters) (r : Instruction) : Prop :=
  exists t, (t = added r \/ deadline r = Some t) /\
            Forall (satisfies w t) (specified_criteria f).

Definition no_filters : Filters :=
  mkFilters None None None None None None None None None None.

Definition week_of_month_filter (all : option bool) (week month : Z) : Filters :=
  mkFilters None None None None all None None
    (Some (MonthNumber month)) None (Some (Integer week)).

(** Days 8 to 14 of August, in the calendar the program reads. *)
Definition in_second_week_of_august (t : Timestamp) : Prop :=
  getMonth t + 1 = 8 /\ 8 <= getDate t <= 14.

(** Month resolution as the specification words it: numeric strings 1-12 are
    taken verbatim, any other input is looked up, ignoring case, among the
    full English month names and their three-letter abbreviations, and
    everything else is an error that names the input. *)
Definition month_names : list string :=
  [ "january"; "february"; "march"; "april"; "may"; "june"; "july";
    "august"; "september"; "october"; "november"; "december" ]%string.

Fixpoint lookup_month (key : string) (names : list string) (n : Z)
  : option Z :=
  match names with
  | [] => None
  | name :: rest =>
      if (String.eqb key name || String.eqb key (substring 0 3 name))%bool
      then Some n
      else lookup_month key rest (n + 1)
  end.

Definition is_numeric_string (s : string) : bool :=
  (negb (String.eqb s "") && forallb JS.is_digit (list_ascii_of_string s))%bool.

Definition numeric_value (s : string) : Z :=
  fold_left (fun acc c => 10 * acc + JS.digit_value c) (list_ascii_of_string s) 0.

Inductive MonthResolution : Type :=
| Resolved (n : Z)
| InvalidMonth (offending : string).

Definition monthOf_spec (s : string) : MonthResolution :=
  if (is_numeric_string s && (1 <=? numeric_value s)
      && (numeric_value s <=? 12))%bool
  then Resolved (numeric_value s)
  else match lookup_month (JS.toLowerCase s) month_names 1 with
       | Some n => Resolved n
       | None => InvalidMonth s
       end.

(** The program's resolution agrees with the specification's on [s]. *)
Definition month_resolution_agrees (s : string) : Prop :=
  match monthOf_spec s with
  | Resolved n => monthCoercion (Some s) = Ok (Some (MonthNumber n))
  | InvalidMonth v => monthCoercion (Some s) = Throw (Error (invalid_month_message v))
  end.

(** ** Sample data *)

Definition aug_09 : Timestamp := mkTimestamp 2025 7 9 "Saturday" "2025-08-09".
Definition aug_10 : Timestamp := mkTimestamp 2025 7 10 "Sunday" "2025-08-10".
Definition sep_01 : Timestamp := mkTimestamp 2025 8 1 "Monday" "2025-09-01".

(** A world whose user confirms every prompt, whose deadline parser knows
    the phrase "tomorrow" only, and whose [Date] accepts every string of the
    shape YYYY-MM-DD. *)
Definition sample_world : World :=
  mkWorld aug_09
    (fun s => if String.eqb s "tomorrow" then Some aug_10 else None)
    true
    (fun s => if matches_date_pattern s then Some s else None).

Definition buy_milk : AddArgv := mkAddArgv "work" "buy milk" "normal" None.

Definition buy_milk_someday : AddArgv :=
  mkAddArgv "work" "buy milk" "normal" (Some "someday maybe"%string).

Definition record_1 : Instruction :=
  mkInstruction 1 "work" "buy milk" aug_09 "high" None "pending" false None.

Definition record_1_deleted : Instruction :=
  mkInstruction 1 "work" "buy milk" aug_09 "high" None "pending" true (Some aug_10).

Definition record_2 : Instruction :=
  mkInstruction 2 "home" "water plants" sep_01 "low" (Some aug_10) "completed"
    false None.

(** A record whose id is [2 ^ 53], the first integer whose successor is no
    double. *)
Definition record_at_the_limit : Instruction :=
  mkInstruction (2 ^ 53) "work" "buy milk" aug_09 "high" None "pending"
    false None.

(** What undo and redo print for the command they reverted or re-applied
    ([if (undoneCommand)] guards the message). *)
Definition announce_undone (c : string) : Outcome :=
  if JS.truthy_str (Some c) then OperationUndone c else NoOutput.

Definition announce_redone (c : string) : Outcome :=
  if JS.truthy_str (Some c) then OperationRedone c else NoOutput.

Definition keeps_all_records (script : list (World * Command)) : bool :=
  forallb (fun wc => keeps_records (snd wc)) script.

(** Every command of the session is a mutating command that announced its
    change. *)
Fixpoint all_applied (script : list (World * Command)) (st : State) : bool :=
  match script with
  | [] => true
  | (w, c) :: script' =>
      (mutating c && applied (fst (exec w c st))
       && all_applied script' (snd (exec w c st)))%bool
  end.

Definition sample_session : list (World * Command) :=
  [ (sample_world, Add buy_milk); (sample_world, Delete 1);
    (sample_world, Add buy_milk); (sample_world, Add buy_milk) ].

Definition eleven_additions : list (World * Command) :=
  repeat (sample_world, Add buy_milk) 11.

Definition full_redo_state : State :=
  mkState [record_1] [] (repeat (mkEntry "add" []) 10).

(** [find(Store, id)] of the specification: the first record with the id. *)
Definition find_by_id (i : Z) (l : list Instruction) : option Instruction :=
  find (fun r => id r =? i) l.

(** The first record with the id that is not soft-deleted. *)
Definition find_active (i : Z) (l : list Instruction) : option Instruction :=
  find (fun r => (id r =? i) && negb (isDeleted r))%bool l.

(** The typed result a message stands for, for the messages that name
    exactly one of the four. *)
Definition typed_result (o : Outcome) : option TypedResult :=
  match o with
  | IdDoesNotExist _ => Some NotFound
  | CannotEditDeleted | CannotMarkDeleted => Some AlreadyDeleted
  | NoChangesProvided | AlreadyMarked _ _ => Some NoOp
  | InstructionAdded _ | InstructionUpdated _ | StatusUpdated _ _ _
  | InstructionDeleted _ | InstructionRecovered _ | AllInstructionsErased =>
      Some Applied
  | _ => None
  end.

Definition edit_supplies_nothing (argv : EditArgv) : bool :=
  negb (JS.truthy_str (edit_source argv) || JS.truthy_str (edit_instruction argv)
        || JS.truthy_str (edit_priority argv) || JS.truthy_str (edit_status argv)
        || JS.truthy_str (edit_deadline argv)).

(** The option is left out, or empty, or asks for the value [v]. *)
Definition agrees_with (o : option string) (v : string) : bool :=
  match supplied_str o with
  | Some s => String.eqb s v
  | None => true
  end.

(** An edit request that asks for something, and for nothing but the values
    the record [r] already has. *)
Definition requests_the_current_values (argv : EditArgv) (r : Instruction)
    : bool :=
  (negb (edit_supplies_nothing argv)
   && agrees_with (edit_source argv) (source r)
   && agrees_with (edit_instruction argv) (text r)
   && agrees_with (edit_priority argv) (priority r)
   && agrees_with (edit_status argv) (status r)
   && negb (JS.truthy_str (edit_deadline argv)))%bool.

Definition edit_same_source : EditArgv :=
  mkEditArgv 1 (Some "work"%string) None None None None.

(** A snapshot waiting on the redo stack. *)
Definition record_1_entry : HistoryEntry := mkEntry "delete" [record_1].

(** The mutating commands whose handler checks everything before it touches
    a file. *)
Definition validates_first (c : Command) : bool :=
  match c with
  | Edit _ | Mark _ _ | Delete _ | Recover _ | Reset => true
  | _ => false
  end.

(** Typed results for the delete command, as the specification words them:
    some reading of its reports tells an absent id ([NotFound]) from a
    soft-deleted record ([AlreadyDeleted]). *)
Definition delete_reports_are_typed : Prop :=
  exists classify : Outcome -> TypedResult,
    forall (w : World) (i : Z) (st : State),
      (find_by_id i (instructions st) = None ->
       classify (fst (delete_handler w i st)) = NotFound)
      /\ (forall r, find_by_id i (instructions st) = Some r ->
                    isDeleted r = true ->
                    classify (fst (delete_handler w i st)) = AlreadyDeleted).







(** [out] is [l] with some elements removed, the others in their order. *)
Inductive subseq {A : Type} : list A -> list A -> Prop :=
| subseq_nil : subseq [] []
| subseq_skip (x : A) (out l : list A) : subseq out l -> subseq out (x :: l)
| subseq_keep (x : A) (out l : list A) : subseq out l -> subseq (x :: out) (x :: l).

(** The criteria on the fields of a record, as one conjunction: each
    supplied criterion must hold, and soft-deleted records pass only when
    [all] is set. *)
Definition passes_attributes (f : Filters) (r : Instruction) : bool :=
  (match supplied_str (f_priority f) with
   | Some p => String.eqb (priority r) p
   | None => true
   end
   && match supplied_str (f_source f) with
      | Some s => String.eqb (JS.toLowerCase (source r)) (JS.toLowerCase s)
      | None => true
      end
   && match supplied_str (f_status f) with
      | Some s => String.eqb (status r) s
      | None => true
      end
   && (if JS.truthy_flag (f_deadline f) then is_some (deadline r) else true)
   && (if JS.truthy_flag (f_all f) then true else negb (isDeleted r)))%bool.

(** The scenario of the specification: record 1 active, record 2 completed
    and soft-deleted. *)
Definition scenario_1 : Instruction :=
  mkInstruction 1 "work" "buy milk" aug_09 "high" None "pending" false None.

Definition scenario_2 : Instruction :=
  mkInstruction 2 "home" "file taxes" sep_01 "low" None "completed" true
    (Some aug_10).

Definition only_completed (all : option bool) : Filters :=
  mkFilters None None (Some "completed"%string) None all None None None None None.

Definition on_date (s : string) : Filters :=
  mkFilters None None None None None (Some s) None None None None.

(** [cur] designates an array allocated after the heap [h0] was taken, the
    arrays of [h0] are all still in place, and the array holds [l]. *)
Definition fresh_view (h0 : ArrayHeap.heap) (l : list Instruction)
    (cur : ArrayHeap.loc * ArrayHeap.heap) : Prop :=
  (length h0 <= fst cur < length (snd cur))%nat
  /\ (exists ext, snd cur = h0 ++ ext)
  /\ ArrayHeap.deref (snd cur) (fst cur) = l.

Definition sample_heap : ArrayHeap.heap := [[scenario_1; scenario_2]].






(** A key that starts with a lower-case letter and has no surrounding white
    space. *)
Definition plain_name (key : string) : Prop :=
  JS.trim key = key
  /\ match key with
     | EmptyString => False
     | String c _ =>
         (Nat.leb 97 (nat_of_ascii c) && Nat.leb (nat_of_ascii c) 122)%bool = true
     end.

(** Month resolution as built: the leading integer read by [parseInt] when
    it lies in 1-12, else the lower-cased, trimmed input looked up among the
    names and abbreviations, else a property inherited from
    [Object.prototype], else an error naming the input. *)
Definition month_resolution_as_built (s : string)
  : result (option MonthValue) :=
  let by_name :=
    let key := JS.trim (JS.toLowerCase s) in
    match lookup_month key month_names 1 with
    | Some n => Ok (Some (MonthNumber n))
    | None =>
        if existsb (String.eqb key) Object_prototype_keys
        then Ok (Some (InheritedProperty key))
        else Throw (Error (invalid_month_message s))
    end in
  if String.eqb s "" then Throw (Error (invalid_month_message s))
  else match JS.parseInt s with
       | Some n =>
           if ((1 <=? n) && (n <=? 12))%bool then Ok (Some (MonthNumber n))
           else by_name
       | None => by_name
       end.

(** The date criterion, when supplied, is a string [Date] can read; the
    check of the options guarantees it. *)
Definition date_readable (w : World) (f : Filters) : Prop :=
  forall s, supplied_str (f_date f) = Some s ->
            exists day, Date_parse w s = Some day.

(** The options with every value the program finds falsy (an empty string,
    a zero, an unset flag) replaced by an absent one. *)
Definition only_supplied (f : Filters) : Filters :=
  mkFilters (supplied_str (f_priority f)) (supplied_str (f_source f))
    (supplied_str (f_status f))
    (if JS.truthy_flag (f_deadline f) then Some true else None)
    (if JS.truthy_flag (f_all f) then Some true else None)
    (supplied_str (f_date f)) (supplied_str (f_day f))
    (supplied_month (f_month f))
    (option_map Integer (supplied_num (f_year f)))
    (option_map Integer (supplied_num (f_week f))).

(** *** Calendar dates, and the dates the [Date] constructor of V8 reads *)
















(** The integer that is given as a number, whatever its value. *)
Definition given_integer (o : option Number) : option Z :=
  match o with
  | Some (Integer n) => Some n
  | _ => None
  end.

(** Every criterion that is given, whatever its value. *)
Definition given_criteria (f : Filters) : list TemporalCriterion :=
  criterion OnDate (f_date f) ++ criterion OnDay (f_day f)
  ++ criterion InMonth (f_month f)
  ++ criterion InYear (given_integer (f_year f))
  ++ criterion InWeek (given_integer (f_week f)).

(** Temporal matching, as the specification words it: on options that pass
    the check, a record is returned only if one of its two timestamps meets
    every criterion that is given. *)
Definition every_given_criterion_is_applied : Prop :=
  forall (w : World) (f : Filters) (rs out : list Instruction) (r : Instruction),
    validateFilterOptions w f = None ->
    filterInstructions w rs f = Ok out ->
    In r out ->
    exists t, (t = added r \/ deadline r = Some t)
              /\ Forall (satisfies w t) (given_criteria f).

Definition in_year (y : Z) : Filters :=
  mkFilters None None None None None None None None (Some (Integer y)) None.


(** ** Notions for the properties of the store and its history *)

(** The soft-delete flag and the deletion time go together. *)
Definition record_ok (r : Instruction) : Prop :=
  isDeleted r = true <-> deletedAt r <> None.

(** Ids are pairwise distinct and every record is consistent. *)
Definition store_ok (l : list Instruction) : Prop :=
  NoDup (map id l) /\ Forall record_ok l.

Definition history_ok (s : list HistoryEntry) : Prop :=
  Forall (fun e => store_ok (data e)) s.

(** The store and every snapshot kept for undo or redo are well-formed. *)
Definition state_ok (st : State) : Prop :=
  store_ok (instructions st)
  /\ history_ok (undoStack st) /\ history_ok (redoStack st).

(** Every id of the store and of the snapshots kept for undo and redo is
    below [B] in magnitude. *)
Definition ids_below (B : Z) (l : list Instruction) : Prop :=
  Forall (fun x => Z.abs x < B) (map id l).

Definition all_ids_below (B : Z) (st : State) : Prop :=
  ids_below B (instructions st)
  /\ Forall (fun e => ids_below B (data e)) (undoStack st)
  /\ Forall (fun e => ids_below B (data e)) (redoStack st).

(** The id a command is addressed to, for the commands that take one. *)
Definition target_id (c : Command) : option Z :=
  match c with
  | Edit argv => Some (edit_id argv)
  | Mark i _ | Delete i | Recover i => Some i
  | _ => None
  end.

(** Undo, or redo, [n] times in a row, confirming every prompt. *)
Fixpoint undo_times (w : World) (n : nat) (st : State) : State :=
  match n with
  | O => st
  | S n' => undo_times w n' (snd (undo_handler w st))
  end.

Fixpoint redo_times (w : World) (n : nat) (st : State) : State :=
  match n with
  | O => st
  | S n' => snd (redo_handler w (redo_times w n' st))
  end.

Definition three_edits : list (World * Command) :=
  [ (sample_world, Add buy_milk);
    (sample_world, Mark 1 "completed");
    (sample_world, Delete 1) ].


(** The commands that ask for a confirmation before they act. *)
Definition asks_confirmation (c : Command) : bool :=
  match c with
  | Delete _ | Reset | Undo | Redo => true
  | _ => false
  end.





(** What the show command does once the coercions have passed and the
    status and the priority are among the choices. *)
Definition listing (w : World) (argv : FilterArgv) (st : State)
  : Outcome * State :=
  match parse_filters w argv with
  | Throw e => (exception_outcome e, st)
  | Ok filters =>
      match filterInstructions w (loadInstructions st) filters with
      | Throw e => (exception_outcome e, st)
      | Ok [] => (NoMatches, st)
      | Ok filtered => (Showing (sort_by_priority filtered), st)
      end
  end.

(** The same options with another value for [--all]. *)
Definition with_all (all : option bool) (f : Filters) : Filters :=
  mkFilters (f_priority f) (f_source f) (f_status f) (f_deadline f) all
    (f_date f) (f_day f) (f_month f) (f_year f) (f_week f).


Definition sample_world_declining : World :=
  mkWorld aug_09 (chrono_parseDate sample_world) false (Date_parse sample_world).

(** ** Suggestions for mistyped commands and options *)

(** The numbers of the distance computation: a natural number, or [None]
    for what JavaScript yields when a hole of the array is read
    ([undefined]) and when such a value enters arithmetic ([NaN]). *)
Definition JsNum : Type := option nat.

(** [costs[j]]: reading outside the array gives [undefined]. *)
Definition costs_get (costs : list JsNum) (j : nat) : JsNum :=
  match nth_error costs j with
  | Some v => v
  | None => None
  end.

(** [costs[j] = v]: writing beyond the end extends the array, leaving
    holes between the old end and [j]. *)
Fixpoint costs_set (costs : list JsNum) (j : nat) (v : JsNum) : list JsNum :=
  match j, costs with
  | O, [] => [v]
  | O, _ :: rest => v :: rest
  | S j', [] => None :: costs_set [] j' v
  | S j', x :: rest => x :: costs_set rest j' v
  end.

(** [Math.min(a, b, c) + 1]. *)
Definition Math_min_plus_1 (a b c : JsNum) : JsNum :=
  match a, b, c with
  | Some x, Some y, Some z => Some (S (Nat.min (Nat.min x y) z))
  | _, _, _ => None
  end.

(** [s.charAt(k)]: the character at [k], or the empty string ([None]). *)
Definition charAt (s : string) (k : nat) : option ascii := String.get k s.

Definition same_char (a b : option ascii) : bool :=
  match a, b with
  | Some x, Some y => Ascii.eqb x y
  | None, None => true
  | _, _ => false
  end.

(** The body of the loop on [j], on the pair [(costs, lastValue)]. *)
Definition distance_inner (s1 s2 : string) (i : nat)
    (acc : list JsNum * JsNum) (j : nat) : list JsNum * JsNum :=
  let '(costs, lastValue) := acc in
  if Nat.eqb i 0 then (costs_set costs j (Some j), lastValue)
  else if Nat.ltb 0 j then
    let newValue := costs_get costs (j - 1)%nat in
    let newValue :=
      if negb (same_char (charAt s1 (i - 1)%nat) (charAt s2 (j - 1)%nat))
      then Math_min_plus_1 newValue lastValue (costs_get costs j)
      else newValue in
    (costs_set costs (j - 1)%nat lastValue, newValue)
  else (costs, lastValue).

(** The body of the loop on [i], on the array [costs]. *)
Definition distance_outer (s1 s2 : string) (costs : list JsNum) (i : nat)
    : list JsNum :=
  let '(costs, lastValue) :=
    fold_left (distance_inner s1 s2 i)
      (seq 0 (S (String.length s2))) (costs, Some i) in
  if Nat.ltb 0 i then costs_set costs (String.length s2) lastValue
  else costs.

Definition distance (s1 s2 : string) : JsNum :=
  let s1 := JS.toLowerCase s1 in
  let s2 := JS.toLowerCase s2 in
  let costs :=
    fold_left (distance_outer s1 s2) (seq 0 (S (String.length s1))) [] in
  costs_get costs (String.length s2).

(** The accumulator of the reduction; [minDistance = None] is [Infinity]. *)
Record Best : Type := {
  minDistance : option nat;
  match_ : option string
}.

(** [dist < best.minDistance && dist <= 2]; a comparison with [NaN] is
    false. *)
Definition improves (dist : JsNum) (best : Best) : bool :=
  match dist with
  | Some d =>
      (match minDistance best with
       | None => true
       | Some m => Nat.ltb d m
       end) && Nat.leb d 2
  | None => false
  end.

Definition findSuggestion_step (unknown : string) (best : Best)
    (item : string) : Best :=
  let dist := distance unknown item in
  if improves dist best
  then {| minDistance := dist; match_ := Some item |}
  else best.

Definition findSuggestion (unknown : string) (list : list string)
    : option string :=
  match_ (fold_left (findSuggestion_step unknown) list
            {| minDistance := None; match_ := None |}).

(** The command names that [main] accepts, in the order of the set. *)
Definition allValidCommands : list string :=
  ["add"; "a"; "show"; "list"; "ls"; "edit"; "e"; "mark"; "m"; "delete";
   "del"; "d"; "recover"; "rec"; "reset"; "undo"; "redo"; "manual";
   "export"; "ex"; "total"; "t"; "help"]%string.

(** [s.startsWith("-")]. *)
Definition startsWith_dash (s : string) : bool :=
  match s with
  | String c _ => Ascii.eqb c "-"%char
  | EmptyString => false
  end.

(** What the check for command typos of [main] does with the first
    argument of the command line (which is not [help]): it lets the
    argument through, or reports an unknown command, with or without a
    suggestion, and exits. *)
Inductive TypoCheck : Type :=
  | Proceeds
  | UnknownCommandDidYouMean (suggestion : string)
  | UnknownCommand.

Definition check_command_typo (potentialCommand : string) : TypoCheck :=
  if negb (String.eqb potentialCommand "")
     && negb (startsWith_dash potentialCommand)
  then
    if negb (existsb (String.eqb potentialCommand) allValidCommands)
    then
      match findSuggestion potentialCommand allValidCommands with
      | Some suggestion =>
          if negb (String.eqb suggestion "")
          then UnknownCommandDidYouMean suggestion
          else UnknownCommand
      | None => UnknownCommand
      end
    else Proceeds
  else Proceeds.

(** *** The edit distance the suggestions are measured against *)

(** The Wagner-Fischer matrix of two strings: [lev s1 s2 i j] is the
    entry for the first [i] characters of [s1] and the first [j]
    characters of [s2]. *)
Fixpoint lev (s1 s2 : string) (i j : nat) {struct i} : nat :=
  match i with
  | O => j
  | S i' =>
      (fix row (j : nat) : nat :=
         match j with
         | O => S i'
         | S j' =>
             if same_char (String.get i' s1) (String.get j' s2)
             then lev s1 s2 i' j'
             else S (Nat.min (Nat.min (lev s1 s2 i' j') (row j'))
                       (lev s1 s2 i' (S j')))
         end) j
  end.

(** The Levenshtein distance of two strings, case ignored. *)
Definition edit_distance (s1 s2 : string) : nat :=
  lev (JS.toLowerCase s1) (JS.toLowerCase s2)
    (String.length s1) (String.length s2).

(** [item] is the first entry of [list] at distance [d] from [unknown],
    and no entry of [list] is nearer. *)
Definition first_nearest (unknown : string) (list : list string)
    (item : string) (d : nat) : Prop :=
  exists before after,
    list = before ++ item :: after /\
    edit_distance unknown item = d /\
    Forall (fun other => (d < edit_distance unknown other)%nat) before /\
    Forall (fun other => (d <= edit_distance unknown other)%nat) after.

(** The array [costs] holds the [len] numbers [f 0 .. f (len - 1)]. *)
Definition holds_row (costs : list JsNum) (f : nat -> nat) (len : nat)
    : Prop :=
  length costs = len /\
  forall j, (j < len)%nat -> nth_error costs j = Some (Some (f j)).

(** What the reduction of [findSuggestion] has established once it has
    handled the entries [seen]. *)
Definition suggestion_so_far (unknown : string) (seen : list string)
    (best : Best) : Prop :=
  match minDistance best, match_ best with
  | None, None =>
      Forall (fun other => (2 < edit_distance unknown other)%nat) seen
  | Some d, Some item => (d <= 2)%nat /\ first_nearest unknown seen item d
  | _, _ => False
  end.

(** The outcome of [findSuggestion], in terms of the edit distance. *)
Definition suggestion_is_first_nearest (unknown : string)
    (list : list string) : Prop :=
  match findSuggestion unknown list with
  | Some item =>
      exists d, (d <= 2)%nat /\ first_nearest unknown list item d
  | None => Forall (fun other => (2 < edit_distance unknown other)%nat) list
  end.

(** ** CSV export *)

Section CsvExport.

(** [new Date(d).toLocaleString()], which depends on the locale of the
    machine, and [String(n)] for a number. *)
Variable toLocaleString : Timestamp -> string.
Variable String_of_number : Z -> string.

Definition double_quote : ascii := "034"%char.
Definition comma : ascii := ","%char.
Definition line_feed : ascii := "010"%char.

(** The values a cell of the table can hold. *)
Inductive Cell : Type :=
  | CellNumber (n : Z)
  | CellString (s : string)
  | CellBoolean (b : bool)
  | CellNullish.

(** [String(text ?? "")]. *)
Definition String_of_cell (text : Cell) : string :=
  match text with
  | CellNumber n => String_of_number n
  | CellString s => s
  | CellBoolean true => "true"
  | CellBoolean false => "false"
  | CellNullish => ""
  end.

(** The [replace] of [escapeCsv]: every double quote is doubled. *)
Fixpoint replace_quotes (s : string) : string :=
  match s with
  | EmptyString => EmptyString
  | String c rest =>
      if Ascii.eqb c double_quote
      then String double_quote (String double_quote (replace_quotes rest))
      else String c (replace_quotes rest)
  end.

Definition escapeCsv (text : Cell) : string :=
  String double_quote
    (replace_quotes (String_of_cell text) ++ String double_quote EmptyString).

Definition csv_headers : string :=
  ("ID,Source,Instruction,Priority,Status,Deadline,Added,IsDeleted,DeletedAt"
   ++ String line_feed EmptyString)%string.

Definition locale_or_empty (d : option Timestamp) : string :=
  match d with
  | Some t => toLocaleString t
  | None => ""
  end.

Definition csv_cells (i : Instruction) : list Cell :=
  [ CellNumber (id i);
    CellString (source i);
    CellString (text i);
    CellString (priority i);
    CellString (status i);
    CellString (locale_or_empty (deadline i));
    CellString (toLocaleString (added i));
    CellBoolean (isDeleted i);
    CellString (locale_or_empty (deletedAt i)) ].

Definition csv_row (i : Instruction) : string :=
  String.concat (String comma EmptyString) (map escapeCsv (csv_cells i)).

Definition csv_rows (instructions : list Instruction) : string :=
  String.concat (String line_feed EmptyString) (map csv_row instructions).

(** The byte order mark [U+FEFF], as written in UTF-8. *)
Definition byte_order_mark : string :=
  String "239"%char (String "187"%char (String "191"%char EmptyString)).

Definition csv_content (instructions : list Instruction) : string :=
  (byte_order_mark ++ csv_headers ++ csv_rows instructions)%string.

(** The CSV branch of the export handler: the text written to the file,
    [None] when no record matches and nothing is written. *)
Definition export_csv (w : World) (argv : Filters) (st : State)
    : result (option string) :=
  instructions <- filterInstructions w (loadInstructions st) argv ;;
  if Nat.eqb (length instructions) 0 then Ok None
  else Ok (Some (csv_content instructions)).

(** *** Reading a CSV text back *)

Definition carriage_return : ascii := "013"%char.

Inductive CsvState : Type :=
  | FieldStart      (* at the start of a field *)
  | InBare          (* inside a field that is not quoted *)
  | InQuoted        (* inside a quoted field *)
  | QuoteSeen       (* after a double quote inside a quoted field *)
  | ReturnSeen.     (* after a carriage return that ends a record *)

Definition snoc_char (s : string) (c : ascii) : string :=
  (s ++ String c EmptyString)%string.

(** The table a CSV text denotes, with the fields of RFC 4180: fields are
    separated by commas; a quoted field runs to the next double quote that
    is not doubled, a doubled double quote stands for one, and commas and
    line breaks inside it are part of the field; a field that is not
    quoted holds no double quote.  A record ends with a line feed, alone
    (as the export writes it) or after a carriage return (as RFC 4180
    has it), and the last record may do without.  [None] is a text that is
    not well formed. *)
Fixpoint csv_decode (s : string) (state : CsvState) (field : string)
    (record : list string) (table : list (list string))
    : option (list (list string)) :=
  match s with
  | EmptyString =>
      match state with
      | InQuoted | ReturnSeen => None
      | FieldStart =>
          match record, table with
          | [], _ :: _ => Some table
          | _, _ => Some (table ++ [record ++ [field]])
          end
      | _ => Some (table ++ [record ++ [field]])
      end
  | String c rest =>
      match state with
      | FieldStart =>
          if Ascii.eqb c double_quote
          then csv_decode rest InQuoted field record table
          else if Ascii.eqb c comma
          then csv_decode rest FieldStart "" (record ++ [field]) table
          else if Ascii.eqb c line_feed
          then csv_decode rest FieldStart "" [] (table ++ [record ++ [field]])
          else if Ascii.eqb c carriage_return
          then csv_decode rest ReturnSeen field record table
          else csv_decode rest InBare (snoc_char field c) record table
      | InBare =>
          if Ascii.eqb c double_quote then None
          else if Ascii.eqb c comma
          then csv_decode rest FieldStart "" (record ++ [field]) table
          else if Ascii.eqb c line_feed
          then csv_decode rest FieldStart "" [] (table ++ [record ++ [field]])
          else if Ascii.eqb c carriage_return
          then csv_decode rest ReturnSeen field record table
          else csv_decode rest InBare (snoc_char field c) record table
      | InQuoted =>
          if Ascii.eqb c double_quote
          then csv_decode rest QuoteSeen field record table
          else csv_decode rest InQuoted (snoc_char field c) record table
      | QuoteSeen =>
          if Ascii.eqb c double_quote
          then csv_decode rest InQuoted (snoc_char field c) record table
          else if Ascii.eqb c comma
          then csv_decode rest FieldStart "" (record ++ [field]) table
          else if Ascii.eqb c line_feed
          then csv_decode rest FieldStart "" [] (table ++ [record ++ [field]])
          else if Ascii.eqb c carriage_return
          then csv_decode rest ReturnSeen field record table
          else None
      | ReturnSeen =>
          if Ascii.eqb c line_feed
          then csv_decode rest FieldStart "" [] (table ++ [record ++ [field]])
          else None
      end
  end.

Definition csv_table (s : string) : option (list (list string)) :=
  csv_decode s FieldStart "" [] [].

Definition csv_header_names : list string :=
  ["ID"; "Source"; "Instruction"; "Priority"; "Status"; "Deadline"; "Added";
   "IsDeleted"; "DeletedAt"]%string.

End CsvExport.

(** ** Line wrapping for the PDF report *)

(** The [split] of [wrapTextForPdf], on a white-space pattern with a
    capture group: the runs of characters other than white space and,
    between them, the runs of white space.  The list starts and ends with
    a run of characters other than white space, which is empty when the
    text starts or ends with white space. *)
Fixpoint split_spaces_from (s : string) (in_space : bool) (current : string)
    : list string :=
  match s with
  | EmptyString => if in_space then [current; ""%string] else [current]
  | String c rest =>
      if Bool.eqb (JS.is_space c) in_space
      then split_spaces_from rest in_space
             (current ++ String c EmptyString)%string
      else current
           :: split_spaces_from rest (JS.is_space c) (String c EmptyString)
  end.

Definition split_spaces (s : string) : list string :=
  split_spaces_from s false "".

Section Wrapping.

(** [font.widthOfTextAtSize(line, fontSize) > maxWidth]. *)
Variable exceeds : string -> bool.

(** The body of the loop, on the pair [(lines, currentLine)]. *)
Definition wrap_step (acc : list string * string) (word : string)
    : list string * string :=
  let '(lines, currentLine) := acc in
  let testLine := (currentLine ++ word)%string in
  if exceeds testLine && negb (String.eqb currentLine "")
  then (lines ++ [currentLine], JS.trimStart word)
  else (lines, testLine).

Definition wrapTextForPdf (text : option string) : list string :=
  let words :=
    split_spaces (if JS.truthy_str text
                  then match text with Some t => t | None => ""%string end
                  else ""%string) in
  let '(lines, currentLine) := fold_left wrap_step words ([], ""%string) in
  lines ++ [currentLine].

End Wrapping.

(** The characters of a string other than white space, in order. *)
Fixpoint visible (s : string) : string :=
  match s with
  | EmptyString => EmptyString
  | String c rest =>
      if JS.is_space c then visible rest else String c (visible rest)
  end.

Definition concat_all (l : list string) : string :=
  fold_right append ""%string l.

(** Every character of [s] is white space ([b = true]), or none is
    ([b = false]). *)
Fixpoint uniform (b : bool) (s : string) : bool :=
  match s with
  | EmptyString => true
  | String c rest => Bool.eqb (JS.is_space c) b && uniform b rest
  end.

(** A line of the wrapped text is acceptable: it fits in the width, or it
    is empty, or it is one run of the text on its own. *)
Definition line_fits_or_is_one_run (exceeds : string -> bool)
    (words : list string) (line : string) : Prop :=
  exceeds line = false \/ line = ""%string \/ In line words.

Definition long_lines (s : string) : bool := Nat.ltb 20 (String.length s).

(** ** The failure handler *)

(** [s.includes(p)]. *)
Fixpoint includes (s p : string) : bool :=
  String.prefix p s
  || match s with
     | EmptyString => false
     | String _ rest => includes rest p
     end.

(** What [customFailureHandler] reports first, one constructor for each
    branch of its chain of tests. *)
Inductive FailureReport : Type :=
  | ReportInvalidWeek            (* Invalid value for --week *)
  | ReportInvalidMonth           (* the month that was given *)
  | ReportWeekNeedsMonth
  | ReportDateWithOtherFilters
  | ReportUnknownOption
  | ReportOptionNeedsValue
  | ReportMissingArgument
  | ReportInvalidValues
  | ReportMessage (msg : string) (* the message as it is *)
  | ReportUnexpected.

Definition or_empty (o : option string) : string :=
  match o with
  | Some s => s
  | None => ""%string
  end.

(** The handler is called with a message, an error, or both;
    [err_message] is [err.message] when there is an error. *)
Definition customFailureHandler (msg err_message : option string)
    : FailureReport :=
  let errorMessage :=
    if JS.truthy_str msg then or_empty msg
    else if JS.truthy_str err_message then or_empty err_message
    else ""%string in
  if includes errorMessage "Invalid week value" then ReportInvalidWeek
  else if includes errorMessage "Invalid month:" then ReportInvalidMonth
  else if includes errorMessage "week filter must be used with the --month"
  then ReportWeekNeedsMonth
  else if includes errorMessage "Cannot use --date with other time filters"
  then ReportDateWithOtherFilters
  else if JS.truthy_str msg
          && String.prefix "Unknown argument" (or_empty msg)
  then ReportUnknownOption
  else if JS.truthy_str msg
          && includes (or_empty msg) "Not enough arguments following"
  then ReportOptionNeedsValue
  else if JS.truthy_str msg
          && includes (or_empty msg) "Missing required argument"
  then ReportMissingArgument
  else if JS.truthy_str msg && includes (or_empty msg) "Invalid values"
  then ReportInvalidValues
  else if JS.truthy_str msg then ReportMessage (or_empty msg)
  else ReportUnexpected.

(** How the failure handler treats the message of a rejection of the
    filter options given in [argv]. *)
Definition report_matches_rejection (argv : FilterArgv) (m : string) : Prop :=
  match customFailureHandler (Some m) None with
  | ReportInvalidWeek =>
      m = invalid_week_message \/
      exists s, a_month argv = Some s /\ m = invalid_month_message s /\
                includes s "Invalid week value" = true
  | ReportInvalidMonth =>
      exists s, a_month argv = Some s /\ m = invalid_month_message s
  | ReportWeekNeedsMonth => m = msg_week_without_month
  | ReportDateWithOtherFilters => m = msg_date_with_others
  | ReportMessage shown => shown = m /\ m = msg_invalid_date
  | _ => False
  end.

(** No character of [s] is an apostrophe or a full stop. *)
Fixpoint plain_chars (s : string) : bool :=
  match s with
  | EmptyString => true
  | String c rest =>
      negb (Ascii.eqb c "'"%char) && negb (Ascii.eqb c "."%char)
      && plain_chars rest
  end.


(** * Properties *)

(** ** The JavaScript primitives on examples *)

Example parseInt_leading_zero : JS.parseInt "08" = Some 8.
Proof. reflexivity. Qed.

Example parseInt_stops_at_letter : JS.parseInt " -3x" = Some (-3).
Proof. reflexivity. Qed.

Example parseInt_no_digit : JS.parseInt "aug" = None.
Proof. reflexivity. Qed.

Example toLowerCase_trim : JS.trim (JS.toLowerCase "  AuGust ") = "august"%string.
Proof. reflexivity. Qed.

Example pop_last : JS.pop [1; 2; 3] = Some (3, [1; 2]).
Proof. reflexivity. Qed.

Example findIndex_first :
  JS.findIndex (fun x => x =? 2) [1; 2; 2] = Some 1%nat.
Proof. reflexivity. Qed.

Example week_of_month_of_aug_09 : getWeekOfMonth aug_09 = 2.
Proof. reflexivity. Qed.

Example date_pattern :
  matches_date_pattern "2025-08-09" = true
  /\ matches_date_pattern "2025-8-9" = false
  /\ matches_date_pattern "09/08/2025" = false.
Proof. repeat split. Qed.

(** ** Arrays and the capped push *)

Lemma pop_app {A : Type} (l : list A) (x : A) :
  JS.pop (l ++ [x]) = Some (x, l).
Proof.
  induction l as [|y l IH]; simpl.
  - reflexivity.
  - rewrite IH. reflexivity.
Qed.

Lemma pop_nil_inv {A : Type} (l : list A) : JS.pop l = None -> l = [].
Proof.
  destruct l as [|x l]; simpl; [reflexivity|].
  destruct (JS.pop l) as [[y r]|]; discriminate.
Qed.

Lemma pop_some_inv {A : Type} (l r : list A) (x : A) :
  JS.pop l = Some (x, r) -> l = r ++ [x].
Proof.
  revert r x. induction l as [|y l IH]; simpl; intros r x H.
  - discriminate.
  - destruct (JS.pop l) as [[z r']|] eqn:E.
    + inversion H; subst. simpl. f_equal. apply IH. reflexivity.
    + inversion H; subst. apply pop_nil_inv in E. subst. reflexivity.
Qed.

Lemma state_eta (st : State) :
  mkState (instructions st) (undoStack st) (redoStack st) = st.
Proof. destruct st; reflexivity. Qed.

(** The capped push keeps the new entry on top and drops at most the
    oldest one. *)
Lemma push_capped_eq (s : list HistoryEntry) (e : HistoryEntry) :
  push_capped s e =
  (if Nat.leb MAX_UNDO_REDO_STATES (length s) then tl s else s) ++ [e].
Proof.
  unfold push_capped, JS.push, JS.shift, MAX_UNDO_REDO_STATES.
  rewrite length_app. simpl length.
  destruct (Nat.ltb_spec 10 (length s + 1)) as [H|H];
    destruct (Nat.leb_spec 10 (length s)) as [H'|H']; try lia.
  - destruct s; simpl in *; [lia | reflexivity].
  - reflexivity.
Qed.

Lemma push_capped_length (s : list HistoryEntry) (e : HistoryEntry) :
  (length s <= MAX_UNDO_REDO_STATES)%nat ->
  (length (push_capped s e) <= MAX_UNDO_REDO_STATES)%nat.
Proof.
  intros H. rewrite push_capped_eq. unfold MAX_UNDO_REDO_STATES in *.
  destruct (Nat.leb_spec 10 (length s)); rewrite length_app; simpl length.
  - destruct s; simpl in *; lia.
  - lia.
Qed.

Lemma push_capped_room (s : list HistoryEntry) (e : HistoryEntry) :
  (length s < MAX_UNDO_REDO_STATES)%nat -> push_capped s e = s ++ [e].
Proof.
  intros H. rewrite push_capped_eq. unfold MAX_UNDO_REDO_STATES in *.
  destruct (Nat.leb_spec 10 (length s)); [lia | reflexivity].
Qed.

Lemma push_capped_full (s : list HistoryEntry) (e : HistoryEntry) :
  length s = MAX_UNDO_REDO_STATES -> push_capped s e = tl s ++ [e].
Proof.
  intros H. rewrite push_capped_eq. rewrite H. reflexivity.
Qed.

(** ** What an applied mutation leaves behind *)

(** Every handler that announces a change has pushed the store it found,
    under its own name, onto the undo stack and emptied the redo stack. *)
Lemma applied_mutation_history (w : World) (c : Command) (st : State) :
  mutating c = true ->
  applied (fst (exec w c st)) = true ->
  undoStack (snd (exec w c st)) =
    push_capped (undoStack st) (mkEntry (command_name c) (instructions st))
  /\ redoStack (snd (exec w c st)) = [].
Proof.
  intros Hm Ha. destruct c; try discriminate Hm; simpl in *.
  - unfold add_handler in *.
    destruct (JS.truthy_str (add_deadline argv)), (add_deadline argv);
      simpl in *; try (split; reflexivity).
    destruct (chrono_parseDate w s); simpl in *;
      [split; reflexivity | discriminate].
  - unfold edit_handler in *.
    destruct (JS.findIndex _ _); [|discriminate].
    destruct (nth_error _ _); [|discriminate].
    destruct (isDeleted i); [discriminate|].
    destruct (edit_fields w argv i) as [[edited changed]|]; [|discriminate].
    destruct changed; [split; reflexivity | discriminate].
  - unfold mark_handler in *.
    destruct (JS.findIndex _ _); [|discriminate].
    destruct (nth_error _ _); [|discriminate].
    destruct (isDeleted i); [discriminate|].
    destruct (String.eqb _ _); [discriminate | split; reflexivity].
  - unfold delete_handler in *.
    destruct (JS.findIndex _ _); [|discriminate].
    destruct (nth_error _ _); [|discriminate].
    destruct (prompt_answer w); [split; reflexivity | discriminate].
  - unfold recover_handler in *.
    destruct (JS.findIndex _ _); [|discriminate].
    destruct (nth_error _ _); [|discriminate].
    destruct (negb (isDeleted i)); [discriminate | split; reflexivity].
  - unfold reset_handler in *.
    destruct (prompt_answer w); [split; reflexivity | discriminate].
Qed.

(** ** Undo and redo *)

Lemma undo_handler_pops (w : World) (st : State)
    (rest : list HistoryEntry) (e : HistoryEntry) :
  prompt_answer w = true ->
  undoStack st = rest ++ [e] ->
  undo_handler w st =
    (announce_undone (command e),
     mkState (data e) rest
       (push_capped (redoStack st) (mkEntry (command e) (instructions st)))).
Proof.
  intros Hy Hu. unfold undo_handler, popFromUndoStack. rewrite Hu, Hy.
  rewrite pop_app. destruct rest; reflexivity.
Qed.

Lemma redo_handler_pops (w : World) (st : State)
    (rest : list HistoryEntry) (e : HistoryEntry) :
  prompt_answer w = true ->
  redoStack st = rest ++ [e] ->
  redo_handler w st =
    (announce_redone (command e),
     mkState (data e)
       (push_capped (undoStack st) (mkEntry (command e) (instructions st)))
       rest).
Proof.
  intros Hy Hr. unfold redo_handler, popFromRedoStack. rewrite Hr, Hy.
  rewrite pop_app. destruct rest; reflexivity.
Qed.

(** C1 (as the code has it).  Undo pops the top undo entry, pushes the
    pre-undo store under the same command name onto the redo stack and
    replaces the store with the popped snapshot; redo is symmetric.  After an
    applied mutating command, undo therefore restores the store found by
    that command, and undo followed by redo restores the store the command
    produced, i.e. the state immediately before the undo; when the stacks
    were within capacity the whole persisted state is back. *)
Theorem undo_then_redo_roundtrip :
  (forall (w : World) (st : State) (rest : list HistoryEntry) (e : HistoryEntry),
      prompt_answer w = true ->
      undoStack st = rest ++ [e] ->
      undo_handler w st =
        (announce_undone (command e),
         mkState (data e) rest
           (push_capped (redoStack st)
              (mkEntry (command e) (instructions st)))))
  /\ (forall (w : World) (st : State) (rest : list HistoryEntry) (e : HistoryEntry),
      prompt_answer w = true ->
      redoStack st = rest ++ [e] ->
      redo_handler w st =
        (announce_redone (command e),
         mkState (data e)
           (push_capped (undoStack st)
              (mkEntry (command e) (instructions st)))
           rest))
  /\ (forall (w wu wr : World) (c : Command) (st0 : State),
      mutating c = true ->
      applied (fst (exec w c st0)) = true ->
      prompt_answer wu = true ->
      prompt_answer wr = true ->
      let st := snd (exec w c st0) in
      let st1 := snd (undo_handler wu st) in
      let st2 := snd (redo_handler wr st1) in
      fst (undo_handler wu st) = OperationUndone (command_name c)
      /\ instructions st1 = instructions st0
      /\ redoStack st1 = [mkEntry (command_name c) (instructions st)]
      /\ fst (redo_handler wr st1) = OperationRedone (command_name c)
      /\ instructions st2 = instructions st
      /\ redoStack st2 = []
      /\ (within_capacity st0 -> st2 = st)).
Proof.
  split; [exact undo_handler_pops|]. split; [exact redo_handler_pops|].
  intros w wu wr c st0 Hm Ha Hu Hr st st1 st2.
  destruct (applied_mutation_history w c st0 Hm Ha) as [Hundo Hredo].
  fold st in Hundo, Hredo.
  rewrite push_capped_eq in Hundo.
  set (r := if Nat.leb MAX_UNDO_REDO_STATES (length (undoStack st0))
            then tl (undoStack st0) else undoStack st0) in *.
  set (e0 := mkEntry (command_name c) (instructions st0)) in *.
  assert (H1 : undo_handler wu st =
               (announce_undone (command_name c),
                mkState (instructions st0) r
                  [mkEntry (command_name c) (instructions st)])).
  { rewrite (undo_handler_pops wu st r e0 Hu Hundo). rewrite Hredo.
    reflexivity. }
  assert (Hst1 : st1 = mkState (instructions st0) r
                         [mkEntry (command_name c) (instructions st)]).
  { unfold st1. rewrite H1. reflexivity. }
  assert (H2 : redo_handler wr st1 =
               (announce_redone (command_name c),
                mkState (instructions st) (push_capped r e0) [])).
  { rewrite (redo_handler_pops wr st1 []
               (mkEntry (command_name c) (instructions st)) Hr).
    - rewrite Hst1. reflexivity.
    - rewrite Hst1. reflexivity. }
  assert (Hname : JS.truthy_str (Some (command_name c)) = true).
  { destruct c; reflexivity. }
  repeat split.
  - rewrite H1. simpl. unfold announce_undone. rewrite Hname. reflexivity.
  - rewrite Hst1. reflexivity.
  - rewrite Hst1. reflexivity.
  - rewrite H2. simpl. unfold announce_redone. rewrite Hname. reflexivity.
  - unfold st2. rewrite H2. reflexivity.
  - unfold st2. rewrite H2. reflexivity.
  - intros [Hcap _]. unfold st2. rewrite H2. simpl.
    rewrite <- (state_eta st). rewrite Hundo, Hredo. f_equal.
    rewrite push_capped_room; [reflexivity|].
    unfold r, MAX_UNDO_REDO_STATES in *.
    destruct (Nat.leb_spec 10 (length (undoStack st0))) as [H|H]; [|lia].
    destruct (undoStack st0); simpl in *; lia.
Qed.

Lemma undo_then_redo_roundtrip_witness :
  undo_handler sample_world (mkState [record_1] [mkEntry "add" []] []) =
    (OperationUndone "add",
     mkState [] [] [mkEntry "add" [record_1]])
  /\ redo_handler sample_world (mkState [] [] [mkEntry "add" [record_1]]) =
    (OperationRedone "add",
     mkState [record_1] [mkEntry "add" []] [])
  /\ snd (redo_handler sample_world
            (snd (undo_handler sample_world
                    (snd (exec sample_world (Add buy_milk) initial_state)))))
     = snd (exec sample_world (Add buy_milk) initial_state).
Proof.
  split; [|split].
  - apply (proj1 undo_then_redo_roundtrip sample_world
             (mkState [record_1] [mkEntry "add" []] []) [] (mkEntry "add" []));
      reflexivity.
  - apply (proj1 (proj2 undo_then_redo_roundtrip) sample_world
             (mkState [] [] [mkEntry "add" [record_1]]) []
             (mkEntry "add" [record_1]));
      reflexivity.
  - apply (proj2 (proj2 undo_then_redo_roundtrip) sample_world sample_world
             sample_world (Add buy_milk) initial_state);
      try reflexivity.
    unfold within_capacity, MAX_UNDO_REDO_STATES; simpl; lia.
Defined.

(** C1 as stated fails: after add, undo, redo on the empty store the store
    holds the added record, not the (empty) store that preceded the undone
    mutation. *)
Lemma undo_redo_is_not_pre_mutation_store :
  instructions
    (snd (run [ (sample_world, Add buy_milk); (sample_world, Undo);
                (sample_world, Redo) ] initial_state))
  <> instructions initial_state.
Proof. vm_compute. discriminate. Qed.

(** The scenario of the specification: create on the empty store, delete
    the record, undo the deletion. *)
Example scenario_create_delete_undo :
  let created := snd (exec sample_world (Add buy_milk) initial_state) in
  let deleted := snd (exec sample_world (Delete 1) created) in
  let undone := snd (exec sample_world Undo deleted) in
  map (fun r => (id r, status r, isDeleted r, deletedAt r)) (instructions created)
  = [(1, "pending"%string, false, None)]
  /\ map (fun r => (id r, isDeleted r, deletedAt r)) (instructions deleted)
     = [(1, true, Some aug_09)]
  /\ instructions undone = instructions created.
Proof. repeat split. Qed.

(** ** Creation with an unparseable deadline *)

Lemma add_unparseable_deadline (w : World) (argv : AddArgv) (st : State)
    (s : string) :
  add_deadline argv = Some s ->
  s <> ""%string ->
  chrono_parseDate w s = None ->
  add_handler w argv st =
    (InvalidDeadline,
     mkState (instructions st)
       (push_capped (undoStack st) (mkEntry "add" (instructions st)))
       []).
Proof.
  intros Hd Hs Hp. unfold add_handler. rewrite Hd. simpl.
  destruct (String.eqb_spec s ""); [contradiction|]. simpl.
  rewrite Hp. reflexivity.
Qed.

(** The edit handler, by contrast, checks the deadline before it touches
    the history. *)
Lemma edit_unparseable_deadline (w : World) (argv : EditArgv) (st : State) :
  fst (edit_handler w argv st) = InvalidDeadline ->
  snd (edit_handler w argv st) = st.
Proof.
  unfold edit_handler.
  destruct (JS.findIndex _ _); [|discriminate].
  destruct (nth_error _ _); [|discriminate].
  destruct (isDeleted i); [discriminate|].
  destruct (edit_fields w argv i) as [[edited changed]|]; [|reflexivity].
  destruct changed; discriminate.
Qed.

(** C2 (the code at the failing input).  With one undone addition waiting on
    the redo stack, adding with the phrase "someday maybe", which the
    deadline parser rejects, reports the invalid deadline and leaves the
    records alone, but it has already pushed an "add" snapshot onto the undo
    stack and emptied the redo stack. *)
Theorem add_invalid_deadline_changes_history :
  let before := mkState [] [] [mkEntry "add" [record_1]] in
  let after := snd (add_handler sample_world buy_milk_someday before) in
  fst (add_handler sample_world buy_milk_someday before) = InvalidDeadline
  /\ instructions after = instructions before
  /\ undoStack after = [mkEntry "add" []]
  /\ undoStack after <> undoStack before
  /\ redoStack after = []
  /\ redoStack after <> redoStack before.
Proof. vm_compute. repeat split; discriminate. Qed.

(** ** Identifiers *)

Lemma fold_left_max_ge (l : list Z) (a : Z) :
  a <= fold_left Z.max l a /\ Forall (fun x => x <= fold_left Z.max l a) l.
Proof.
  revert a. induction l as [|x l IH]; intros a; simpl.
  - split; [lia | constructor].
  - destruct (IH (Z.max a x)) as [H1 H2]. split; [lia|].
    constructor; [lia | exact H2].
Qed.

Lemma fold_left_max_in (l : list Z) (a : Z) :
  In (fold_left Z.max l a) (a :: l).
Proof.
  revert a. induction l as [|x l IH]; intros a; simpl.
  - left; reflexivity.
  - destruct (IH (Z.max a x)) as [H|H].
    + rewrite <- H.
      destruct (Z.max_spec a x) as [[_ E]|[_ E]]; rewrite E; auto.
    + right; right; exact H.
Qed.

Lemma two_to_53 : 2 ^ 53 = 9007199254740992.
Proof. reflexivity. Qed.

Lemma round_to_double_exact (z : Z) :
  Z.abs z <= 2 ^ 53 -> round_to_double z = z.
Proof.
  intros H. unfold round_to_double.
  destruct (Z.leb_spec (Z.abs z) (2 ^ 53)); [reflexivity | lia].
Qed.

Lemma Forall_safe_max (l : list Z) (a : Z) :
  safe_integer a -> Forall safe_integer l ->
  safe_integer (fold_left Z.max l a).
Proof.
  intros Ha Hl.
  destruct (fold_left_max_in l a) as [<-|H]; [exact Ha|].
  rewrite Forall_forall in Hl. apply Hl, H.
Qed.

Lemma newId_safe (l : list Instruction) (r : Instruction) :
  Forall safe_integer (map id (r :: l)) ->
  newId (r :: l) = fold_left Z.max (map id l) (id r) + 1.
Proof.
  intros H. unfold newId. cbn [map] in *. inversion H; subst.
  apply round_to_double_exact.
  pose proof (Forall_safe_max (map id l) (id r)) as S.
  unfold safe_integer in *. rewrite two_to_53 in *.
  specialize (S ltac:(assumption) ltac:(assumption)). lia.
Qed.

Lemma newId_spec (l : list Instruction) :
  Forall safe_integer (map id l) ->
  (l = [] -> newId l = 1)
  /\ (l <> [] -> is_max (newId l - 1) (map id l)).
Proof.
  intros Hs. split.
  - intros ->. reflexivity.
  - intros Hne. destruct l as [|r l]; [contradiction|].
    rewrite (newId_safe l r Hs). unfold is_max. cbn [map].
    rewrite Z.add_simpl_r.
    split; [apply fold_left_max_in|].
    destruct (fold_left_max_ge (map id l) (id r)) as [H1 H2].
    constructor; assumption.
Qed.

Lemma newId_above (l : list Instruction) :
  Forall safe_integer (map id l) ->
  Forall (fun x => x < newId l) (map id l).
Proof.
  intros Hs. destruct l as [|r l]; [constructor|].
  destruct (newId_spec (r :: l) Hs) as [_ H].
  destruct H as [_ H]; [discriminate|].
  eapply Forall_impl; [|exact H]. simpl. intros; lia.
Qed.

(** The new id is at most one more, in magnitude, than the ids of the
    store. *)
Lemma newId_bound (l : list Instruction) (B : Z) :
  1 <= B < 2 ^ 53 ->
  Forall (fun x => Z.abs x < B) (map id l) ->
  Z.abs (newId l) < B + 1.
Proof.
  intros HB Hl. destruct l as [|r l]; [cbn; lia|].
  assert (Hs : Forall safe_integer (map id (r :: l))).
  { eapply Forall_impl; [|exact Hl]. unfold safe_integer. simpl. intros; lia. }
  rewrite (newId_safe l r Hs).
  destruct (fold_left_max_in (map id l) (id r)) as [E|Hin].
  - rewrite <- E. inversion Hl; subst. lia.
  - cbn [map] in Hl. inversion Hl; subst.
    match goal with H : Forall _ (map id l) |- _ =>
      rewrite Forall_forall in H; specialize (H _ Hin) end.
    lia.
Qed.

Lemma add_handler_cases (w : World) (argv : AddArgv) (st : State) :
  (fst (add_handler w argv st) = InvalidDeadline
   /\ instructions (snd (add_handler w argv st)) = instructions st)
  \/ (exists r,
        fst (add_handler w argv st) = InstructionAdded (newId (instructions st))
        /\ instructions (snd (add_handler w argv st)) = instructions st ++ [r]
        /\ id r = newId (instructions st)).
Proof.
  unfold add_handler.
  destruct (JS.truthy_str (add_deadline argv)), (add_deadline argv) as [d|];
    simpl; try destruct (chrono_parseDate w d); simpl;
    first [ left; split; reflexivity
          | right; eexists; repeat split; reflexivity ].
Qed.

Lemma add_handler_appends (w : World) (argv : AddArgv) (st st' : State) (n : Z) :
  add_handler w argv st = (InstructionAdded n, st') ->
  n = newId (instructions st)
  /\ exists r, instructions st' = instructions st ++ [r] /\ id r = n.
Proof.
  intros H.
  destruct (add_handler_cases w argv st) as [[Ho _]|[r [Ho [Hs Hid]]]];
    rewrite H in *; simpl in *.
  - discriminate.
  - inversion Ho; subst. split; [reflexivity|]. exists r. split; assumption.
Qed.

Lemma set_at_same_id (l : list Instruction) (i : nat) (x y : Instruction) :
  nth_error l i = Some x -> id y = id x ->
  map id (JS.set_at i y l) = map id l.
Proof.
  revert i. induction l as [|z l IH]; intros [|i] H E; simpl in *;
    try discriminate.
  - inversion H; subst. rewrite E. reflexivity.
  - f_equal. apply IH; assumption.
Qed.

Lemma coercions_parse_filters (w : World) (argv : FilterArgv) (e : Exception) :
  coercions argv = Throw e -> parse_filters w argv = Throw e.
Proof.
  unfold coercions, parse_filters.
  destruct (weekCoercion (a_week argv)); cbn [bind]; [|congruence].
  destruct (monthCoercion (a_month argv)); cbn [bind]; [discriminate|].
  congruence.
Qed.


Lemma show_handler_cases (w : World) (argv : FilterArgv) (st : State) :
  show_handler w argv st = listing w argv st
  \/ exists status priority,
       (status <> None \/ priority <> None)
       /\ outside_choices STATUS_SYMBOLS_keys (a_status argv) = status
       /\ outside_choices (map fst PRIORITY_ORDER) (a_priority argv) = priority
       /\ (exists p, coercions argv = Ok p)
       /\ show_handler w argv st = (InvalidValues status priority, st).
Proof.
  unfold show_handler, listing.
  destruct (coercions argv) as [p|e] eqn:Ec.
  - destruct (outside_choices STATUS_SYMBOLS_keys (a_status argv)) as [s|].
    + right. exists (Some s), (outside_choices (map fst PRIORITY_ORDER)
                                 (a_priority argv)).
      split; [left; discriminate|]. repeat split. exists p. reflexivity.
    + destruct (outside_choices (map fst PRIORITY_ORDER) (a_priority argv))
        as [q|].
      * right. exists None, (Some q). split; [right; discriminate|].
        repeat split. exists p. reflexivity.
      * left. reflexivity.
  - left. rewrite (coercions_parse_filters w argv e Ec). reflexivity.
Qed.

(** show and total never write, and never announce a change. *)
Lemma query_handlers_read_only (w : World) (argv : FilterArgv) (st : State) :
  (snd (show_handler w argv st) = st
   /\ assigned_ids [fst (show_handler w argv st)] = []
      /\ applied (fst (show_handler w argv st)) = false)
  /\ (snd (total_handler w argv st) = st
      /\ assigned_ids [fst (total_handler w argv st)] = []
         /\ applied (fst (total_handler w argv st)) = false).
Proof.
  split.
  - destruct (show_handler_cases w argv st) as [E|[s [q [_ [_ [_ [_ E]]]]]]];
      rewrite E; [|repeat split; reflexivity].
    unfold listing.
    destruct (parse_filters w argv) as [filters|[msg|]];
      [|repeat split; reflexivity ..].
    destruct (filterInstructions _ _ _) as [[|x l]|[msg|]];
      repeat split; reflexivity.
  - unfold total_handler.
    destruct (parse_filters w argv) as [filters|[msg|]];
      [|repeat split; reflexivity ..].
    destruct (filterInstructions _ _ _) as [[|x l]|[msg|]];
      repeat split; reflexivity.
Qed.

(** A command that keeps the records extends the list of ids by exactly the
    id it announces, if any. *)
Lemma exec_ids (w : World) (c : Command) (st : State) :
  keeps_records c = true ->
  map id (instructions (snd (exec w c st))) =
  map id (instructions st) ++ assigned_ids [fst (exec w c st)].
Proof.
  intros Hk. destruct c; try discriminate Hk; simpl exec.
  - destruct (add_handler_cases w argv st) as [[Ho Hs]|[r [Ho [Hs Hid]]]];
      rewrite Ho, Hs.
    + simpl. rewrite app_nil_r. reflexivity.
    + rewrite map_app. simpl. rewrite Hid. reflexivity.
  - unfold edit_handler.
    destruct (JS.findIndex _ _) as [k|]; [|simpl; rewrite app_nil_r; reflexivity].
    destruct (nth_error _ _) as [i|] eqn:En;
      [|simpl; rewrite app_nil_r; reflexivity].
    destruct (isDeleted i); [simpl; rewrite app_nil_r; reflexivity|].
    destruct (edit_fields w argv i) as [[edited changed]|] eqn:Ef;
      [|simpl; rewrite app_nil_r; reflexivity].
    destruct changed; [|simpl; rewrite app_nil_r; reflexivity].
    simpl. rewrite app_nil_r. apply (set_at_same_id _ _ i); [exact En|].
    unfold edit_fields, assign_if_truthy in Ef.
    repeat match type of Ef with
           | context [match ?o with Some _ => _ | None => _ end] =>
               destruct o; simpl in Ef
           | context [if ?b then _ else _] => destruct b; simpl in Ef
           end;
      inversion Ef; reflexivity.
  - unfold mark_handler.
    destruct (JS.findIndex _ _) as [k|]; [|simpl; rewrite app_nil_r; reflexivity].
    destruct (nth_error _ _) as [i|] eqn:En;
      [|simpl; rewrite app_nil_r; reflexivity].
    destruct (isDeleted i); [simpl; rewrite app_nil_r; reflexivity|].
    destruct (String.eqb _ _); simpl; rewrite app_nil_r; [reflexivity|].
    apply (set_at_same_id _ _ i); [exact En | reflexivity].
  - unfold delete_handler.
    destruct (JS.findIndex _ _) as [k|]; [|simpl; rewrite app_nil_r; reflexivity].
    destruct (nth_error _ _) as [i|] eqn:En;
      [|simpl; rewrite app_nil_r; reflexivity].
    destruct (prompt_answer w); simpl; rewrite app_nil_r; [|reflexivity].
    apply (set_at_same_id _ _ i); [exact En | reflexivity].
  - unfold recover_handler.
    destruct (JS.findIndex _ _) as [k|]; [|simpl; rewrite app_nil_r; reflexivity].
    destruct (nth_error _ _) as [i|] eqn:En;
      [|simpl; rewrite app_nil_r; reflexivity].
    destruct (negb (isDeleted i)); simpl; rewrite app_nil_r; [reflexivity|].
    apply (set_at_same_id _ _ i); [exact En | reflexivity].
  - destruct (query_handlers_read_only w argv st) as [[Hs [Ho _]] _].
    rewrite Hs, Ho, app_nil_r. reflexivity.
  - destruct (query_handlers_read_only w argv st) as [_ [Hs [Ho _]]].
    rewrite Hs, Ho, app_nil_r. reflexivity.
Qed.

Ltac split_handler :=
  repeat match goal with
         | |- context [match ?x with _ => _ end] =>
             lazymatch x with
             | context [match _ with _ => _ end] => fail
             | _ => destruct x eqn:?; simpl
             end
         end.

(** Only the add handler hands out an id, and it is [newId] of the store. *)
Lemma exec_assigned (w : World) (c : Command) (st : State) :
  assigned_ids [fst (exec w c st)] = []
  \/ assigned_ids [fst (exec w c st)] = [newId (instructions st)].
Proof.
  destruct c; simpl exec.
  - destruct (add_handler_cases w argv st) as [[Ho _]|[r [Ho _]]]; rewrite Ho;
      [left | right]; reflexivity.
  - left. unfold edit_handler. split_handler; reflexivity.
  - left. unfold mark_handler. split_handler; reflexivity.
  - left. unfold delete_handler. split_handler; reflexivity.
  - left. unfold recover_handler. split_handler; reflexivity.
  - left. unfold reset_handler. split_handler; reflexivity.
  - left. unfold undo_handler. split_handler; reflexivity.
  - left. unfold redo_handler. split_handler; reflexivity.
  - left. apply query_handlers_read_only.
  - left. apply query_handlers_read_only.
Qed.

Lemma assigned_ids_cons (o : Outcome) (os : list Outcome) :
  assigned_ids (o :: os) = assigned_ids [o] ++ assigned_ids os.
Proof. destruct o; reflexivity. Qed.

Lemma run_cons (w : World) (c : Command) (script : list (World * Command))
    (st : State) :
  run ((w, c) :: script) st =
  (fst (exec w c st) :: fst (run script (snd (exec w c st))),
   snd (run script (snd (exec w c st)))).
Proof.
  simpl. destruct (exec w c st) as [o st1]. simpl.
  destruct (run script st1) as [os st2]. reflexivity.
Qed.

Lemma add_handler_outcome (w : World) (argv : AddArgv) (st : State) :
  fst (add_handler w argv st)
  = if deadline_accepted w argv
    then InstructionAdded (newId (instructions st))
    else InvalidDeadline.
Proof.
  unfold add_handler, deadline_accepted.
  destruct (add_deadline argv) as [d|]; [|reflexivity].
  destruct (JS.truthy_str (Some d)); [|reflexivity].
  destruct (chrono_parseDate w d); reflexivity.
Qed.

Lemma room_for_safe (k : nat) (l : list Instruction) :
  room_for k l -> Forall safe_integer (map id l).
Proof.
  intros [_ H]. eapply Forall_impl; [|exact H].
  unfold safe_integer. simpl. intros; lia.
Qed.

(** A command that keeps the records uses up at most one assignment. *)
Lemma exec_room (w : World) (c : Command) (st : State) (k : nat) :
  keeps_records c = true ->
  room_for (S k) (instructions st) ->
  room_for k (instructions (snd (exec w c st))).
Proof.
  intros Hc [Hk Hl]. rewrite two_to_53 in *. split; [rewrite two_to_53; lia|].
  rewrite (exec_ids w c st Hc), two_to_53. apply Forall_app. split.
  - eapply Forall_impl; [|exact Hl]. cbv beta. intros; lia.
  - destruct (exec_assigned w c st) as [E|E]; rewrite E; constructor;
      [|constructor].
    pose proof (newId_bound (instructions st)
                  (9007199254740992 - Z.of_nat (S k))) as B.
    rewrite two_to_53 in B.
    assert (H : Z.abs (newId (instructions st))
                < 9007199254740992 - Z.of_nat (S k) + 1).
    { apply B; [lia|]. eapply Forall_impl; [|exact Hl]. cbv beta.
      intros; lia. }
    lia.
Qed.

Lemma run_ids (script : list (World * Command)) :
  forall st : State,
    keeps_all_records script = true ->
    room_for (length script) (instructions st) ->
    map id (instructions (snd (run script st))) =
      map id (instructions st) ++ assigned_ids (fst (run script st))
    /\ StronglySorted Z.lt (assigned_ids (fst (run script st)))
    /\ Forall (fun n => Forall (fun x => x < n) (map id (instructions st)))
         (assigned_ids (fst (run script st))).
Proof.
  induction script as [|[w c] script IH]; intros st Hk Hroom.
  - simpl. rewrite app_nil_r. repeat split; constructor.
  - simpl in Hk. apply andb_prop in Hk. destruct Hk as [Hc Hk].
    rewrite run_cons. cbn [fst snd]. rewrite assigned_ids_cons.
    cbn [length] in Hroom.
    destruct (IH (snd (exec w c st)) Hk (exec_room w c st _ Hc Hroom))
      as [Hids [Hsorted Habove]].
    rewrite (exec_ids w c st Hc) in Hids, Habove.
    split; [rewrite Hids, app_assoc; reflexivity|].
    destruct (exec_assigned w c st) as [E|E]; rewrite E in *; simpl app.
    + rewrite app_nil_r in Habove. split; assumption.
    + split.
      * constructor; [exact Hsorted|].
        eapply Forall_impl; [|exact Habove]. simpl. intros n Hn.
        apply Forall_app in Hn. destruct Hn as [_ Hn].
        inversion Hn; assumption.
      * constructor; [apply newId_above, (room_for_safe _ _ Hroom)|].
        eapply Forall_impl; [|exact Habove]. simpl. intros n Hn.
        apply Forall_app in Hn. destruct Hn as [Hn _]. exact Hn.
Qed.

(** Every addition whose deadline is accepted is given an id, and nothing
    else is. *)
Lemma run_assigned_count (script : list (World * Command)) :
  forall st : State,
    length (assigned_ids (fst (run script st)))
    = length (accepted_adds script).
Proof.
  induction script as [|[w c] script IH]; intros st; [reflexivity|].
  rewrite run_cons. cbn [fst]. rewrite assigned_ids_cons, length_app, IH.
  unfold accepted_adds. cbn [filter fst snd].
  destruct c; cbn [exec];
    try (destruct (exec_assigned w ltac:(eassumption || exact Reset) st);
         fail).
  - rewrite add_handler_outcome.
    destruct (deadline_accepted w argv); reflexivity.
  - destruct (exec_assigned w (Edit argv) st) as [E|E]; cbn [exec] in E;
      rewrite E; [reflexivity|]. exfalso. revert E. unfold edit_handler.
      split_handler; discriminate.
  - destruct (exec_assigned w (Mark argv_id argv_status) st) as [E|E];
      cbn [exec] in E; rewrite E; [reflexivity|]. exfalso. revert E.
      unfold mark_handler. split_handler; discriminate.
  - destruct (exec_assigned w (Delete argv_id) st) as [E|E];
      cbn [exec] in E; rewrite E; [reflexivity|]. exfalso. revert E.
      unfold delete_handler. split_handler; discriminate.
  - destruct (exec_assigned w (Recover argv_id) st) as [E|E];
      cbn [exec] in E; rewrite E; [reflexivity|]. exfalso. revert E.
      unfold recover_handler. split_handler; discriminate.
  - destruct (exec_assigned w Reset st) as [E|E];
      cbn [exec] in E; rewrite E; [reflexivity|]. exfalso. revert E.
      unfold reset_handler. split_handler; discriminate.
  - destruct (exec_assigned w Undo st) as [E|E];
      cbn [exec] in E; rewrite E; [reflexivity|]. exfalso. revert E.
      unfold undo_handler. split_handler; discriminate.
  - destruct (exec_assigned w Redo st) as [E|E];
      cbn [exec] in E; rewrite E; [reflexivity|]. exfalso. revert E.
      unfold redo_handler. split_handler; discriminate.
  - destruct (query_handlers_read_only w argv st) as [[_ [E _]] _].
    rewrite E. reflexivity.
  - destruct (query_handlers_read_only w argv st) as [_ [_ [E _]]].
    rewrite E. reflexivity.
Qed.

Lemma strictly_sorted_NoDup (l : list Z) : StronglySorted Z.lt l -> NoDup l.
Proof.
  induction 1 as [|x l Hs IH Hx]; constructor; [|exact IH].
  intros Hin. rewrite Forall_forall in Hx. specialize (Hx x Hin). lia.
Qed.

(** C3 (as the code has it).  On a store whose ids are safe integers, an
    add whose deadline is left out or parseable always assigns an id: 1 on
    the empty store and otherwise one more than the greatest existing id;
    it appends the record carrying it, and an add that reports an id has
    done exactly that.  In a session made of commands that keep the
    records (add, edit, mark, soft delete, recover and the queries, in any
    order and with any answers), run on a store that leaves room for as
    many assignments as the session has commands, every accepted addition
    is given an id, the store gains exactly the assigned ids, and these are
    strictly increasing, pairwise distinct, and differ from every id the
    store held at the start. *)
Theorem assigned_ids_strictly_increasing :
  (forall (w : World) (argv : AddArgv) (st : State),
      Forall safe_integer (map id (instructions st)) ->
      deadline_accepted w argv = true ->
      exists (n : Z) (r : Instruction),
        fst (add_handler w argv st) = InstructionAdded n
        /\ (instructions st = [] -> n = 1)
        /\ (instructions st <> [] -> is_max (n - 1) (map id (instructions st)))
        /\ instructions (snd (add_handler w argv st)) = instructions st ++ [r]
        /\ id r = n)
  /\ (forall (w : World) (argv : AddArgv) (st st' : State) (n : Z),
      Forall safe_integer (map id (instructions st)) ->
      add_handler w argv st = (InstructionAdded n, st') ->
      (instructions st = [] -> n = 1)
      /\ (instructions st <> [] -> is_max (n - 1) (map id (instructions st)))
      /\ exists r, instructions st' = instructions st ++ [r] /\ id r = n)
  /\ (forall (script : list (World * Command)) (st : State),
      keeps_all_records script = true ->
      room_for (length script) (instructions st) ->
      length (assigned_ids (fst (run script st)))
      = length (accepted_adds script)
      /\ map id (instructions (snd (run script st)))
         = map id (instructions st) ++ assigned_ids (fst (run script st))
      /\ StronglySorted Z.lt (assigned_ids (fst (run script st)))
      /\ NoDup (assigned_ids (fst (run script st)))
      /\ (forall n, In n (assigned_ids (fst (run script st))) ->
                    ~ In n (map id (instructions st)))).
Proof.
  split; [|split].
  - intros w argv st Hs Ha.
    pose proof (add_handler_outcome w argv st) as Ho. rewrite Ha in Ho.
    destruct (add_handler_cases w argv st) as [[Hi _]|[r [_ [Hr Hid]]]];
      [rewrite Ho in Hi; discriminate|].
    destruct (newId_spec (instructions st) Hs) as [H1 H2].
    exists (newId (instructions st)), r.
    split; [exact Ho|]. split; [exact H1|]. split; [exact H2|].
    split; assumption.
  - intros w argv st st' n Hs H.
    destruct (add_handler_appends w argv st st' n H) as [Hn Hr].
    destruct (newId_spec (instructions st) Hs) as [H1 H2]. subst n.
    split; [exact H1|]. split; [exact H2 | exact Hr].
  - intros script st Hk Hroom.
    destruct (run_ids script st Hk Hroom) as [Hids [Hsorted Habove]].
    split; [apply run_assigned_count|]. split; [exact Hids|].
    split; [exact Hsorted|]. split; [apply strictly_sorted_NoDup, Hsorted|].
    intros n Hn Hin. rewrite Forall_forall in Habove.
    specialize (Habove n Hn). rewrite Forall_forall in Habove.
    specialize (Habove n Hin). lia.
Qed.

Lemma assigned_ids_strictly_increasing_witness :
  (exists (n : Z) (r : Instruction),
      fst (add_handler sample_world buy_milk
             (mkState [record_1_deleted; record_2] [] []))
      = InstructionAdded n
      /\ is_max (n - 1) (map id [record_1_deleted; record_2])
      /\ id r = n)
  /\ StronglySorted Z.lt (assigned_ids (fst (run sample_session initial_state))).
Proof.
  split.
  - destruct (proj1 assigned_ids_strictly_increasing sample_world buy_milk
                (mkState [record_1_deleted; record_2] [] []))
      as [n [r [H1 [_ [H2 [_ H3]]]]]].
    + repeat constructor.
    + reflexivity.
    + exists n, r. split; [exact H1|]. split; [|exact H3].
      apply H2. discriminate.
  - apply (proj2 (proj2 assigned_ids_strictly_increasing)
             sample_session initial_state).
    + reflexivity.
    + split; [reflexivity | constructor].
Defined.

(** C3 as stated fails at the end of the safe integers: on a store that
    holds the id [2 ^ 53] the sum [2 ^ 53 + 1] is rounded to [2 ^ 53], so
    the new record gets the id the store already has. *)
Lemma id_at_the_limit_is_assigned_twice : ~ ids_assigned_as_specified.
Proof.
  intros H.
  destruct (H sample_world buy_milk (mkState [record_at_the_limit] [] [])
              (snd (add_handler sample_world buy_milk
                      (mkState [record_at_the_limit] [] [])))
              (2 ^ 53) eq_refl) as [_ [_ N]].
  apply N. left. reflexivity.
Qed.

(** ** Capacity of the stacks *)

Lemma lastn_all {A : Type} (n : nat) (l : list A) :
  (length l <= n)%nat -> lastn n l = l.
Proof.
  intros H. unfold lastn. replace (length l - n)%nat with O by lia.
  reflexivity.
Qed.

Lemma lastn_app_long {A : Type} (n : nat) (l m : list A) :
  (n <= length m)%nat -> lastn n (l ++ m) = lastn n m.
Proof.
  intros H. unfold lastn. rewrite length_app, skipn_app.
  replace (length l + length m - n - length l)%nat with (length m - n)%nat by lia.
  rewrite skipn_all2 by lia. reflexivity.
Qed.

Lemma lastn_lastn_app {A : Type} (n : nat) (l m : list A) :
  lastn n (lastn n l ++ m) = lastn n (l ++ m).
Proof.
  unfold lastn. rewrite !length_app, length_skipn, !skipn_app, skipn_skipn.
  rewrite length_skipn.
  replace (length l - (length l - n) + length m - n + (length l - n))%nat
    with (length l + length m - n)%nat by lia.
  replace (length l - (length l - n) + length m - n
           - (length l - (length l - n)))%nat
    with (length l + length m - n - length l)%nat by lia.
  reflexivity.
Qed.

Lemma push_capped_lastn (s : list HistoryEntry) (e : HistoryEntry) :
  (length s <= MAX_UNDO_REDO_STATES)%nat ->
  push_capped s e = lastn MAX_UNDO_REDO_STATES (s ++ [e]).
Proof.
  intros H. rewrite push_capped_eq. unfold lastn, MAX_UNDO_REDO_STATES in *.
  rewrite length_app. simpl length.
  destruct (Nat.leb_spec 10 (length s)) as [H'|H'].
  - replace (length s + 1 - 10)%nat with 1%nat by lia.
    destruct s; simpl in *; [lia | reflexivity].
  - replace (length s + 1 - 10)%nat with 0%nat by lia. reflexivity.
Qed.

(** A mutating command either leaves the persisted state alone or pushes the
    store it found onto the undo stack and empties the redo stack. *)
Lemma mutating_history (w : World) (c : Command) (st : State) :
  mutating c = true ->
  snd (exec w c st) = st
  \/ (undoStack (snd (exec w c st)) =
        push_capped (undoStack st) (mkEntry (command_name c) (instructions st))
      /\ redoStack (snd (exec w c st)) = []).
Proof.
  intros Hm. destruct c; try discriminate Hm; simpl exec.
  - right. unfold add_handler. split_handler; split; reflexivity.
  - unfold edit_handler. split_handler;
      first [left; reflexivity | right; split; reflexivity].
  - unfold mark_handler. split_handler;
      first [left; reflexivity | right; split; reflexivity].
  - unfold delete_handler. split_handler;
      first [left; reflexivity | right; split; reflexivity].
  - unfold recover_handler. split_handler;
      first [left; reflexivity | right; split; reflexivity].
  - unfold reset_handler. split_handler;
      first [left; reflexivity | right; split; reflexivity].
Qed.

Lemma popFromUndoStack_state (st : State) :
  snd (popFromUndoStack st) = st
  \/ exists rest e,
      undoStack st = rest ++ [e]
      /\ snd (popFromUndoStack st) =
         mkState (data e) rest
           (push_capped (redoStack st) (mkEntry (command e) (instructions st))).
Proof.
  unfold popFromUndoStack.
  destruct (JS.pop (undoStack st)) as [[e rest]|] eqn:E.
  - right. exists rest, e. split; [apply pop_some_inv, E | reflexivity].
  - left. reflexivity.
Qed.

Lemma popFromRedoStack_state (st : State) :
  snd (popFromRedoStack st) = st
  \/ exists rest e,
      redoStack st = rest ++ [e]
      /\ snd (popFromRedoStack st) =
         mkState (data e)
           (push_capped (undoStack st) (mkEntry (command e) (instructions st)))
           rest.
Proof.
  unfold popFromRedoStack.
  destruct (JS.pop (redoStack st)) as [[e rest]|] eqn:E.
  - right. exists rest, e. split; [apply pop_some_inv, E | reflexivity].
  - left. reflexivity.
Qed.

Lemma undo_handler_state (w : World) (st : State) :
  snd (undo_handler w st) = st
  \/ snd (undo_handler w st) = snd (popFromUndoStack st).
Proof.
  unfold undo_handler. destruct (undoStack st); [left; reflexivity|].
  destruct (prompt_answer w); [|left; reflexivity].
  right. destruct (popFromUndoStack st) as [[c|] st']; reflexivity.
Qed.

Lemma redo_handler_state (w : World) (st : State) :
  snd (redo_handler w st) = st
  \/ snd (redo_handler w st) = snd (popFromRedoStack st).
Proof.
  unfold redo_handler. destruct (redoStack st); [left; reflexivity|].
  destruct (prompt_answer w); [|left; reflexivity].
  right. destruct (popFromRedoStack st) as [[c|] st']; reflexivity.
Qed.

Lemma exec_within_capacity (w : World) (c : Command) (st : State) :
  within_capacity st -> within_capacity (snd (exec w c st)).
Proof.
  intros [Hu Hr].
  destruct (mutating c) eqn:Hm.
  - destruct (mutating_history w c st Hm) as [E|[E1 E2]].
    + rewrite E. split; assumption.
    + split; [rewrite E1; apply push_capped_length, Hu|].
      rewrite E2. simpl. lia.
  - destruct c; try discriminate Hm; simpl exec.
    + destruct (undo_handler_state w st) as [E|E]; rewrite E;
        [split; assumption|].
      destruct (popFromUndoStack_state st) as [E'|[rest [e [Hs E']]]];
        rewrite E'; [split; assumption|].
      split; simpl.
      * rewrite Hs, length_app in Hu. lia.
      * apply push_capped_length, Hr.
    + destruct (redo_handler_state w st) as [E|E]; rewrite E;
        [split; assumption|].
      destruct (popFromRedoStack_state st) as [E'|[rest [e [Hs E']]]];
        rewrite E'; [split; assumption|].
      split; simpl.
      * apply push_capped_length, Hu.
      * rewrite Hs, length_app in Hr. lia.
    + destruct (query_handlers_read_only w argv st) as [[E _] _].
      rewrite E. split; assumption.
    + destruct (query_handlers_read_only w argv st) as [_ [E _]].
      rewrite E. split; assumption.
Qed.

Lemma run_within_capacity (script : list (World * Command)) :
  forall st, within_capacity st -> within_capacity (snd (run script st)).
Proof.
  induction script as [|[w c] script IH]; intros st H.
  - exact H.
  - rewrite run_cons. simpl snd. apply IH, exec_within_capacity, H.
Qed.

Lemma snapshots_length (script : list (World * Command)) :
  forall st, length (snapshots script st) = length script.
Proof.
  induction script as [|[w c] script IH]; intros st; simpl;
    [reflexivity | rewrite IH; reflexivity].
Qed.

(** After a session of applied mutations the undo stack is the last ten of
    what it held before followed by the session's snapshots. *)
Lemma run_applied_undoStack (script : list (World * Command)) :
  forall st,
    (length (undoStack st) <= MAX_UNDO_REDO_STATES)%nat ->
    all_applied script st = true ->
    undoStack (snd (run script st)) =
    lastn MAX_UNDO_REDO_STATES (undoStack st ++ snapshots script st).
Proof.
  induction script as [|[w c] script IH]; intros st Hcap Happ.
  - simpl. rewrite app_nil_r. symmetry. apply lastn_all, Hcap.
  - simpl in Happ. apply andb_prop in Happ. destruct Happ as [Happ Hrest].
    apply andb_prop in Happ. destruct Happ as [Hm Ha].
    destruct (applied_mutation_history w c st Hm Ha) as [Hundo _].
    rewrite run_cons. simpl snd.
    rewrite IH; [|rewrite Hundo; apply push_capped_length, Hcap | exact Hrest].
    rewrite Hundo, (push_capped_lastn _ _ Hcap), lastn_lastn_app.
    simpl snapshots. rewrite <- app_assoc. reflexivity.
Qed.

(** C4.  In every session started from the empty files, neither stack ever
    holds more than ten entries.  A push onto a full stack, undo or redo,
    drops the oldest entry and puts the new one on top.  After more than ten
    applied mutations the undo stack is exactly the last ten snapshots of the
    session, oldest first. *)
Theorem stacks_hold_the_ten_most_recent :
  (forall script : list (World * Command),
      (length (undoStack (snd (run script initial_state))) <= 10)%nat
      /\ (length (redoStack (snd (run script initial_state))) <= 10)%nat)
  /\ (forall (name : string) (st : State),
      length (undoStack st) = 10%nat ->
      undoStack (pushToUndoStack name st) =
        tl (undoStack st) ++ [mkEntry name (instructions st)])
  /\ (forall (name : string) (st : State),
      length (redoStack st) = 10%nat ->
      redoStack (pushToRedoStack name st) =
        tl (redoStack st) ++ [mkEntry name (instructions st)])
  /\ (forall (script : list (World * Command)) (st : State),
      within_capacity st ->
      all_applied script st = true ->
      (10 < length script)%nat ->
      undoStack (snd (run script st)) = lastn 10 (snapshots script st)).
Proof.
  split; [|split; [|split]].
  - intros script. apply (run_within_capacity script initial_state).
    split; simpl; unfold MAX_UNDO_REDO_STATES; lia.
  - intros name st H. simpl. apply push_capped_full, H.
  - intros name st H. simpl. apply push_capped_full, H.
  - intros script st [Hcap _] Happ Hlen.
    rewrite (run_applied_undoStack script st Hcap Happ).
    apply lastn_app_long. rewrite snapshots_length.
    unfold MAX_UNDO_REDO_STATES. lia.
Qed.

Lemma stacks_hold_the_ten_most_recent_witness :
  undoStack (pushToUndoStack "add"
               (snd (run (firstn 10 eleven_additions) initial_state))) =
    tl (undoStack (snd (run (firstn 10 eleven_additions) initial_state)))
    ++ [mkEntry "add"
          (instructions (snd (run (firstn 10 eleven_additions) initial_state)))]
  /\ redoStack (pushToRedoStack "delete" full_redo_state) =
     tl (redoStack full_redo_state) ++ [mkEntry "delete" [record_1]]
  /\ undoStack (snd (run eleven_additions initial_state)) =
     lastn 10 (snapshots eleven_additions initial_state).
Proof.
  split; [|split].
  - apply (proj1 (proj2 stacks_hold_the_ten_most_recent)). reflexivity.
  - apply (proj1 (proj2 (proj2 stacks_hold_the_ten_most_recent))
             "delete"%string full_redo_state).
    reflexivity.
  - apply (proj2 (proj2 (proj2 stacks_hold_the_ten_most_recent))).
    + unfold within_capacity, MAX_UNDO_REDO_STATES. simpl. lia.
    + vm_compute. reflexivity.
    + simpl. lia.
Defined.

(** ** Preconditions and reports of the mutating handlers *)

Lemma findIndex_find {A : Type} (p : A -> bool) (l : list A) :
  match JS.findIndex p l with
  | Some k => exists x, nth_error l k = Some x /\ find p l = Some x
  | None => find p l = None
  end.
Proof.
  induction l as [|x l IH]; simpl.
  - reflexivity.
  - destruct (p x).
    + exists x. split; reflexivity.
    + destruct (JS.findIndex p l) as [k|]; simpl.
      * exact IH.
      * exact IH.
Qed.

Lemma findIndex_Some {A : Type} (p : A -> bool) (l : list A) (x : A) :
  find p l = Some x ->
  exists k, JS.findIndex p l = Some k /\ nth_error l k = Some x.
Proof.
  intros H. pose proof (findIndex_find p l) as F.
  destruct (JS.findIndex p l) as [k|]; [|congruence].
  destruct F as [y [Hn F]]. exists k. split; [reflexivity|]. congruence.
Qed.


(** Whatever a validating handler reports without announcing a change, it
    has written nothing. *)
Lemma unapplied_is_unchanged (w : World) (c : Command) (st : State) :
  validates_first c = true ->
  applied (fst (exec w c st)) = false ->
  snd (exec w c st) = st.
Proof.
  intros Hv. destruct c; try discriminate Hv; simpl exec.
  - unfold edit_handler. split_handler; intros; first [reflexivity | discriminate].
  - unfold mark_handler. split_handler; intros; first [reflexivity | discriminate].
  - unfold delete_handler. split_handler; intros; first [reflexivity | discriminate].
  - unfold recover_handler. split_handler; intros; first [reflexivity | discriminate].
  - unfold reset_handler. split_handler; intros; first [reflexivity | discriminate].
Qed.

Lemma edit_fields_something (w : World) (argv : EditArgv) (r : Instruction) :
  edit_supplies_nothing argv = false ->
  edit_fields w argv r = None \/ exists e, edit_fields w argv r = Some (e, true).
Proof.
  unfold edit_supplies_nothing, edit_fields, assign_if_truthy.
  destruct (edit_source argv) as [a|], (edit_instruction argv) as [b|],
    (edit_priority argv) as [c|], (edit_status argv) as [d|],
    (edit_deadline argv) as [e|]; simpl;
    repeat match goal with
           | |- context [String.eqb ?x ""] => destruct (String.eqb x ""); simpl
           end;
    try discriminate; intros _;
    try destruct (chrono_parseDate w e);
    first [left; reflexivity | right; eexists; reflexivity].
Qed.

Lemma set_at_nothing {A : Type} (l : list A) (k : nat) (x : A) :
  nth_error l k = Some x -> JS.set_at k x l = l.
Proof.
  revert k. induction l as [|z l IH]; intros [|k] H; simpl in *;
    try discriminate.
  - inversion H; reflexivity.
  - rewrite IH by exact H. reflexivity.
Qed.

Lemma assign_same (o : option string)
    (setter : string -> Instruction -> Instruction)
    (get : Instruction -> string) (r : Instruction) (b : bool) :
  setter (get r) r = r ->
  agrees_with o (get r) = true ->
  assign_if_truthy o setter (r, b) = (r, (b || JS.truthy_str o)%bool).
Proof.
  intros Hset. unfold agrees_with, assign_if_truthy.
  destruct o as [s|]; cbn [supplied_str JS.truthy_str fst];
    [|rewrite orb_false_r; reflexivity].
  destruct (String.eqb s ""); cbn [negb];
    [rewrite orb_false_r; reflexivity|].
  intros E. apply String.eqb_eq in E. subst s.
  rewrite Hset, orb_true_r. reflexivity.
Qed.

Lemma edit_fields_current_values (w : World) (argv : EditArgv)
    (r : Instruction) :
  requests_the_current_values argv r = true ->
  edit_fields w argv r = Some (r, true).
Proof.
  unfold requests_the_current_values. intros H.
  repeat (apply andb_true_iff in H; destruct H as [H ?]).
  apply negb_true_iff in H.
  match goal with D : negb (JS.truthy_str (edit_deadline argv)) = true |- _ =>
    apply negb_true_iff in D; rename D into Hd end.
  unfold edit_fields.
  rewrite (assign_same (edit_source argv) set_source source r false);
    [|destruct r; reflexivity | assumption].
  rewrite (assign_same (edit_instruction argv) set_text text r);
    [|destruct r; reflexivity | assumption].
  rewrite (assign_same (edit_priority argv) set_priority priority r);
    [|destruct r; reflexivity | assumption].
  rewrite (assign_same (edit_status argv) set_status status r);
    [|destruct r; reflexivity | assumption].
  unfold edit_supplies_nothing in H. apply negb_false_iff in H.
  rewrite Hd, orb_false_r in H. cbn [orb] in *. rewrite H.
  destruct (edit_deadline argv); rewrite ?Hd; reflexivity.
Qed.

(** C5 (the code where it departs from the claim).  An edit that asks for
    the values a record already has is a request that changes nothing,
    which the claim calls NoOp and says to leave everything as it is; the
    mark handler reports it so for the status.  The edit handler does not
    compare the values: it reports the instruction as updated, and while
    the records stay as they were it records an undo snapshot and empties
    the redo stack. *)
Theorem edit_to_the_current_values_is_reported_as_applied :
  forall (w : World) (argv : EditArgv) (st : State) (r : Instruction),
    find_by_id (edit_id argv) (instructions st) = Some r ->
    isDeleted r = false ->
    requests_the_current_values argv r = true ->
    fst (edit_handler w argv st) = InstructionUpdated (edit_id argv)
    /\ typed_result (fst (edit_handler w argv st)) = Some Applied
    /\ instructions (snd (edit_handler w argv st)) = instructions st
    /\ undoStack (snd (edit_handler w argv st))
       = push_capped (undoStack st) (mkEntry "edit" (instructions st))
    /\ redoStack (snd (edit_handler w argv st)) = []
    /\ mark_handler (edit_id argv) (status r) st
       = (AlreadyMarked (edit_id argv) (status r), st).
Proof.
  intros w argv st r Hf Hd Hreq. unfold find_by_id in Hf.
  destruct (findIndex_Some _ _ _ Hf) as [k [Hk Hn]].
  unfold edit_handler, mark_handler, loadInstructions.
  rewrite Hk, Hn, Hd, (edit_fields_current_values w argv r Hreq).
  rewrite (set_at_nothing _ _ _ Hn), String.eqb_refl.
  repeat split.
Qed.

Lemma edit_to_the_current_values_is_reported_as_applied_witness :
  fst (edit_handler sample_world edit_same_source (mkState [record_1] [] [record_1_entry]))
  = InstructionUpdated 1
  /\ instructions (snd (edit_handler sample_world edit_same_source
                          (mkState [record_1] [] [record_1_entry])))
     = [record_1]
  /\ undoStack (snd (edit_handler sample_world edit_same_source
                       (mkState [record_1] [] [record_1_entry])))
     = [mkEntry "edit" [record_1]]
  /\ redoStack (snd (edit_handler sample_world edit_same_source
                       (mkState [record_1] [] [record_1_entry])))
     = [].
Proof.
  destruct (edit_to_the_current_values_is_reported_as_applied sample_world
              edit_same_source (mkState [record_1] [] [record_1_entry])
              record_1 eq_refl eq_refl eq_refl)
    as [H1 [_ [H2 [H3 [H4 _]]]]].
  repeat split; assumption.
Defined.

(** The reports of the delete handler.  On a store whose record 1 is
    soft-deleted and on the empty store the handler prints the same
    message, so no reading of its report tells an already deleted record
    from an absent id: the message itself says "does not exist or is
    already deleted". *)
Lemma delete_report_merges_absent_and_deleted : ~ delete_reports_are_typed.
Proof.
  intros [classify H].
  destruct (H sample_world 1 (mkState [] [] [])) as [Habsent _].
  destruct (H sample_world 1 (mkState [record_1_deleted] [] [])) as [_ Hdeleted].
  specialize (Habsent eq_refl).
  specialize (Hdeleted record_1_deleted eq_refl eq_refl).
  simpl in Habsent, Hdeleted. congruence.
Qed.

(** ** Editing with empty strings *)











(** ** The filter engine *)

Lemma filter_filter {A : Type} (p q : A -> bool) (l : list A) :
  filter p (filter q l) = filter (fun x => q x && p x)%bool l.
Proof.
  induction l as [|x l IH]; simpl; [reflexivity|].
  destruct (q x); simpl; [destruct (p x)|]; rewrite IH; reflexivity.
Qed.

Lemma filter_true {A : Type} (l : list A) : filter (fun _ => true) l = l.
Proof. induction l as [|x l IH]; simpl; [|rewrite IH]; reflexivity. Qed.

Lemma filter_ext_bool {A : Type} (p q : A -> bool) (l : list A) :
  (forall x, p x = q x) -> filter p l = filter q l.
Proof.
  intros H. induction l as [|x l IH]; simpl; [reflexivity|].
  rewrite H, IH. reflexivity.
Qed.

(** A stage that is skipped is a filter by the constant [true]. *)
Lemma stage_as_filter (o : option string) (p : string -> Instruction -> bool)
    (l : list Instruction) :
  match o with
  | Some v => if JS.truthy_str o then filter (p v) l else l
  | None => l
  end
  = filter (fun r => match supplied_str o with
                     | Some v => p v r
                     | None => true
                     end) l.
Proof.
  destruct o as [v|]; simpl; [|symmetry; apply filter_true].
  destruct (String.eqb v ""); simpl; [symmetry; apply filter_true|].
  reflexivity.
Qed.

(** The five field stages amount to one filter by [passes_attributes]. *)
Lemma filterInstructions_stages (w : World) (rs : list Instruction)
    (f : Filters) :
  filterInstructions w rs f =
  if hasDateFilter f
  then filter_throwing (temporal_predicate w f) (filter (passes_attributes f) rs)
  else Ok (filter (passes_attributes f) rs).
Proof.
  unfold filterInstructions.
  rewrite (stage_as_filter (f_priority f)
             (fun p inst => String.eqb (priority inst) p)).
  rewrite (stage_as_filter (f_source f)
             (fun s inst => String.eqb (JS.toLowerCase (source inst))
                              (JS.toLowerCase s))).
  rewrite (stage_as_filter (f_status f)
             (fun s inst => String.eqb (status inst) s)).
  assert (E : forall l,
             (if negb (JS.truthy_flag (f_all f))
              then filter (fun inst => negb (isDeleted inst))
                     (if JS.truthy_flag (f_deadline f)
                      then filter (fun inst => is_some (deadline inst)) l
                      else l)
              else if JS.truthy_flag (f_deadline f)
                   then filter (fun inst => is_some (deadline inst)) l
                   else l)
             = filter (fun r =>
                         (if JS.truthy_flag (f_deadline f)
                          then is_some (deadline r) else true)
                         && (if JS.truthy_flag (f_all f)
                             then true else negb (isDeleted r)))%bool l).
  { intros l.
    destruct (JS.truthy_flag (f_all f)), (JS.truthy_flag (f_deadline f)); simpl.
    - apply filter_ext_bool. intros; rewrite andb_true_r; reflexivity.
    - symmetry. apply filter_true.
    - apply filter_filter.
    - reflexivity. }
  rewrite E, !filter_filter.
  match goal with
  | |- context [filter ?P rs] =>
      replace (filter P rs) with (filter (passes_attributes f) rs);
      [reflexivity|]
  end.
  apply filter_ext_bool. intros x. unfold passes_attributes.
  rewrite !andb_assoc. reflexivity.
Qed.

Lemma subseq_filter {A : Type} (p : A -> bool) (l : list A) :
  subseq (filter p l) l.
Proof.
  induction l as [|x l IH]; simpl; [constructor|].
  destruct (p x); [apply subseq_keep | apply subseq_skip]; exact IH.
Qed.

Lemma subseq_trans {A : Type} (a b c : list A) :
  subseq a b -> subseq b c -> subseq a c.
Proof.
  intros Hab Hbc. revert a Hab.
  induction Hbc as [|x b c Hbc IH|x b c Hbc IH]; intros a Hab.
  - exact Hab.
  - constructor. apply IH, Hab.
  - inversion Hab; subst.
    + apply subseq_skip. apply IH. assumption.
    + apply subseq_keep. apply IH. assumption.
Qed.

Lemma subseq_filter_throwing {A : Type} (p : A -> result bool)
    (l out : list A) :
  filter_throwing p l = Ok out -> subseq out l.
Proof.
  revert out. induction l as [|x l IH]; simpl; intros out H.
  - inversion H. constructor.
  - destruct (p x) as [keep|]; simpl in H; [|discriminate].
    destruct (filter_throwing p l) as [rest|]; simpl in H; [|discriminate].
    inversion H; subst.
    destruct keep; [apply subseq_keep | apply subseq_skip]; apply IH;
      reflexivity.
Qed.

(** Whatever the criteria, the matches come in the order of the input. *)
Lemma filterInstructions_subseq (w : World) (rs out : list Instruction)
    (f : Filters) :
  filterInstructions w rs f = Ok out -> subseq out rs.
Proof.
  rewrite filterInstructions_stages. destruct (hasDateFilter f); intros H.
  - eapply subseq_trans; [eapply subseq_filter_throwing, H|].
    apply subseq_filter.
  - inversion H. apply subseq_filter.
Qed.

(** ** Supplied options *)

Lemma supplied_str_truthy (o : option string) :
  JS.truthy_str o = is_some (supplied_str o).
Proof.
  destruct o as [s|]; simpl; [|reflexivity].
  destruct (String.eqb s ""); reflexivity.
Qed.

Lemma supplied_num_truthy (o : option Number) :
  JS.truthy_num o = is_some (supplied_num o).
Proof.
  destruct o as [[n|]|]; simpl; try reflexivity.
  destruct (n =? 0); reflexivity.
Qed.

Lemma supplied_month_truthy (o : option MonthValue) :
  truthy_month o = is_some (supplied_month o).
Proof.
  destruct o as [[n|k]|]; simpl; try reflexivity.
  destruct (n =? 0); reflexivity.
Qed.



Lemma supplied_str_inv (o : option string) (s : string) :
  supplied_str o = Some s -> o = Some s /\ JS.truthy_str o = true.
Proof.
  destruct o as [v|]; simpl; [|discriminate].
  destruct (String.eqb v ""); [discriminate|].
  intros H; inversion H; subst. split; reflexivity.
Qed.

(** ** Temporal criteria *)

Lemma ceil_week (d k : Z) :
  Math_ceil_div d 7 = k <-> 7 * (k - 1) < d <= 7 * k.
Proof.
  unfold Math_ceil_div.
  pose proof (Z.div_mod (- d) 7 ltac:(lia)) as E.
  pose proof (Z.mod_pos_bound (- d) 7 ltac:(lia)) as B.
  split; intros H; lia.
Qed.

Lemma Forall_one {A : Type} (P : A -> Prop) (x : A) : Forall P [x] <-> P x.
Proof.
  split; intros H; [inversion H; assumption | constructor; [exact H | constructor]].
Qed.

Lemma Forall_none {A : Type} (P : A -> Prop) : Forall P [] <-> True.
Proof. split; intros; [exact I | constructor]. Qed.

Lemma validated_date_readable (w : World) (f : Filters) :
  validateFilterOptions w f = None -> date_readable w f.
Proof.
  unfold validateFilterOptions. intros H s Hs.
  apply supplied_str_inv in Hs. destruct Hs as [Hd Ht]. rewrite Hd in *.
  rewrite Ht in H.
  destruct (Date_parse w s) as [day|]; [exists day; reflexivity|].
  rewrite orb_true_r in H. discriminate.
Qed.

Section Criteria.

Variables (w : World) (f : Filters) (t : Timestamp).

Lemma dateMatch_iff :
  date_readable w f ->
  exists b,
    match f_date f with
    | Some s =>
        if negb (JS.truthy_str (f_date f)) then Ok true
        else match Date_parse w s with
             | Some day => Ok (String.eqb (isoDay t) day)
             | None => Throw RangeError
             end
    | None => Ok true
    end = Ok b
    /\ (b = true <->
        Forall (satisfies w t) (criterion OnDate (supplied_str (f_date f)))).
Proof.
  unfold date_readable. intros Hv. destruct (f_date f) as [s|] eqn:Hd.
  - destruct (JS.truthy_str (Some s)) eqn:Ht.
    + simpl in Ht. apply negb_true_iff in Ht.
      destruct (Hv s) as [day Hp]; [simpl; rewrite Ht; reflexivity|].
      simpl. rewrite Ht. simpl. rewrite Hp. eexists; split; [reflexivity|].
      rewrite Forall_one. simpl. rewrite Hp, String.eqb_eq.
      split; [intros ->; reflexivity | intros E; inversion E; reflexivity].
    + simpl. exists true. split; [reflexivity|].
      simpl in Ht. apply negb_false_iff in Ht. simpl. rewrite Ht. simpl.
      rewrite Forall_none. tauto.
  - exists true. split; [reflexivity|]. simpl. rewrite Forall_none. tauto.
Qed.

Lemma dayMatch_iff :
  match f_day f with
  | Some d =>
      (negb (JS.truthy_str (f_day f))
       || String.eqb (JS.toLowerCase (getDayName t)) (JS.toLowerCase d))%bool
  | None => true
  end = true
  <-> Forall (satisfies w t) (criterion OnDay (supplied_str (f_day f))).
Proof.
  destruct (f_day f) as [d|]; simpl; [|rewrite Forall_none; tauto].
  destruct (String.eqb d ""); simpl; [rewrite Forall_none; tauto|].
  rewrite Forall_one. simpl. apply String.eqb_eq.
Qed.

Lemma monthMatch_iff :
  match f_month f with
  | Some (MonthNumber m) =>
      (negb (truthy_month (f_month f)) || (getMonth t + 1 =? m))%bool
  | Some (InheritedProperty _) => false
  | None => true
  end = true
  <-> Forall (satisfies w t) (criterion InMonth (supplied_month (f_month f))).
Proof.
  destruct (f_month f) as [[m|k]|]; simpl.
  - destruct (m =? 0); simpl; [rewrite Forall_none; tauto|].
    rewrite Forall_one. simpl. rewrite Z.eqb_eq.
    split; [intros <-; reflexivity | intros E; inversion E; reflexivity].
  - rewrite Forall_one. simpl. split; discriminate.
  - rewrite Forall_none; tauto.
Qed.

Lemma yearMatch_iff :
  match f_year f with
  | Some y =>
      (negb (JS.truthy_num (f_year f))
       || JS.strict_equal (Integer (getFullYear t)) y)%bool
  | None => true
  end = true
  <-> Forall (satisfies w t) (criterion InYear (supplied_num (f_year f))).
Proof.
  destruct (f_year f) as [[y|]|]; simpl; try (rewrite Forall_none; tauto).
  destruct (y =? 0); simpl; [rewrite Forall_none; tauto|].
  rewrite Forall_one. simpl. apply Z.eqb_eq.
Qed.

Lemma weekMatch_iff :
  match f_week f with
  | Some k =>
      (negb (JS.truthy_num (f_week f))
       || JS.strict_equal (Integer (getWeekOfMonth t)) k)%bool
  | None => true
  end = true
  <-> Forall (satisfies w t) (criterion InWeek (supplied_num (f_week f))).
Proof.
  destruct (f_week f) as [[k|]|]; simpl; try (rewrite Forall_none; tauto).
  destruct (k =? 0); simpl; [rewrite Forall_none; tauto|].
  rewrite Forall_one. simpl. rewrite Z.eqb_eq. apply ceil_week.
Qed.

(** On validated options [checkDate] returns, and it returns [true]
    exactly when the timestamp meets every specified criterion. *)
Lemma checkDate_spec :
  date_readable w f ->
  exists b,
    checkDate w f (Some t) = Ok b
    /\ (b = true <-> Forall (satisfies w t) (specified_criteria f)).
Proof.
  intros Hv. destruct (dateMatch_iff Hv) as [b1 [E1 I1]].
  unfold checkDate. rewrite E1. simpl. eexists. split; [reflexivity|].
  unfold specified_criteria. rewrite !Forall_app, !andb_true_iff.
  rewrite I1, dayMatch_iff, monthMatch_iff, yearMatch_iff, weekMatch_iff.
  tauto.
Qed.

End Criteria.

Lemma temporal_predicate_spec (w : World) (f : Filters) (r : Instruction) :
  date_readable w f ->
  exists b,
    temporal_predicate w f r = Ok b /\ (b = true <-> temporal_match w f r).
Proof.
  intros Hv. unfold temporal_predicate, temporal_match.
  destruct (checkDate_spec w f (added r) Hv) as [b1 [E1 I1]].
  rewrite E1. simpl. destruct b1.
  - exists true. split; [reflexivity|]. split; [|reflexivity].
    intros _. exists (added r). split; [left; reflexivity | apply I1; reflexivity].
  - destruct (deadline r) as [d|] eqn:Hd.
    + destruct (checkDate_spec w f d Hv) as [b2 [E2 I2]].
      exists b2. split; [exact E2|]. rewrite I2. split.
      * intros H. exists d. split; [right; reflexivity | exact H].
      * intros [t [[-> | Ht] H]].
        -- apply I1 in H. discriminate.
        -- inversion Ht; subst. exact H.
    + exists false. split; [reflexivity|]. split; [discriminate|].
      intros [t [[-> | Ht] H]]; [apply I1 in H|]; discriminate.
Qed.

Lemma filter_throwing_decides {A : Type} (p : A -> result bool)
    (Q : A -> Prop) (l : list A) :
  (forall x, In x l -> exists b, p x = Ok b /\ (b = true <-> Q x)) ->
  exists out,
    filter_throwing p l = Ok out
    /\ forall x, In x out <-> In x l /\ Q x.
Proof.
  induction l as [|x l IH]; intros H.
  - exists []. split; [reflexivity|]. simpl. tauto.
  - destruct (H x (or_introl eq_refl)) as [b [Eb Ib]].
    destruct IH as [rest [Er Ir]].
    { intros y Hy. apply H. right. exact Hy. }
    simpl. rewrite Eb, Er. simpl. eexists. split; [reflexivity|].
    intros y. destruct b; simpl; rewrite Ir.
    + split.
      * intros [<- | [Hy Qy]]; [split; [left; reflexivity | apply Ib; reflexivity]|].
        split; [right; exact Hy | exact Qy].
      * intros [[<- | Hy] Qy]; [left; reflexivity | right; split; assumption].
    + split.
      * intros [Hy Qy]. split; [right; exact Hy | exact Qy].
      * intros [[<- | Hy] Qy]; [apply Ib in Qy; discriminate | split; assumption].
Qed.

Lemma no_date_filter_no_criteria (f : Filters) :
  hasDateFilter f = false -> specified_criteria f = [].
Proof.
  unfold hasDateFilter, specified_criteria. intros H.
  repeat (apply orb_false_elim in H; destruct H as [H ?]).
  destruct (f_date f) as [a|], (f_day f) as [b|], (f_month f) as [[m|k]|],
    (f_year f) as [[y|]|], (f_week f) as [[k'|]|]; simpl in *;
    repeat match goal with
           | E : negb ?b = false |- _ => apply negb_false_iff in E; rewrite E
           end;
    try discriminate; reflexivity.
Qed.

(** On validated options the filter returns, and a record is in the result
    exactly when it is in the input, passes the field criteria and one of
    its two timestamps meets all the specified temporal criteria. *)
Lemma filterInstructions_spec (w : World) (f : Filters)
    (rs : list Instruction) :
  date_readable w f ->
  exists out,
    filterInstructions w rs f = Ok out
    /\ forall r, In r out <->
                 In r rs /\ passes_attributes f r = true /\ temporal_match w f r.
Proof.
  intros Hv. rewrite filterInstructions_stages.
  destruct (hasDateFilter f) eqn:Hd.
  - destruct (filter_throwing_decides (temporal_predicate w f)
                (temporal_match w f) (filter (passes_attributes f) rs))
      as [out [E I]].
    { intros x _. apply temporal_predicate_spec, Hv. }
    exists out. split; [exact E|]. intros r. rewrite I, filter_In. tauto.
  - eexists. split; [reflexivity|]. intros r. rewrite filter_In.
    assert (T : temporal_match w f r).
    { exists (added r). split; [left; reflexivity|].
      rewrite (no_date_filter_no_criteria f Hd). constructor. }
    tauto.
Qed.

(** ** Falsy option values *)

Lemma supplied_str_idem (o : option string) :
  supplied_str (supplied_str o) = supplied_str o.
Proof.
  destruct o as [s|]; simpl; [|reflexivity].
  destruct (String.eqb s "") eqn:E; simpl; [reflexivity | rewrite E; reflexivity].
Qed.

Lemma supplied_num_idem (o : option Number) :
  supplied_num (option_map Integer (supplied_num o)) = supplied_num o.
Proof.
  destruct o as [[n|]|]; simpl; try reflexivity.
  destruct (n =? 0) eqn:E; simpl; [reflexivity | rewrite E; reflexivity].
Qed.

Lemma supplied_month_idem (o : option MonthValue) :
  supplied_month (supplied_month o) = supplied_month o.
Proof.
  destruct o as [[n|k]|]; simpl; try reflexivity.
  destruct (n =? 0) eqn:E; simpl; [reflexivity | rewrite E; reflexivity].
Qed.

Lemma checkDate_only_supplied (w : World) (f : Filters)
    (d : option Timestamp) :
  checkDate w (only_supplied f) d = checkDate w f d.
Proof.
  destruct d as [t|]; [|reflexivity].
  unfold checkDate, only_supplied. cbn [f_date f_day f_month f_year f_week].
  assert (E1 : match supplied_str (f_date f) with
               | Some s =>
                   if negb (JS.truthy_str (supplied_str (f_date f))) then Ok true
                   else match Date_parse w s with
                        | Some day => Ok (String.eqb (isoDay t) day)
                        | None => Throw RangeError
                        end
               | None => Ok true
               end
               = match f_date f with
                 | Some s =>
                     if negb (JS.truthy_str (f_date f)) then Ok true
                     else match Date_parse w s with
                          | Some day => Ok (String.eqb (isoDay t) day)
                          | None => Throw RangeError
                          end
                 | None => Ok true
                 end).
  { destruct (f_date f) as [s|]; simpl; [|reflexivity].
    destruct (String.eqb s "") eqn:E; simpl; [reflexivity|].
    rewrite E. reflexivity. }
  rewrite E1. clear E1.
  assert (E2 : match supplied_str (f_day f) with
               | Some d =>
                   (negb (JS.truthy_str (supplied_str (f_day f)))
                    || String.eqb (JS.toLowerCase (getDayName t))
                         (JS.toLowerCase d))%bool
               | None => true
               end
               = match f_day f with
                 | Some d =>
                     (negb (JS.truthy_str (f_day f))
                      || String.eqb (JS.toLowerCase (getDayName t))
                           (JS.toLowerCase d))%bool
                 | None => true
                 end).
  { destruct (f_day f) as [s|]; simpl; [|reflexivity].
    destruct (String.eqb s "") eqn:E; simpl; [reflexivity|].
    rewrite E. reflexivity. }
  rewrite E2. clear E2.
  assert (E3 : match supplied_month (f_month f) with
               | Some (MonthNumber m) =>
                   (negb (truthy_month (supplied_month (f_month f)))
                    || (getMonth t + 1 =? m))%bool
               | Some (InheritedProperty _) => false
               | None => true
               end
               = match f_month f with
                 | Some (MonthNumber m) =>
                     (negb (truthy_month (f_month f)) || (getMonth t + 1 =? m))%bool
                 | Some (InheritedProperty _) => false
                 | None => true
                 end).
  { destruct (f_month f) as [[m|k]|]; simpl; try reflexivity.
    destruct (m =? 0) eqn:E; simpl; [reflexivity|].
    rewrite E. reflexivity. }
  rewrite E3. clear E3.
  assert (E4 : forall (o : option Number) (v : Z),
             match option_map Integer (supplied_num o) with
             | Some y =>
                 (negb (JS.truthy_num (option_map Integer (supplied_num o)))
                  || JS.strict_equal (Integer v) y)%bool
             | None => true
             end
             = match o with
               | Some y =>
                   (negb (JS.truthy_num o) || JS.strict_equal (Integer v) y)%bool
               | None => true
               end).
  { intros o v. destruct o as [[y|]|]; simpl; try reflexivity.
    destruct (y =? 0) eqn:E; simpl; [reflexivity|].
    rewrite E. reflexivity. }
  rewrite !E4. reflexivity.
Qed.

(** The filter reads every option through its truthiness: the options and
    their supplied part give the same result. *)
Lemma filterInstructions_only_supplied (w : World) (rs : list Instruction)
    (f : Filters) :
  filterInstructions w rs (only_supplied f) = filterInstructions w rs f.
Proof.
  rewrite !filterInstructions_stages.
  assert (P : forall r, passes_attributes (only_supplied f) r
                        = passes_attributes f r).
  { intros r. unfold passes_attributes, only_supplied.
    cbn [f_priority f_source f_status f_deadline f_all].
    rewrite !supplied_str_idem.
    destruct (JS.truthy_flag (f_deadline f)), (JS.truthy_flag (f_all f));
      reflexivity. }
  assert (H : hasDateFilter (only_supplied f) = hasDateFilter f).
  { unfold hasDateFilter, only_supplied.
    cbn [f_date f_day f_month f_year f_week].
    rewrite !supplied_str_truthy, !supplied_num_truthy, !supplied_month_truthy,
      !supplied_str_idem, !supplied_num_idem, !supplied_month_idem.
    reflexivity. }
  assert (T : forall r, temporal_predicate w (only_supplied f) r
                        = temporal_predicate w f r).
  { intros r. unfold temporal_predicate. rewrite !checkDate_only_supplied.
    reflexivity. }
  rewrite H, (filter_ext_bool _ _ rs P).
  destruct (hasDateFilter f); [|reflexivity].
  clear P H. induction (filter (passes_attributes f) rs) as [|x l IH]; simpl.
  - reflexivity.
  - rewrite T, IH. reflexivity.
Qed.

(** C6 (as the code has it).  Week-of-month is [ceil(day / 7)]: week [k]
    holds the days [7(k-1)+1 .. 7k].  A criterion is specified when the
    program finds its value truthy; the filter gives the same result on the options and on
    their supplied part.  Whenever the date criterion is readable, which the
    check of the options guarantees, a record is returned exactly when it
    passes the non-temporal criteria and its added timestamp or its deadline
    meets all the specified temporal criteria at once.  With week 2 and
    month 8 the records returned are exactly those (not soft-deleted, unless
    deleted ones are included) whose added timestamp or deadline lies in
    days 8 to 14 of August. *)
Theorem temporal_match_is_either_timestamp :
  (forall (t : Timestamp) (k : Z),
      getWeekOfMonth t = k <-> 7 * (k - 1) < getDate t <= 7 * k)
  /\ (forall (w : World) (f : Filters) (rs : list Instruction),
      filterInstructions w rs (only_supplied f) = filterInstructions w rs f)
  /\ (forall (w : World) (f : Filters),
      validateFilterOptions w f = None -> date_readable w f)
  /\ (forall (w : World) (f : Filters) (rs : list Instruction),
      date_readable w f ->
      exists out,
        filterInstructions w rs f = Ok out
        /\ forall r, In r out <->
                     In r rs /\ passes_attributes f r = true
                     /\ temporal_match w f r)
  /\ (forall (w : World) (all : option bool) (rs : list Instruction),
      exists out,
        filterInstructions w rs (week_of_month_filter all 2 8) = Ok out
        /\ forall r, In r out <->
                     In r rs
                     /\ (JS.truthy_flag all = true \/ isDeleted r = false)
                     /\ (in_second_week_of_august (added r)
                         \/ exists d, deadline r = Some d
                                      /\ in_second_week_of_august d)).
Proof.
  split; [|split; [|split; [|split]]].
  - intros t k. apply ceil_week.
  - intros w f rs. apply filterInstructions_only_supplied.
  - exact validated_date_readable.
  - exact filterInstructions_spec.
  - intros w all rs.
    destruct (filterInstructions_spec w (week_of_month_filter all 2 8) rs)
      as [out [E I]].
    { intros s Hs. discriminate Hs. }
    exists out. split; [exact E|]. intros r. rewrite I.
    assert (A : passes_attributes (week_of_month_filter all 2 8) r = true
                <-> (JS.truthy_flag all = true \/ isDeleted r = false)).
    { unfold passes_attributes. simpl.
      destruct (JS.truthy_flag all), (isDeleted r); simpl; split; auto;
        intros [H|H]; discriminate. }
    assert (S : forall t,
               Forall (satisfies w t)
                 (specified_criteria (week_of_month_filter all 2 8))
               <-> in_second_week_of_august t).
    { intros t. unfold specified_criteria, in_second_week_of_august. simpl.
      split.
      - intros H. inversion H as [|? ? Hm H']; subst.
        inversion H' as [|? ? Hw _]; subst. simpl in Hm, Hw.
        inversion Hm. split; lia.
      - intros [Hm Hd]. constructor; [simpl; rewrite Hm; reflexivity|].
        constructor; [simpl; lia | constructor]. }
    rewrite A. unfold temporal_match. split.
    + intros [Hin [Ha [t [[-> | Ht] Hs]]]]; (split; [exact Hin|]);
        (split; [exact Ha|]); apply S in Hs.
      * left. exact Hs.
      * right. exists t. split; assumption.
    + intros [Hin [Ha [Hs | [d [Hd Hs]]]]]; (split; [exact Hin|]);
        (split; [exact Ha|]).
      * exists (added r). split; [left; reflexivity | apply S, Hs].
      * exists d. split; [right; exact Hd | apply S, Hs].
Qed.

Lemma temporal_match_is_either_timestamp_witness :
  exists out,
    filterInstructions sample_world [scenario_1; scenario_2]
      (on_date "2025-08-09") = Ok out
    /\ forall r, In r out <->
                 In r [scenario_1; scenario_2]
                 /\ passes_attributes (on_date "2025-08-09") r = true
                 /\ temporal_match sample_world (on_date "2025-08-09") r.
Proof.
  apply (proj1 (proj2 (proj2 (proj2 temporal_match_is_either_timestamp)))).
  apply (proj1 (proj2 (proj2 temporal_match_is_either_timestamp))).
  reflexivity.
Defined.

(** C6 as stated fails on a year of 0: the program reads it as no year at
    all and returns record 1, added in 2025 and without deadline. *)
Lemma year_zero_is_ignored : ~ every_given_criterion_is_applied.
Proof.
  intros H.
  destruct (H sample_world (in_year 0) [record_1] [record_1] record_1
              eq_refl eq_refl (or_introl eq_refl)) as [t [Ht Hs]].
  unfold given_criteria in Hs. simpl in Hs.
  inversion Hs as [|c l Hy _]; subst. simpl in Hy.
  destruct Ht as [-> | Ht]; [discriminate Hy | discriminate Ht].
Qed.

Example filter_second_week_of_august :
  filterInstructions sample_world [record_1; record_2]
    (week_of_month_filter None 2 8) = Ok [record_1; record_2].
Proof. reflexivity. Qed.

Example filter_first_week_of_september :
  filterInstructions sample_world [record_1; record_2]
    (week_of_month_filter None 1 9) = Ok [record_2].
Proof. reflexivity. Qed.

(** ** Empty criteria, order and purity *)

Example filter_completed_hides_deleted :
  filterInstructions sample_world [scenario_1; scenario_2] (only_completed None)
  = Ok [].
Proof. reflexivity. Qed.

Example filter_completed_with_all :
  filterInstructions sample_world [scenario_1; scenario_2]
    (only_completed (Some true))
  = Ok [scenario_2].
Proof. reflexivity. Qed.

Lemma alloc_view (h0 h : ArrayHeap.heap) (a : list Instruction) :
  (exists ext, h = h0 ++ ext) -> fresh_view h0 a (ArrayHeap.alloc a h).
Proof.
  intros [ext ->]. unfold fresh_view, ArrayHeap.alloc, ArrayHeap.deref. simpl.
  rewrite !length_app. simpl. split; [lia|]. split.
  - exists (ext ++ [a]). rewrite app_assoc. reflexivity.
  - rewrite <- length_app. apply nth_middle.
Qed.

Lemma stage_view (h0 : ArrayHeap.heap) (l : list Instruction) (cond : bool)
    (p : Instruction -> bool) (cur : ArrayHeap.loc * ArrayHeap.heap) :
  fresh_view h0 l cur ->
  fresh_view h0 (filter (fun r => if cond then p r else true) l)
    (ArrayHeap.filter_stage cond p cur).
Proof.
  intros V. unfold ArrayHeap.filter_stage. destruct cond.
  - destruct V as [_ [Hext Hl]]. rewrite Hl. apply alloc_view, Hext.
  - rewrite filter_true. exact V.
Qed.

Lemma view_keeps_old (h0 : ArrayHeap.heap) (l : list Instruction)
    (cur : ArrayHeap.loc * ArrayHeap.heap) (k : ArrayHeap.loc) :
  fresh_view h0 l cur -> (k < length h0)%nat ->
  ArrayHeap.deref (snd cur) k = ArrayHeap.deref h0 k /\ fst cur <> k.
Proof.
  intros [Hb [[ext He] _]] Hk. split; [|lia].
  unfold ArrayHeap.deref. rewrite He. apply app_nth1, Hk.
Qed.

(** The heap version computes what the pure function computes, in a newly
    allocated array, and leaves every array that existed before in place. *)
Lemma heap_filterInstructions (w : World) (h : ArrayHeap.heap)
    (input : ArrayHeap.loc) (f : Filters) :
  match ArrayHeap.filterInstructions w h input f with
  | Ok cur =>
      exists out,
        filterInstructions w (ArrayHeap.deref h input) f = Ok out
        /\ fresh_view h out cur
  | Throw e => filterInstructions w (ArrayHeap.deref h input) f = Throw e
  end.
Proof.
  rewrite filterInstructions_stages. unfold ArrayHeap.filterInstructions.
  pose proof (alloc_view h h (ArrayHeap.deref h input)
                (ex_intro _ [] (eq_sym (app_nil_r h)))) as V.
  apply (stage_view _ _ (JS.truthy_str (f_priority f))
           (fun inst => match f_priority f with
                        | Some p => String.eqb (priority inst) p
                        | None => false
                        end)) in V.
  apply (stage_view _ _ (JS.truthy_str (f_source f))
           (fun inst => match f_source f with
                        | Some s => String.eqb (JS.toLowerCase (source inst))
                                      (JS.toLowerCase s)
                        | None => false
                        end)) in V.
  apply (stage_view _ _ (JS.truthy_str (f_status f))
           (fun inst => match f_status f with
                        | Some s => String.eqb (status inst) s
                        | None => false
                        end)) in V.
  apply (stage_view _ _ (JS.truthy_flag (f_deadline f))
           (fun inst => is_some (deadline inst))) in V.
  apply (stage_view _ _ (negb (JS.truthy_flag (f_all f)))
           (fun inst => negb (isDeleted inst))) in V.
  rewrite !filter_filter in V.
  match type of V with
  | fresh_view _ (filter ?P ?l) _ =>
      replace (filter P l) with (filter (passes_attributes f) l) in V
  end.
  2:{ apply filter_ext_bool. intros x. unfold passes_attributes.
      destruct (f_priority f) as [a|], (f_source f) as [b|],
        (f_status f) as [c|]; simpl;
        repeat match goal with
               | |- context [String.eqb ?s ""] => destruct (String.eqb s ""); simpl
               end;
        destruct (JS.truthy_flag (f_deadline f)), (JS.truthy_flag (f_all f));
        simpl; rewrite ?andb_true_r, ?andb_assoc; reflexivity. }
  set (cur := ArrayHeap.filter_stage _ _ _) in *.
  destruct (hasDateFilter f).
  - destruct V as [Hb [Hext Hl]]. rewrite Hl.
    destruct (filter_throwing _ _) as [kept|e]; simpl; [|reflexivity].
    exists kept. split; [reflexivity|]. apply alloc_view, Hext.
  - eexists. split; [reflexivity | exact V].
Qed.

(** C7.  With no criteria the filter returns exactly the records that are
    not soft-deleted, in their original order.  For any criteria the result
    keeps the order of the input.  The function writes to newly allocated
    arrays only: the input array, like every array that existed before the
    call, holds afterwards what it held before, and the result is a
    different array; the show and total handlers leave the persisted state
    as it was. *)
Theorem filter_without_criteria_keeps_active_records :
  (forall (w : World) (rs : list Instruction),
      filterInstructions w rs no_filters
      = Ok (filter (fun r => negb (isDeleted r)) rs))
  /\ (forall (w : World) (rs out : list Instruction) (f : Filters),
      filterInstructions w rs f = Ok out -> subseq out rs)
  /\ (forall (w : World) (h : ArrayHeap.heap) (input : ArrayHeap.loc)
             (f : Filters),
      (input < length h)%nat ->
      match ArrayHeap.filterInstructions w h input f with
      | Ok (out, h') =>
          ArrayHeap.deref h' input = ArrayHeap.deref h input
          /\ out <> input
          /\ (forall k, (k < length h)%nat ->
                        ArrayHeap.deref h' k = ArrayHeap.deref h k)
          /\ filterInstructions w (ArrayHeap.deref h input) f
             = Ok (ArrayHeap.deref h' out)
      | Throw e => filterInstructions w (ArrayHeap.deref h input) f = Throw e
      end)
  /\ (forall (w : World) (argv : FilterArgv) (st : State),
      snd (show_handler w argv st) = st /\ snd (total_handler w argv st) = st).
Proof.
  split; [|split; [|split]].
  - intros w rs. reflexivity.
  - intros w rs out f. apply filterInstructions_subseq.
  - intros w h input f Hin.
    pose proof (heap_filterInstructions w h input f) as H.
    destruct (ArrayHeap.filterInstructions w h input f) as [[out h']|e];
      [|exact H].
    destruct H as [l [E V]].
    destruct (view_keeps_old h l (out, h') input V Hin) as [Hk Hne].
    split; [exact Hk|]. split; [exact Hne|]. split.
    + intros k Hlt. apply (view_keeps_old h l (out, h') k V Hlt).
    + rewrite E. destruct V as [_ [_ Hl]]. simpl in Hl. rewrite Hl.
      reflexivity.
  - intros w argv st.
    destruct (query_handlers_read_only w argv st) as [[H1 _] [H2 _]].
    split; assumption.
Qed.

Lemma filter_without_criteria_keeps_active_records_witness :
  subseq [scenario_2] [scenario_1; scenario_2]
  /\ match ArrayHeap.filterInstructions sample_world sample_heap 0%nat
             (only_completed (Some true)) with
     | Ok (out, h') =>
         ArrayHeap.deref h' 0%nat = ArrayHeap.deref sample_heap 0%nat
         /\ out <> 0%nat
         /\ (forall k, (k < length sample_heap)%nat ->
                       ArrayHeap.deref h' k = ArrayHeap.deref sample_heap k)
         /\ filterInstructions sample_world (ArrayHeap.deref sample_heap 0%nat)
              (only_completed (Some true))
            = Ok (ArrayHeap.deref h' out)
     | Throw e =>
         filterInstructions sample_world (ArrayHeap.deref sample_heap 0%nat)
           (only_completed (Some true)) = Throw e
     end.
Proof.
  split.
  - apply (proj1 (proj2 filter_without_criteria_keeps_active_records)
             sample_world [scenario_1; scenario_2] [scenario_2]
             (only_completed (Some true))).
    reflexivity.
  - apply (proj1 (proj2 (proj2 filter_without_criteria_keeps_active_records))
             sample_world sample_heap 0%nat (only_completed (Some true))).
    simpl. lia.
Defined.

(** ** Validation of the filter options *)














(** ** Month resolution *)

Example month_Aug : monthCoercion (Some "Aug"%string) = Ok (Some (MonthNumber 8)).
Proof. reflexivity. Qed.

Example month_August :
  monthCoercion (Some "August"%string) = Ok (Some (MonthNumber 8)).
Proof. reflexivity. Qed.

Example month_13 :
  monthCoercion (Some "13"%string) = Throw (Error "Invalid month: '13'.").
Proof. reflexivity. Qed.

Example month_12abc :
  monthCoercion (Some "12abc"%string) = Ok (Some (MonthNumber 12)).
Proof. reflexivity. Qed.

Example month_padded :
  monthCoercion (Some "  AUG "%string) = Ok (Some (MonthNumber 8)).
Proof. reflexivity. Qed.

Example month_constructor :
  monthCoercion (Some "constructor"%string)
  = Ok (Some (InheritedProperty "constructor")).
Proof. reflexivity. Qed.

Lemma parseInt_digit_start (c : ascii) (s : string) :
  JS.is_digit c = true ->
  JS.parseInt (String c s) = JS.digits_from None (String c s).
Proof.
  destruct c as [[] [] [] [] [] [] [] []]; intros H;
    first [discriminate H | reflexivity].
Qed.

Lemma parseInt_letter_start (c : ascii) (s : string) :
  (Nat.leb 97 (nat_of_ascii (JS.lower_char c))
   && Nat.leb (nat_of_ascii (JS.lower_char c)) 122)%bool = true ->
  JS.parseInt (String c s) = None.
Proof.
  destruct c as [[] [] [] [] [] [] [] []]; intros H;
    first [discriminate H | reflexivity].
Qed.

Lemma digits_from_all_digits (s : string) (a : Z) :
  forallb JS.is_digit (list_ascii_of_string s) = true ->
  JS.digits_from (Some a) s
  = Some (fold_left (fun acc c => 10 * acc + JS.digit_value c)
            (list_ascii_of_string s) a).
Proof.
  revert a. induction s as [|c s IH]; intros a H; simpl in *.
  - reflexivity.
  - apply andb_prop in H. destruct H as [Hc Hs]. rewrite Hc. apply IH, Hs.
Qed.

Lemma parseInt_numeric (s : string) :
  is_numeric_string s = true -> JS.parseInt s = Some (numeric_value s).
Proof.
  unfold is_numeric_string, numeric_value. intros H.
  apply andb_prop in H. destruct H as [Hne Hd].
  destruct s as [|c s]; [discriminate Hne|].
  simpl in Hd. apply andb_prop in Hd. destruct Hd as [Hc Hs].
  rewrite (parseInt_digit_start c s Hc). simpl. rewrite Hc.
  rewrite (digits_from_all_digits s _ Hs). reflexivity.
Qed.

Lemma own_property_range (key : string) (v : Z) :
  own_property key monthMap = Some v -> 1 <= v <= 12.
Proof.
  unfold monthMap. cbn [own_property].
  repeat match goal with
         | |- context [String.eqb ?k key] =>
             destruct (String.eqb k key); [intros H; inversion H; lia|]
         end.
  discriminate.
Qed.

(** The table of the program holds the twelve full names and their
    three-letter abbreviations, numbered 1 to 12. *)
Lemma monthMap_is_names_and_abbreviations (key : string) :
  own_property key monthMap = lookup_month key month_names 1.
Proof.
  unfold monthMap, month_names. cbn [own_property lookup_month substring].
  repeat match goal with
         | |- context [String.eqb ?k key] =>
             rewrite (String.eqb_sym k key)
         end.
  repeat match goal with
         | |- context [String.eqb key ?k] =>
             destruct (String.eqb key k); cbn [orb]; [reflexivity|]
         end.
  reflexivity.
Qed.

Lemma own_property_in (key : string) (m : list (string * Z)) (v : Z) :
  own_property key m = Some v -> In key (map fst m).
Proof.
  induction m as [|[k x] m IH]; simpl; [discriminate|].
  destruct (String.eqb_spec k key); [left; assumption | right; auto].
Qed.

Lemma month_names_are_plain : Forall plain_name (map fst monthMap).
Proof. repeat constructor. Qed.

Lemma lookup_month_plain (key : string) (n : Z) :
  lookup_month key month_names 1 = Some n -> plain_name key.
Proof.
  rewrite <- monthMap_is_names_and_abbreviations. intros H.
  apply own_property_in in H.
  pose proof month_names_are_plain as P. rewrite Forall_forall in P.
  apply P, H.
Qed.

Lemma monthCoercion_as_built (s : string) :
  monthCoercion (Some s) = month_resolution_as_built s.
Proof.
  unfold monthCoercion, parseMonth, month_resolution_as_built, monthMap_get.
  rewrite monthMap_is_names_and_abbreviations.
  destruct (String.eqb s ""); [reflexivity|].
  set (key := JS.trim (JS.toLowerCase s)).
  destruct (JS.parseInt s) as [n|];
    [destruct ((1 <=? n) && (n <=? 12))%bool; [reflexivity|]|];
    destruct (lookup_month key month_names 1); try reflexivity;
    destruct (existsb (String.eqb key) Object_prototype_keys); reflexivity.
Qed.

(** Every input the specification resolves is resolved by the program to
    the same number. *)
Lemma spec_resolution_preserved (s : string) (n : Z) :
  monthOf_spec s = Resolved n ->
  monthCoercion (Some s) = Ok (Some (MonthNumber n)).
Proof.
  unfold monthOf_spec.
  destruct (is_numeric_string s && (1 <=? numeric_value s)
            && (numeric_value s <=? 12))%bool eqn:E.
  - intros H. inversion H; subst. clear H.
    apply andb_prop in E. destruct E as [E H2].
    apply andb_prop in E. destruct E as [Hnum H1].
    rewrite monthCoercion_as_built. unfold month_resolution_as_built.
    rewrite (parseInt_numeric s Hnum), H1, H2. simpl.
    unfold is_numeric_string in Hnum. apply andb_prop in Hnum.
    destruct Hnum as [Hne _]. apply negb_true_iff in Hne. rewrite Hne.
    reflexivity.
  - destruct (lookup_month (JS.toLowerCase s) month_names 1) as [m|] eqn:L;
      [|discriminate].
    intros H. inversion H; subst. clear H.
    destruct (lookup_month_plain _ _ L) as [Htrim Hletter].
    rewrite monthCoercion_as_built. unfold month_resolution_as_built.
    destruct s as [|c s]; [contradiction|].
    simpl in Hletter. rewrite (parseInt_letter_start c s Hletter).
    simpl String.eqb. rewrite Htrim, L. reflexivity.
Qed.

Lemma monthCoercion_error (s : string) (e : Exception) :
  monthCoercion (Some s) = Throw e ->
  e = Error (invalid_month_message s) /\ monthOf_spec s = InvalidMonth s.
Proof.
  intros H. split.
  - unfold monthCoercion in H. destruct (parseMonth s); inversion H; reflexivity.
  - destruct (monthOf_spec s) as [n|v] eqn:E.
    + rewrite (spec_resolution_preserved s n E) in H. discriminate.
    + unfold monthOf_spec in E.
      destruct (is_numeric_string s && _ && _)%bool; [discriminate|].
      destruct (lookup_month _ _ _); inversion E; reflexivity.
Qed.

Lemma monthCoercion_number (s : string) (n : Z) :
  monthCoercion (Some s) = Ok (Some (MonthNumber n)) ->
  1 <= n <= 12
  /\ (JS.parseInt s = Some n
      \/ lookup_month (JS.trim (JS.toLowerCase s)) month_names 1 = Some n).
Proof.
  rewrite monthCoercion_as_built. unfold month_resolution_as_built.
  destruct (String.eqb s ""); [discriminate|].
  assert (N : forall key,
             match lookup_month key month_names 1 with
             | Some n0 => Ok (Some (MonthNumber n0))
             | None =>
                 if existsb (String.eqb key) Object_prototype_keys
                 then Ok (Some (InheritedProperty key))
                 else Throw (Error (invalid_month_message s))
             end = Ok (Some (MonthNumber n)) ->
             1 <= n <= 12 /\ lookup_month key month_names 1 = Some n).
  { intros key. destruct (lookup_month key month_names 1) as [m|] eqn:L.
    - intros H. inversion H; subst. split; [|reflexivity].
      rewrite <- monthMap_is_names_and_abbreviations in L.
      apply (own_property_range key n L).
    - destruct (existsb _ _); discriminate. }
  destruct (JS.parseInt s) as [k|].
  - destruct ((1 <=? k) && (k <=? 12))%bool eqn:R.
    + intros H. inversion H; subst. apply andb_prop in R. destruct R as [R1 R2].
      split; [lia | left; reflexivity].
    + intros H. destruct (N _ H) as [Hr Hl]. split; [exact Hr | right; exact Hl].
  - intros H. destruct (N _ H) as [Hr Hl]. split; [exact Hr | right; exact Hl].
Qed.

(** C9 (as the code has it).  The program resolves a month as
    [month_resolution_as_built] says: an input whose leading integer, read
    as parseInt reads it, lies in 1-12 resolves to that number whatever
    follows the digits; any other input is lower-cased, trimmed and looked
    up among the full names and three-letter abbreviations; a key inherited
    from Object.prototype passes without an error; every remaining input is
    an error naming the input.  Every input the specification resolves is
    resolved to the same number, every error of the program is an error of
    the specification, every number returned lies in 1-12, and "Aug" and
    "August" give 8 while "13" is an error. *)
Theorem month_resolution_by_leading_integer_or_name :
  (forall s : string, monthCoercion (Some s) = month_resolution_as_built s)
  /\ (forall (s : string) (n : Z),
      monthOf_spec s = Resolved n ->
      monthCoercion (Some s) = Ok (Some (MonthNumber n)))
  /\ (forall (s : string) (e : Exception),
      monthCoercion (Some s) = Throw e ->
      e = Error (invalid_month_message s) /\ monthOf_spec s = InvalidMonth s)
  /\ (forall (s : string) (n : Z),
      monthCoercion (Some s) = Ok (Some (MonthNumber n)) ->
      1 <= n <= 12
      /\ (JS.parseInt s = Some n
          \/ lookup_month (JS.trim (JS.toLowerCase s)) month_names 1 = Some n))
  /\ monthCoercion (Some "Aug"%string) = Ok (Some (MonthNumber 8))
  /\ monthCoercion (Some "August"%string) = Ok (Some (MonthNumber 8))
  /\ monthCoercion (Some "13"%string) = Throw (Error "Invalid month: '13'.").
Proof.
  split; [exact monthCoercion_as_built|].
  split; [exact spec_resolution_preserved|].
  split; [exact monthCoercion_error|].
  split; [exact monthCoercion_number|].
  repeat split.
Qed.

Lemma month_resolution_by_leading_integer_or_name_witness :
  monthCoercion (Some "SEPTEMBER"%string) = Ok (Some (MonthNumber 9))
  /\ monthOf_spec "13" = InvalidMonth "13"
  /\ (1 <= 12 <= 12
      /\ (JS.parseInt "12abc" = Some 12
          \/ lookup_month (JS.trim (JS.toLowerCase "12abc")) month_names 1
             = Some 12)).
Proof.
  split; [|split].
  - apply (proj1 (proj2 month_resolution_by_leading_integer_or_name)
             "SEPTEMBER"%string 9).
    reflexivity.
  - apply (proj1 (proj2 (proj2 month_resolution_by_leading_integer_or_name))
             "13"%string (Error "Invalid month: '13'.")).
    reflexivity.
  - apply (proj1 (proj2 (proj2 (proj2
             month_resolution_by_leading_integer_or_name)))
             "12abc"%string 12).
    reflexivity.
Defined.

(** C9 as stated fails: "12abc" is neither a numeric string nor a month
    name, so the specification makes it an error, yet the program resolves
    it to 12. *)
Lemma month_12abc_is_resolved : ~ month_resolution_agrees "12abc".
Proof. unfold month_resolution_agrees. vm_compute. discriminate. Qed.


(** * Further properties of the store and its history *)

(** ** Well-formed stores *)

Lemma Forall_push_capped (P : HistoryEntry -> Prop) (s : list HistoryEntry)
    (e : HistoryEntry) :
  Forall P s -> P e -> Forall P (push_capped s e).
Proof.
  intros Hs He. rewrite push_capped_eq. apply Forall_app. split.
  - destruct (Nat.leb MAX_UNDO_REDO_STATES (length s)); [|exact Hs].
    destruct s; [constructor | inversion Hs; assumption].
  - constructor; [exact He | constructor].
Qed.

Lemma find_holds {A : Type} (p : A -> bool) (l : list A) (x : A) :
  find p l = Some x -> p x = true.
Proof. intros H. apply find_some in H. apply H. Qed.

Lemma edit_fields_frame (w : World) (argv : EditArgv) (x e : Instruction)
    (changed : bool) :
  edit_fields w argv x = Some (e, changed) ->
  id e = id x /\ added e = added x
  /\ isDeleted e = isDeleted x /\ deletedAt e = deletedAt x.
Proof.
  unfold edit_fields, assign_if_truthy.
  repeat match goal with
         | |- context [match ?o with Some _ => _ | None => _ end] =>
             lazymatch o with
             | context [match _ with _ => _ end] => fail
             | _ => destruct o; simpl
             end
         | |- context [if ?b then _ else _] =>
             lazymatch b with
             | context [match _ with _ => _ end] => fail
             | _ => destruct b; simpl
             end
         end;
    intros H; inversion H; subst; repeat split; reflexivity.
Qed.

(** What the handlers addressed to one id do to the list of records: nothing,
    or they replace one record that carries this id by a record with the
    same id and creation time, whose deletion flag and time stay
    consistent. *)
Lemma targeted_update (w : World) (c : Command) (st : State) (i : Z) :
  target_id c = Some i ->
  instructions (snd (exec w c st)) = instructions st
  \/ exists k x y,
      nth_error (instructions st) k = Some x
      /\ id x = i
      /\ instructions (snd (exec w c st)) = JS.set_at k y (instructions st)
      /\ id y = id x /\ added y = added x
      /\ (record_ok x -> record_ok y).
Proof.
  intros Ht. destruct c; try discriminate Ht; simpl in Ht;
    injection Ht as Hi; subst i; simpl exec.
  - unfold edit_handler, loadInstructions.
    pose proof (findIndex_find (fun r => id r =? edit_id argv) (instructions st)) as F.
    destruct (JS.findIndex _ _) as [k|]; [|left; reflexivity].
    destruct F as [x [Hn Hf]]. rewrite Hn.
    destruct (isDeleted x); [left; reflexivity|].
    destruct (edit_fields w argv x) as [[e changed]|] eqn:Ef; [|left; reflexivity].
    destruct changed; [|left; reflexivity].
    right. exists k, x, e.
    destruct (edit_fields_frame w argv x e true Ef) as [E1 [E2 [E3 E4]]].
    apply find_holds in Hf. apply Z.eqb_eq in Hf.
    split; [exact Hn|]. split; [exact Hf|]. split; [reflexivity|].
    split; [exact E1|]. split; [exact E2|].
    unfold record_ok. rewrite E3, E4. intros R. exact R.
  - unfold mark_handler, loadInstructions.
    pose proof (findIndex_find (fun r => id r =? argv_id) (instructions st)) as F.
    destruct (JS.findIndex _ _) as [k|]; [|left; reflexivity].
    destruct F as [x [Hn Hf]]. rewrite Hn.
    destruct (isDeleted x); [left; reflexivity|].
    destruct (String.eqb (status x) argv_status); [left; reflexivity|].
    right. exists k, x, (set_status argv_status x).
    apply find_holds in Hf. apply Z.eqb_eq in Hf.
    split; [exact Hn|]. split; [exact Hf|]. split; [reflexivity|].
    split; [reflexivity|]. split; [reflexivity|].
    intros R. exact R.
  - unfold delete_handler, loadInstructions.
    pose proof (findIndex_find
                  (fun r => (id r =? argv_id) && negb (isDeleted r))%bool
                  (instructions st)) as F.
    destruct (JS.findIndex _ _) as [k|]; [|left; reflexivity].
    destruct F as [x [Hn Hf]]. rewrite Hn.
    destruct (prompt_answer w); [|left; reflexivity].
    right. exists k, x, (set_deleted true (Some (Date_now w)) x).
    apply find_holds in Hf. apply andb_prop in Hf. destruct Hf as [Hf _].
    apply Z.eqb_eq in Hf.
    split; [exact Hn|]. split; [exact Hf|]. split; [reflexivity|].
    split; [reflexivity|]. split; [reflexivity|].
    intros _. unfold record_ok. simpl. split; [discriminate | reflexivity].
  - unfold recover_handler, loadInstructions.
    pose proof (findIndex_find (fun r => id r =? argv_id) (instructions st)) as F.
    destruct (JS.findIndex _ _) as [k|]; [|left; reflexivity].
    destruct F as [x [Hn Hf]]. rewrite Hn.
    destruct (negb (isDeleted x)); [left; reflexivity|].
    right. exists k, x, (set_deleted false None x).
    apply find_holds in Hf. apply Z.eqb_eq in Hf.
    split; [exact Hn|]. split; [exact Hf|]. split; [reflexivity|].
    split; [reflexivity|]. split; [reflexivity|].
    intros _. unfold record_ok. simpl.
    split; [discriminate | intros H; contradiction H; reflexivity].
Qed.

Lemma set_at_Forall {A : Type} (P : A -> Prop) (l : list A) (k : nat) (y : A) :
  Forall P l -> P y -> Forall P (JS.set_at k y l).
Proof.
  revert k. induction l as [|z l IH]; intros [|k] Hl Hy; simpl;
    try constructor; inversion Hl; subst; auto.
Qed.

Lemma nth_error_Forall {A : Type} (P : A -> Prop) (l : list A) (k : nat) (x : A) :
  Forall P l -> nth_error l k = Some x -> P x.
Proof.
  intros Hl Hn. rewrite Forall_forall in Hl. apply Hl.
  eapply nth_error_In, Hn.
Qed.

Lemma add_handler_store (w : World) (argv : AddArgv) (st : State) :
  instructions (snd (add_handler w argv st)) = instructions st
  \/ exists d,
      instructions (snd (add_handler w argv st)) =
      instructions st
      ++ [mkInstruction (newId (instructions st)) (add_source argv)
            (add_instruction argv) (Date_now w) (add_priority argv) d
            "pending" false None].
Proof.
  unfold add_handler.
  destruct (JS.truthy_str (add_deadline argv)), (add_deadline argv) as [s|];
    simpl; try destruct (chrono_parseDate w s); simpl;
    first [left; reflexivity | right; eexists; reflexivity].
Qed.

Lemma NoDup_snoc (l : list Z) (x : Z) :
  NoDup l -> ~ In x l -> NoDup (l ++ [x]).
Proof.
  intros Hl Hx. induction l as [|y l IH]; simpl.
  - constructor; [intros [] | constructor].
  - inversion Hl; subst. constructor.
    + rewrite in_app_iff. intros [H|[H|[]]]; [contradiction|].
      subst. apply Hx. left; reflexivity.
    + apply IH; [assumption|]. intros H. apply Hx. right; exact H.
Qed.

(** The store a command leaves has the property [P] when the store and
    every snapshot had it, the empty store has it, and it is kept both by
    the replacement of a record by one of the same id and by the addition
    of a fresh record named by [newId]. *)
Lemma exec_store (P : list Instruction -> Prop) (w : World) (c : Command)
    (st : State) :
  P (instructions st) ->
  Forall (fun e => P (data e)) (undoStack st) ->
  Forall (fun e => P (data e)) (redoStack st) ->
  P [] ->
  (forall k x y,
      nth_error (instructions st) k = Some x -> id y = id x ->
      (record_ok x -> record_ok y) ->
      P (JS.set_at k y (instructions st))) ->
  (forall r,
      id r = newId (instructions st) -> isDeleted r = false ->
      deletedAt r = None ->
      P (instructions st ++ [r])) ->
  P (instructions (snd (exec w c st))).
Proof.
  intros Hs Hu Hr Hnil Hset Hadd.
  destruct (target_id c) as [i|] eqn:Ht.
  - destruct (targeted_update w c st i Ht)
      as [E|[k [x [y [Hn [_ [E [Hid [_ Hok]]]]]]]]]; rewrite E.
    + exact Hs.
    + apply (Hset k x y Hn Hid Hok).
  - destruct c; try discriminate Ht; simpl exec.
    + destruct (add_handler_store w argv st) as [E|[d E]]; rewrite E.
      * exact Hs.
      * apply Hadd; reflexivity.
    + unfold reset_handler. destruct (prompt_answer w); simpl; assumption.
    + destruct (undo_handler_state w st) as [E|E]; rewrite E; [exact Hs|].
      destruct (popFromUndoStack_state st) as [E'|[rest [e [Hst E']]]];
        rewrite E'; [exact Hs|].
      simpl. rewrite Hst in Hu.
      apply Forall_app in Hu. destruct Hu as [_ Hu]. inversion Hu; assumption.
    + destruct (redo_handler_state w st) as [E|E]; rewrite E; [exact Hs|].
      destruct (popFromRedoStack_state st) as [E'|[rest [e [Hst E']]]];
        rewrite E'; [exact Hs|].
      simpl. rewrite Hst in Hr.
      apply Forall_app in Hr. destruct Hr as [_ Hr]. inversion Hr; assumption.
    + destruct (query_handlers_read_only w argv st) as [[E _] _].
      rewrite E. exact Hs.
    + destruct (query_handlers_read_only w argv st) as [_ [E _]].
      rewrite E. exact Hs.
Qed.

(** The snapshots a command leaves on the two stacks are snapshots that
    were there, or the store as it was. *)
Lemma exec_history (P : list Instruction -> Prop) (w : World) (c : Command)
    (st : State) :
  P (instructions st) ->
  Forall (fun e => P (data e)) (undoStack st) ->
  Forall (fun e => P (data e)) (redoStack st) ->
  Forall (fun e => P (data e)) (undoStack (snd (exec w c st)))
  /\ Forall (fun e => P (data e)) (redoStack (snd (exec w c st))).
Proof.
  intros Hs Hu Hr.
  destruct (mutating c) eqn:Hm.
  - destruct (mutating_history w c st Hm) as [E|[E1 E2]].
    + rewrite E. split; assumption.
    + rewrite E1, E2. split; [|constructor].
      apply Forall_push_capped; [exact Hu | exact Hs].
  - destruct c; try discriminate Hm; simpl exec.
    + destruct (undo_handler_state w st) as [E|E]; rewrite E;
        [split; assumption|].
      destruct (popFromUndoStack_state st) as [E'|[rest [e [Hst E']]]];
        rewrite E'; [split; assumption|].
      simpl. rewrite Hst in Hu.
      apply Forall_app in Hu. destruct Hu as [Hu _].
      split; [exact Hu|]. apply Forall_push_capped; [exact Hr | exact Hs].
    + destruct (redo_handler_state w st) as [E|E]; rewrite E;
        [split; assumption|].
      destruct (popFromRedoStack_state st) as [E'|[rest [e [Hst E']]]];
        rewrite E'; [split; assumption|].
      simpl. rewrite Hst in Hr.
      apply Forall_app in Hr. destruct Hr as [Hr _].
      split; [|exact Hr]. apply Forall_push_capped; [exact Hu | exact Hs].
    + destruct (query_handlers_read_only w argv st) as [[E _] _].
      rewrite E. split; assumption.
    + destruct (query_handlers_read_only w argv st) as [_ [E _]].
      rewrite E. split; assumption.
Qed.

Lemma exec_store_ok (w : World) (c : Command) (st : State) :
  state_ok st -> Forall safe_integer (map id (instructions st)) ->
  store_ok (instructions (snd (exec w c st))).
Proof.
  intros [[Hnd Hrec] [Hu Hr]] Hsafe.
  apply (exec_store store_ok w c st); try assumption.
  - split; assumption.
  - split; constructor.
  - intros k x y Hn Hid Hok. split.
    + rewrite (set_at_same_id _ _ x y Hn Hid). exact Hnd.
    + apply set_at_Forall; [exact Hrec|].
      apply Hok. apply (nth_error_Forall _ _ _ _ Hrec Hn).
  - intros r Hid Hdel Hat. split.
    + rewrite map_app. simpl. rewrite Hid. apply NoDup_snoc; [exact Hnd|].
      intros Hin. pose proof (newId_above (instructions st) Hsafe) as A.
      rewrite Forall_forall in A. specialize (A _ Hin). lia.
    + apply Forall_app. split; [exact Hrec|].
      constructor; [|constructor]. unfold record_ok. rewrite Hdel, Hat.
      split; [discriminate | intros H; contradiction H; reflexivity].
Qed.

Lemma exec_state_ok (w : World) (c : Command) (st : State) :
  state_ok st -> Forall safe_integer (map id (instructions st)) ->
  state_ok (snd (exec w c st)).
Proof.
  intros H Hsafe. split; [apply exec_store_ok; assumption|].
  destruct H as [Hs [Hu Hr]].
  apply (exec_history store_ok); assumption.
Qed.

Lemma ids_below_mono (B C : Z) (l : list Instruction) :
  B <= C -> ids_below B l -> ids_below C l.
Proof.
  intros H Hl. eapply Forall_impl; [|exact Hl]. cbv beta. intros; lia.
Qed.

(** A command raises the bound on the ids by one at most. *)
Lemma exec_ids_below (w : World) (c : Command) (st : State) (B : Z) :
  1 <= B < 2 ^ 53 ->
  all_ids_below B st -> all_ids_below (B + 1) (snd (exec w c st)).
Proof.
  intros HB [Hs [Hu Hr]].
  assert (Hs' : ids_below (B + 1) (instructions st))
    by (apply (ids_below_mono B); [lia | exact Hs]).
  assert (Hu' : Forall (fun e => ids_below (B + 1) (data e)) (undoStack st)).
  { eapply Forall_impl; [|exact Hu]. cbv beta. intros e.
    apply ids_below_mono. lia. }
  assert (Hr' : Forall (fun e => ids_below (B + 1) (data e)) (redoStack st)).
  { eapply Forall_impl; [|exact Hr]. cbv beta. intros e.
    apply ids_below_mono. lia. }
  split; [|apply (exec_history (ids_below (B + 1))); assumption].
  apply (exec_store (ids_below (B + 1)) w c st); try assumption.
  - constructor.
  - intros k x y Hn Hid _. unfold ids_below.
    rewrite (set_at_same_id _ _ x y Hn Hid). exact Hs'.
  - intros r Hid _ _. unfold ids_below. rewrite map_app. apply Forall_app.
    split; [exact Hs'|]. constructor; [|constructor]. rewrite Hid.
    apply newId_bound; assumption.
Qed.

Lemma run_state_ok (script : list (World * Command)) :
  forall (st : State) (B : Z),
    1 <= B -> B + Z.of_nat (length script) <= 2 ^ 53 ->
    state_ok st -> all_ids_below B st ->
    state_ok (snd (run script st)).
Proof.
  induction script as [|[w c] script IH]; intros st B H1 H2 Hok Hb.
  - exact Hok.
  - rewrite run_cons. simpl snd. cbn [length] in H2.
    apply (IH _ (B + 1)); [lia | lia | |].
    + apply exec_state_ok; [exact Hok|].
      destruct Hb as [Hb _]. eapply Forall_impl; [|exact Hb].
      unfold safe_integer. cbv beta. intros; lia.
    + apply exec_ids_below; [lia | exact Hb].
Qed.

(** X1.  In a session of fewer than [2 ^ 53] commands run from the empty
    files, with whatever answers, clock and deadline parser, the ids of the
    store are pairwise distinct and every record is soft-deleted exactly
    when it has a deletion time; the same holds of every snapshot on the
    undo and redo stacks.  More generally every command keeps these facts
    once they hold, on a store whose ids are safe integers. *)
Theorem sessions_keep_the_store_well_formed :
  (forall script : list (World * Command),
      Z.of_nat (length script) < 2 ^ 53 ->
      state_ok (snd (run script initial_state)))
  /\ (forall (w : World) (c : Command) (st : State),
      state_ok st ->
      Forall safe_integer (map id (instructions st)) ->
      state_ok (snd (exec w c st))).
Proof.
  split.
  - intros script H. apply (run_state_ok script initial_state 1).
    + lia.
    + lia.
    + repeat split; constructor.
    + repeat split; constructor.
  - exact exec_state_ok.
Qed.

Lemma sessions_keep_the_store_well_formed_witness :
  state_ok (snd (run sample_session initial_state))
  /\ state_ok (snd (exec sample_world (Delete 1) (mkState [record_1] [] []))).
Proof.
  split.
  - apply (proj1 sessions_keep_the_store_well_formed). reflexivity.
  - apply (proj2 sessions_keep_the_store_well_formed).
    + repeat split; try constructor; try constructor; simpl; try tauto;
        try discriminate; try (intros H; contradiction H; reflexivity).
    + repeat constructor.
Defined.

(** ** Commands addressed to one record *)

Lemma set_at_length {A : Type} (l : list A) (k : nat) (y : A) :
  length (JS.set_at k y l) = length l.
Proof.
  revert k. induction l as [|z l IH]; intros [|k]; simpl; auto.
Qed.

Lemma set_at_other {A : Type} (l : list A) (k j : nat) (y : A) :
  j <> k -> nth_error (JS.set_at k y l) j = nth_error l j.
Proof.
  revert k j. induction l as [|z l IH]; intros [|k] [|j] H; simpl; auto.
  - contradiction H; reflexivity.
Qed.

Lemma set_at_same {A : Type} (l : list A) (k : nat) (x y : A) :
  nth_error l k = Some x -> nth_error (JS.set_at k y l) k = Some y.
Proof.
  revert k. induction l as [|z l IH]; intros [|k] H; simpl in *;
    try discriminate; auto.
Qed.

Lemma set_at_twice {A : Type} (l : list A) (k : nat) (x y : A) :
  JS.set_at k x (JS.set_at k y l) = JS.set_at k x l.
Proof.
  revert k. induction l as [|z l IH]; intros [|k]; simpl; auto.
  rewrite IH. reflexivity.
Qed.

Lemma Forall2_same {A : Type} (R : A -> A -> Prop) (l : list A) :
  (forall a, R a a) -> Forall2 R l l.
Proof. intros H. induction l; constructor; auto. Qed.

Lemma set_at_Forall2 {A : Type} (R : A -> A -> Prop) (l : list A) (k : nat)
    (x y : A) :
  (forall a, R a a) -> nth_error l k = Some x -> R x y ->
  Forall2 R l (JS.set_at k y l).
Proof.
  intros Hrefl. revert k. induction l as [|z l IH]; intros [|k] Hn Hxy;
    simpl in *; try discriminate.
  - inversion Hn; subst. constructor; [exact Hxy|].
    apply Forall2_same, Hrefl.
  - constructor; [apply Hrefl | apply IH; assumption].
Qed.

(** X2.  A command addressed to an id (edit, mark, delete, recover) never
    adds, removes or reorders records, never changes the id or the creation
    time of any record, changes at most one position of the store, and never
    touches a record that carries another id. *)
Theorem addressed_commands_touch_one_record :
  forall (w : World) (c : Command) (st : State) (i : Z),
    target_id c = Some i ->
    length (instructions (snd (exec w c st))) = length (instructions st)
    /\ Forall2 (fun a b => id a = id b /\ added a = added b)
         (instructions st) (instructions (snd (exec w c st)))
    /\ (exists k, forall j, j <> k ->
          nth_error (instructions (snd (exec w c st))) j
          = nth_error (instructions st) j)
    /\ (forall j r, nth_error (instructions st) j = Some r -> id r <> i ->
          nth_error (instructions (snd (exec w c st))) j = Some r).
Proof.
  intros w c st i Ht.
  destruct (targeted_update w c st i Ht)
    as [E|[k [x [y [Hn [Hx [E [Hid [Hadd _]]]]]]]]]; rewrite E.
  - split; [reflexivity|]. split; [apply Forall2_same; auto|].
    split; [exists O; reflexivity|]. intros j r Hr _. exact Hr.
  - split; [apply set_at_length|]. split.
    + apply (set_at_Forall2 _ _ _ x); auto.
    + split.
      * exists k. intros j Hj. apply set_at_other, Hj.
      * intros j r Hr Hne. rewrite set_at_other; [exact Hr|].
        intros ->. rewrite Hn in Hr. inversion Hr; subst. contradiction.
Qed.

Lemma addressed_commands_touch_one_record_witness :
  length (instructions
            (snd (exec sample_world (Mark 2 "paused") (mkState [record_1; record_2] [] []))))
  = 2%nat
  /\ nth_error
       (instructions
          (snd (exec sample_world (Mark 2 "paused")
                  (mkState [record_1; record_2] [] [])))) 0
     = Some record_1.
Proof.
  pose proof (addressed_commands_touch_one_record sample_world
                (Mark 2 "paused") (mkState [record_1; record_2] [] []) 2
                eq_refl) as [H1 [_ [_ H4]]].
  split; [exact H1|].
  apply (H4 0%nat record_1); [reflexivity | discriminate].
Defined.

Lemma findIndex_unique (l : list Instruction) (k : nat) (y : Instruction) :
  NoDup (map id l) -> nth_error l k = Some y ->
  JS.findIndex (fun r => id r =? id y) l = Some k.
Proof.
  revert k. induction l as [|z l IH]; intros [|k] Hnd Hn; simpl in *;
    try discriminate.
  - inversion Hn; subst. rewrite Z.eqb_refl. reflexivity.
  - inversion Hnd as [|? ? Hz Hl]; subst.
    destruct (Z.eqb_spec (id z) (id y)) as [E|E].
    + exfalso. apply Hz. rewrite E. apply in_map. eapply nth_error_In, Hn.
    + rewrite (IH k Hl Hn). reflexivity.
Qed.

(** X3.  On a well-formed store, deleting an active record (with the prompt
    confirmed) and then recovering it gives back exactly the store as it
    was: the record returns with its deletion time cleared and no other
    record has changed. *)
Theorem delete_then_recover_restores_the_store :
  forall (w : World) (i : Z) (st : State) (r : Instruction),
    prompt_answer w = true ->
    store_ok (instructions st) ->
    find_active i (instructions st) = Some r ->
    fst (delete_handler w i st) = InstructionDeleted i
    /\ fst (recover_handler i (snd (delete_handler w i st)))
       = InstructionRecovered i
    /\ instructions (snd (recover_handler i (snd (delete_handler w i st))))
       = instructions st.
Proof.
  intros w i st r Hy [Hnd Hrec] Hf.
  pose proof (findIndex_find
                (fun r => (id r =? i) && negb (isDeleted r))%bool
                (instructions st)) as F.
  unfold find_active in Hf. unfold delete_handler, loadInstructions.
  destruct (JS.findIndex _ _) as [k|]; [|congruence].
  destruct F as [x [Hn Hx]]. rewrite Hf in Hx. inversion Hx; subst x. clear Hx.
  rewrite Hn, Hy. simpl fst. split; [reflexivity|].
  apply find_holds in Hf. apply andb_prop in Hf. destruct Hf as [Hid Hact].
  apply Z.eqb_eq in Hid. apply negb_true_iff in Hact.
  set (y := set_deleted true (Some (Date_now w)) r).
  set (l1 := JS.set_at k y (instructions st)).
  assert (Hn1 : nth_error l1 k = Some y) by (apply (set_at_same _ _ r), Hn).
  assert (Hnd1 : NoDup (map id l1)).
  { unfold l1. rewrite (set_at_same_id _ _ r y Hn eq_refl). exact Hnd. }
  pose proof (findIndex_unique l1 k y Hnd1 Hn1) as Hk.
  change (id y) with (id r) in Hk. rewrite Hid in Hk.
  unfold recover_handler, loadInstructions. simpl instructions.
  fold l1. rewrite Hk, Hn1. simpl. split; [reflexivity|].
  unfold l1. rewrite set_at_twice. apply set_at_nothing.
  rewrite Hn. f_equal.
  assert (Hd : deletedAt r = None).
  { pose proof (nth_error_Forall _ _ _ _ Hrec Hn) as [_ R].
    destruct (deletedAt r); [|reflexivity].
    rewrite R in Hact by discriminate. discriminate. }
  destruct r; simpl in *. subst. reflexivity.
Qed.

Lemma delete_then_recover_restores_the_store_witness :
  instructions
    (snd (recover_handler 2
            (snd (delete_handler sample_world 2
                    (mkState [record_1; record_2] [] [])))))
  = [record_1; record_2].
Proof.
  apply (delete_then_recover_restores_the_store sample_world 2
           (mkState [record_1; record_2] [] []) record_2).
  - reflexivity.
  - split.
    + simpl. repeat constructor; simpl; intuition discriminate.
    + repeat constructor; simpl; try discriminate;
        intros H; contradiction H; reflexivity.
  - reflexivity.
Defined.

(** ** Undoing and redoing several steps *)

Lemma entry_eta (e : HistoryEntry) : mkEntry (command e) (data e) = e.
Proof. destruct e; reflexivity. Qed.

Lemma lastn_app_short {A : Type} (n : nat) (l m : list A) :
  (length m <= n)%nat -> lastn n (l ++ m) = lastn (n - length m) l ++ m.
Proof.
  intros H. unfold lastn. rewrite length_app, skipn_app.
  replace (length l + length m - n - length l)%nat with O by lia.
  replace (length l - (n - length m))%nat with (length l + length m - n)%nat
    by lia.
  reflexivity.
Qed.

Lemma undo_handler_step (w : World) (st : State) (u : list HistoryEntry)
    (e : HistoryEntry) :
  prompt_answer w = true ->
  undoStack st = u ++ [e] ->
  (length (redoStack st) < MAX_UNDO_REDO_STATES)%nat ->
  snd (undo_handler w st) =
  mkState (data e) u
    (redoStack st ++ [mkEntry (command e) (instructions st)]).
Proof.
  intros Hy Hu Hr. rewrite (undo_handler_pops w st u e Hy Hu).
  simpl. rewrite push_capped_room by exact Hr. reflexivity.
Qed.

Lemma redo_handler_step (w : World) (st : State) (r : list HistoryEntry)
    (e : HistoryEntry) :
  prompt_answer w = true ->
  redoStack st = r ++ [e] ->
  (length (undoStack st) < MAX_UNDO_REDO_STATES)%nat ->
  snd (redo_handler w st) =
  mkState (data e)
    (undoStack st ++ [mkEntry (command e) (instructions st)]) r.
Proof.
  intros Hy Hr Hu. rewrite (redo_handler_pops w st r e Hy Hr).
  simpl. rewrite push_capped_room by exact Hu. reflexivity.
Qed.

Lemma last_split {A : Type} (l : list A) :
  (0 < length l)%nat -> exists u e, l = u ++ [e].
Proof.
  intros H. destruct (exists_last (l := l)) as [u [e E]].
  - intros ->. simpl in H. lia.
  - exists u, e. exact E.
Qed.

(** As many redos as undos bring the whole persisted state back, as long as
    the redo stack has room for them. *)
Lemma redo_times_undo_times (wu wr : World) (k : nat) :
  prompt_answer wu = true -> prompt_answer wr = true ->
  forall st,
    (k <= length (undoStack st))%nat ->
    (length (undoStack st) <= MAX_UNDO_REDO_STATES)%nat ->
    (length (redoStack st) + k <= MAX_UNDO_REDO_STATES)%nat ->
    redo_times wr k (undo_times wu k st) = st.
Proof.
  intros Hu Hr. induction k as [|k IH]; intros st Hk Hcap Hroom.
  - reflexivity.
  - destruct (last_split (undoStack st)) as [u [e E]]; [lia|].
    assert (Hlen : length (undoStack st) = S (length u)).
    { rewrite E, length_app. simpl. lia. }
    unfold MAX_UNDO_REDO_STATES in *.
    pose proof (undo_handler_step wu st u e Hu E ltac:(unfold MAX_UNDO_REDO_STATES; lia)) as S1.
    simpl undo_times. simpl redo_times. rewrite S1.
    set (st1 := mkState (data e) u
                  (redoStack st ++ [mkEntry (command e) (instructions st)])).
    rewrite (IH st1); simpl; rewrite ?length_app; simpl; try lia.
    rewrite (redo_handler_step wr st1 (redoStack st)
               (mkEntry (command e) (instructions st)) Hr eq_refl);
      [|simpl; unfold MAX_UNDO_REDO_STATES; lia].
    simpl. rewrite entry_eta, <- E. apply state_eta.
Qed.

(** Undoing as many times as there are entries above [u] on the undo stack
    restores the snapshot of the lowest of them and leaves [u]. *)
Lemma undo_times_store (w : World) (k : nat) :
  prompt_answer w = true ->
  forall (st : State) (u es : list HistoryEntry) (e0 : HistoryEntry),
    undoStack st = u ++ e0 :: es ->
    length es = k ->
    (length (redoStack st) + S k <= MAX_UNDO_REDO_STATES)%nat ->
    instructions (undo_times w (S k) st) = data e0
    /\ undoStack (undo_times w (S k) st) = u.
Proof.
  intros Hy. unfold MAX_UNDO_REDO_STATES.
  induction k as [|k IH]; intros st u es e0 Hu Hlen Hroom.
  - destruct es; [|discriminate Hlen].
    simpl undo_times.
    rewrite (undo_handler_step w st u e0 Hy Hu
               ltac:(unfold MAX_UNDO_REDO_STATES; lia)).
    split; reflexivity.
  - destruct (last_split es) as [es' [el E]]; [lia|]. subst es.
    rewrite length_app in Hlen. simpl in Hlen.
    assert (Hu' : undoStack st = (u ++ e0 :: es') ++ [el]).
    { rewrite Hu, <- app_assoc. reflexivity. }
    change (undo_times w (S (S k)) st)
      with (undo_times w (S k) (snd (undo_handler w st))).
    rewrite (undo_handler_step w st _ el Hy Hu'
               ltac:(unfold MAX_UNDO_REDO_STATES; lia)).
    apply (IH _ u es' e0); simpl; rewrite ?length_app; simpl; try lia.
    reflexivity.
Qed.

Lemma run_applied_redoStack (script : list (World * Command)) :
  forall st,
    script <> [] ->
    all_applied script st = true ->
    redoStack (snd (run script st)) = [].
Proof.
  induction script as [|[w c] script IH]; intros st Hne Happ;
    [contradiction|].
  simpl in Happ. apply andb_prop in Happ. destruct Happ as [Happ Hrest].
  apply andb_prop in Happ. destruct Happ as [Hm Ha].
  rewrite run_cons. simpl snd. destruct script as [|x script'].
  - simpl. apply (applied_mutation_history w c st Hm Ha).
  - apply IH; [discriminate | exact Hrest].
Qed.

Lemma snapshots_head (script : list (World * Command)) (st : State) :
  script <> [] ->
  exists e0 es, snapshots script st = e0 :: es
                /\ data e0 = instructions st
                /\ S (length es) = length script.
Proof.
  destruct script as [|[w c] script]; intros H; [contradiction|].
  simpl. eexists. eexists. split; [reflexivity|]. split; [reflexivity|].
  rewrite snapshots_length. reflexivity.
Qed.

(** X4.  After up to ten applied mutating commands in a row, undoing as many
    times as there were commands restores the records as they were before
    the first of them, and redoing as many times again restores the whole
    persisted state, records and both stacks, as it was after the last. *)
Theorem undo_all_then_redo_all :
  forall (wu wr : World) (script : list (World * Command)) (st : State),
    prompt_answer wu = true -> prompt_answer wr = true ->
    within_capacity st ->
    all_applied script st = true ->
    (1 <= length script <= 10)%nat ->
    let final := snd (run script st) in
    let k := length script in
    instructions (undo_times wu k final) = instructions st
    /\ redo_times wr k (undo_times wu k final) = final.
Proof.
  intros wu wr script st Hu Hr Hcap Happ Hlen final k.
  assert (Hne : script <> []) by (intros ->; simpl in Hlen; lia).
  pose proof (run_applied_undoStack script st (proj1 Hcap) Happ) as Hundo.
  pose proof (run_applied_redoStack script st Hne Happ) as Hredo.
  pose proof (run_within_capacity script st Hcap) as [Hcap' _].
  fold final in Hundo, Hredo, Hcap'.
  destruct (snapshots_head script st Hne) as [e0 [es [Hs [Hd Hl]]]].
  rewrite lastn_app_short in Hundo
    by (rewrite snapshots_length; unfold MAX_UNDO_REDO_STATES; lia).
  rewrite Hs in Hundo.
  split.
  - unfold k. rewrite <- Hl.
    destruct (undo_times_store wu (length es) Hu final _ es e0 Hundo eq_refl)
      as [E _].
    + rewrite Hredo. simpl. unfold MAX_UNDO_REDO_STATES. lia.
    + rewrite E. exact Hd.
  - apply redo_times_undo_times; try assumption.
    + rewrite Hundo, length_app. simpl. unfold k. lia.
    + rewrite Hredo. simpl. unfold k, MAX_UNDO_REDO_STATES. lia.
Qed.

Lemma undo_all_then_redo_all_witness :
  instructions
    (undo_times sample_world 3 (snd (run three_edits initial_state)))
  = []
  /\ redo_times sample_world 3
       (undo_times sample_world 3 (snd (run three_edits initial_state)))
     = snd (run three_edits initial_state).
Proof.
  apply (undo_all_then_redo_all sample_world sample_world three_edits
           initial_state); try reflexivity.
  - unfold within_capacity, MAX_UNDO_REDO_STATES. simpl. lia.
  - simpl. lia.
Defined.

(** X5.  Once a mutating command has been applied nothing is left to redo:
    the next redo reports that there is nothing to redo and writes nothing,
    whatever had been undone before that command. *)
Theorem redo_after_a_new_mutation_finds_nothing :
  forall (w wr : World) (c : Command) (st : State),
    mutating c = true ->
    applied (fst (exec w c st)) = true ->
    redo_handler wr (snd (exec w c st)) = (NothingToRedo, snd (exec w c st)).
Proof.
  intros w wr c st Hm Ha.
  destruct (applied_mutation_history w c st Hm Ha) as [_ Hr].
  unfold redo_handler. rewrite Hr. reflexivity.
Qed.

Lemma redo_after_a_new_mutation_finds_nothing_witness :
  redo_handler sample_world
    (snd (exec sample_world (Add buy_milk)
            (mkState [] [] [mkEntry "add" [record_1]])))
  = (NothingToRedo,
     snd (exec sample_world (Add buy_milk)
            (mkState [] [] [mkEntry "add" [record_1]]))).
Proof.
  apply (redo_after_a_new_mutation_finds_nothing sample_world sample_world
           (Add buy_milk) (mkState [] [] [mkEntry "add" [record_1]]));
    reflexivity.
Defined.

(** X6.  Declining the confirmation of delete, reset, undo or redo leaves
    the three files exactly as they were, and the command then reports either
    the cancellation or that there was nothing to act on. *)
Theorem declined_commands_write_nothing :
  forall (w : World) (c : Command) (st : State),
    prompt_answer w = false ->
    asks_confirmation c = true ->
    snd (exec w c st) = st
    /\ (fst (exec w c st) = OperationCancelled
        \/ (exists i, c = Delete i
                      /\ find_active i (instructions st) = None
                      /\ fst (exec w c st) = NotExistOrAlreadyDeleted i)
        \/ (c = Undo /\ undoStack st = []
            /\ fst (exec w c st) = NothingToUndo)
        \/ (c = Redo /\ redoStack st = []
            /\ fst (exec w c st) = NothingToRedo)).
Proof.
  intros w c st Hn Hc. destruct c; try discriminate Hc; simpl exec.
  - unfold delete_handler, find_active, loadInstructions.
    pose proof (findIndex_find
                  (fun r => (id r =? argv_id) && negb (isDeleted r))%bool
                  (instructions st)) as F.
    destruct (JS.findIndex _ _) as [k|].
    + destruct F as [x [Hx _]]. rewrite Hx, Hn. split; [reflexivity|].
      left; reflexivity.
    + split; [reflexivity|]. right. left. exists argv_id.
      split; [reflexivity|]. split; [exact F | reflexivity].
  - unfold reset_handler. rewrite Hn. split; [reflexivity | left; reflexivity].
  - unfold undo_handler. destruct (undoStack st) eqn:E.
    + split; [reflexivity|]. right. right. left. repeat split.
    + rewrite Hn. split; [reflexivity | left; reflexivity].
  - unfold redo_handler. destruct (redoStack st) eqn:E.
    + split; [reflexivity|]. right. right. right. repeat split.
    + rewrite Hn. split; [reflexivity | left; reflexivity].
Qed.

Lemma declined_commands_write_nothing_witness :
  snd (exec sample_world_declining Reset (mkState [record_1] [] []))
  = mkState [record_1] [] [].
Proof.
  apply (declined_commands_write_nothing sample_world_declining Reset
           (mkState [record_1] [] [])); reflexivity.
Defined.

(** * Further properties of the filter engine and of the listing *)

(** ** The order of the listing *)









(** ** What reaches the filter *)





(** ** Including deleted records, and filtering twice *)

Lemma filter_throwing_filter {A : Type} (p : A -> result bool) (q : A -> bool)
    (l out : list A) :
  filter_throwing p l = Ok out ->
  filter_throwing p (filter q l) = Ok (filter q out).
Proof.
  revert out. induction l as [|x l IH]; simpl; intros out H.
  - inversion H. reflexivity.
  - destruct (p x) as [keep|] eqn:Ep; simpl in H; [|discriminate].
    destruct (filter_throwing p l) as [rest|]; simpl in H; [|discriminate].
    inversion H; subst. clear H. specialize (IH rest eq_refl).
    destruct (q x) eqn:Eq; simpl.
    + rewrite Ep, IH. simpl. destruct keep; simpl; rewrite ?Eq; reflexivity.
    + rewrite IH. destruct keep; simpl; rewrite ?Eq; reflexivity.
Qed.

Lemma filter_throwing_kept {A : Type} (p : A -> result bool) (l out : list A) :
  filter_throwing p l = Ok out ->
  Forall (fun x => p x = Ok true /\ In x l) out.
Proof.
  revert out. induction l as [|x l IH]; simpl; intros out H.
  - inversion H. constructor.
  - destruct (p x) as [keep|] eqn:Ep; simpl in H; [|discriminate].
    destruct (filter_throwing p l) as [rest|]; simpl in H; [|discriminate].
    inversion H; subst. clear H. specialize (IH rest eq_refl).
    assert (R : Forall (fun y => p y = Ok true /\ (x = y \/ In y l)) rest).
    { eapply Forall_impl; [|exact IH]. simpl. intros y [H1 H2]. auto. }
    destruct keep; [constructor; auto | exact R].
Qed.

Lemma filter_throwing_all {A : Type} (p : A -> result bool) (l : list A) :
  Forall (fun x => p x = Ok true) l -> filter_throwing p l = Ok l.
Proof.
  induction 1 as [|x l Hx Hl IH]; simpl; [reflexivity|].
  rewrite Hx, IH. reflexivity.
Qed.

Lemma filter_all {A : Type} (p : A -> bool) (l : list A) :
  Forall (fun x => p x = true) l -> filter p l = l.
Proof.
  induction 1 as [|x l Hx Hl IH]; simpl; [reflexivity|].
  rewrite Hx, IH. reflexivity.
Qed.

(** X9.  The flag [--all] only adds soft-deleted records: whenever the
    filter with the flag set returns a list, the filter with the same
    criteria and the flag unset returns exactly the records of that list
    that are not soft-deleted, in the same order. *)
Theorem all_flag_only_adds_deleted_records :
  forall (w : World) (rs out : list Instruction) (f : Filters)
         (unset : option bool),
    JS.truthy_flag unset = false ->
    filterInstructions w rs (with_all (Some true) f) = Ok out ->
    filterInstructions w rs (with_all unset f)
    = Ok (filter (fun r => negb (isDeleted r)) out).
Proof.
  intros w rs out f unset Hu. rewrite !filterInstructions_stages.
  change (hasDateFilter (with_all (Some true) f)) with (hasDateFilter f).
  change (hasDateFilter (with_all unset f)) with (hasDateFilter f).
  change (temporal_predicate w (with_all (Some true) f))
    with (temporal_predicate w f).
  change (temporal_predicate w (with_all unset f))
    with (temporal_predicate w f).
  assert (E : filter (passes_attributes (with_all unset f)) rs
              = filter (fun r => negb (isDeleted r))
                  (filter (passes_attributes (with_all (Some true) f)) rs)).
  { rewrite filter_filter. apply filter_ext_bool. intros r.
    unfold passes_attributes, with_all.
    cbn [f_priority f_source f_status f_deadline f_all].
    rewrite Hu. simpl. rewrite andb_true_r. reflexivity. }
  rewrite E. destruct (hasDateFilter f).
  - apply filter_throwing_filter.
  - intros H. inversion H. reflexivity.
Qed.

Lemma all_flag_only_adds_deleted_records_witness :
  filterInstructions sample_world [scenario_1; scenario_2]
    (with_all None no_filters)
  = Ok (filter (fun r => negb (isDeleted r)) [scenario_1; scenario_2]).
Proof.
  apply (all_flag_only_adds_deleted_records sample_world
           [scenario_1; scenario_2] [scenario_1; scenario_2] no_filters None);
    reflexivity.
Defined.

(** X10.  Filtering is idempotent: filtering the result of the filter once
    more with the same criteria returns that result unchanged. *)
Theorem filtering_twice_changes_nothing :
  forall (w : World) (rs out : list Instruction) (f : Filters),
    filterInstructions w rs f = Ok out ->
    filterInstructions w out f = Ok out.
Proof.
  intros w rs out f. rewrite !filterInstructions_stages.
  destruct (hasDateFilter f).
  - intros H. pose proof (filter_throwing_kept _ _ _ H) as K.
    rewrite filter_all.
    + apply filter_throwing_all. eapply Forall_impl; [|exact K].
      simpl. intros x [Hx _]. exact Hx.
    + eapply Forall_impl; [|exact K]. simpl. intros x [_ Hin].
      apply filter_In in Hin. apply Hin.
  - intros H. inversion H; subst. f_equal.
    apply filter_all. apply Forall_forall. intros x Hin.
    apply filter_In in Hin. apply Hin.
Qed.

Lemma filtering_twice_changes_nothing_witness :
  filterInstructions sample_world [record_2]
    (week_of_month_filter None 1 9) = Ok [record_2].
Proof.
  apply (filtering_twice_changes_nothing sample_world [record_1; record_2]
           [record_2] (week_of_month_filter None 1 9)).
  reflexivity.
Defined.

(** * Properties of the suggestions *)

Lemma costs_set_length (costs : list JsNum) (j : nat) (v : JsNum) :
  (j < length costs)%nat -> length (costs_set costs j v) = length costs.
Proof.
  revert j. induction costs as [|x rest IH]; intros [|j] H; simpl in *;
    try lia; auto.
  rewrite IH; [reflexivity | lia].
Qed.

Lemma costs_set_end (costs : list JsNum) (v : JsNum) :
  costs_set costs (length costs) v = costs ++ [v].
Proof.
  induction costs as [|x rest IH]; simpl; [reflexivity|].
  rewrite IH. reflexivity.
Qed.

Lemma nth_error_costs_set (costs : list JsNum) (j k : nat) (v : JsNum) :
  (j < length costs)%nat ->
  nth_error (costs_set costs j v) k
  = if Nat.eqb k j then Some v else nth_error costs k.
Proof.
  revert j k. induction costs as [|x rest IH]; intros [|j] [|k] H;
    simpl in *; try lia; auto.
  apply IH. lia.
Qed.

Lemma holds_row_get (costs : list JsNum) (f : nat -> nat) (len j : nat) :
  holds_row costs f len -> (j < len)%nat -> costs_get costs j = Some (f j).
Proof.
  intros [_ H] Hj. unfold costs_get. rewrite (H j Hj). reflexivity.
Qed.

Lemma holds_row_set (costs : list JsNum) (f g : nat -> nat) (len k : nat)
    (v : nat) :
  holds_row costs f len -> (k < len)%nat ->
  g k = v -> (forall j, (j < len)%nat -> j <> k -> g j = f j) ->
  holds_row (costs_set costs k (Some v)) g len.
Proof.
  intros [Hl H] Hk Hv Hg. split.
  - rewrite costs_set_length; lia.
  - intros j Hj. rewrite nth_error_costs_set by lia.
    destruct (Nat.eqb j k) eqn:E.
    + apply Nat.eqb_eq in E. subst j. rewrite Hv. reflexivity.
    + apply Nat.eqb_neq in E. rewrite (Hg j Hj E). apply H, Hj.
Qed.

Lemma lev_S_S (s1 s2 : string) (i j : nat) :
  lev s1 s2 (S i) (S j)
  = if same_char (String.get i s1) (String.get j s2)
    then lev s1 s2 i j
    else S (Nat.min (Nat.min (lev s1 s2 i j) (lev s1 s2 (S i) j))
              (lev s1 s2 i (S j))).
Proof. reflexivity. Qed.

Lemma lev_S_0 (s1 s2 : string) (i : nat) : lev s1 s2 (S i) 0 = S i.
Proof. reflexivity. Qed.

Lemma lev_0 (s1 s2 : string) (j : nat) : lev s1 s2 0 j = j.
Proof. reflexivity. Qed.

(** The first pass of the outer loop fills the array with [0 .. k - 1]. *)
Lemma distance_first_row (s1 s2 : string) (lastValue : JsNum) (k : nat) :
  exists costs,
    fold_left (distance_inner s1 s2 0) (seq 0 k) ([], lastValue)
    = (costs, lastValue) /\
    holds_row costs (lev s1 s2 0) k.
Proof.
  induction k as [|k [costs [E [Hl H]]]].
  - exists []. split; [reflexivity|]. split; [reflexivity|]. intros j Hj. lia.
  - exists (costs ++ [Some k]). rewrite seq_S, fold_left_app, E. simpl.
    rewrite <- Hl at 1. rewrite costs_set_end. split; [reflexivity|]. split.
    + rewrite length_app. simpl. lia.
    + intros j Hj. destruct (Nat.eq_dec j k) as [->|Hne].
      * rewrite nth_error_app2 by lia. rewrite Hl, Nat.sub_diag. reflexivity.
      * rewrite nth_error_app1 by lia. apply H. lia.
Qed.

(** A later pass of the outer loop, after the inner loop has handled
    [j = 0 .. k]: the array holds the new row up to [k - 1] and the old row
    from [k] on, and [lastValue] is the new entry for [k]. *)
Lemma distance_later_row (s1 s2 : string) (i : nat) (costs : list JsNum)
    (k : nat) :
  holds_row costs (lev s1 s2 i) (S (String.length s2)) ->
  (k <= String.length s2)%nat ->
  exists costs',
    fold_left (distance_inner s1 s2 (S i)) (seq 0 (S k)) (costs, Some (S i))
    = (costs', Some (lev s1 s2 (S i) k)) /\
    holds_row costs'
      (fun j => if Nat.ltb j k then lev s1 s2 (S i) j else lev s1 s2 i j)
      (S (String.length s2)).
Proof.
  intros Hrow. induction k as [|k IH]; intros Hk.
  - exists costs. split; [reflexivity|]. exact Hrow.
  - destruct IH as [c [E Hc]]; [lia|].
    rewrite seq_S, fold_left_app, E. cbn [fold_left Nat.add].
    unfold distance_inner. change (Nat.eqb (S i) 0) with false.
    change (Nat.ltb 0 (S k)) with true. cbv iota.
    replace (S k - 1)%nat with k by lia.
    replace (S i - 1)%nat with i by lia.
    rewrite (holds_row_get _ _ _ k Hc) by lia.
    rewrite (holds_row_get _ _ _ (S k) Hc) by lia.
    rewrite Nat.ltb_irrefl.
    replace (Nat.ltb (S k) k) with false
      by (symmetry; apply Nat.ltb_ge; lia).
    eexists. split.
    + f_equal. unfold charAt. rewrite lev_S_S.
      destruct (same_char (String.get i s1) (String.get k s2)); reflexivity.
    + apply (holds_row_set c _ _ _ k (lev s1 s2 (S i) k) Hc); [lia | |].
      * rewrite (proj2 (Nat.ltb_lt k (S k))) by lia. reflexivity.
      * intros j Hj Hne.
        destruct (Nat.ltb j (S k)) eqn:E1; destruct (Nat.ltb j k) eqn:E2;
          try reflexivity.
        -- apply Nat.ltb_lt in E1. apply Nat.ltb_ge in E2. lia.
        -- apply Nat.ltb_ge in E1. apply Nat.ltb_lt in E2. lia.
Qed.

Lemma distance_outer_row (s1 s2 : string) (i : nat) (costs : list JsNum) :
  holds_row costs (lev s1 s2 i) (S (String.length s2)) ->
  holds_row (distance_outer s1 s2 costs (S i)) (lev s1 s2 (S i))
    (S (String.length s2)).
Proof.
  intros Hrow. unfold distance_outer.
  destruct (distance_later_row s1 s2 i costs (String.length s2) Hrow
              (le_n _)) as [c [E Hc]].
  rewrite E. change (Nat.ltb 0 (S i)) with true. cbv iota.
  apply (holds_row_set c _ _ _ (String.length s2)
           (lev s1 s2 (S i) (String.length s2)) Hc); [lia | reflexivity |].
  intros j Hj Hne. rewrite (proj2 (Nat.ltb_lt j (String.length s2))) by lia.
  reflexivity.
Qed.

Lemma distance_rows (s1 s2 : string) (k : nat) :
  holds_row (fold_left (distance_outer s1 s2) (seq 0 (S k)) [])
    (lev s1 s2 k) (S (String.length s2)).
Proof.
  induction k as [|k IH].
  - cbn [seq fold_left]. unfold distance_outer.
    destruct (distance_first_row s1 s2 (Some 0%nat) (S (String.length s2)))
      as [c [E Hc]].
    unfold JsNum in *. rewrite E. exact Hc.
  - rewrite seq_S, fold_left_app. cbn [fold_left Nat.add].
    apply distance_outer_row, IH.
Qed.

Lemma length_toLowerCase (s : string) :
  String.length (JS.toLowerCase s) = String.length s.
Proof. induction s as [|c s IH]; simpl; congruence. Qed.

Lemma distance_edit_distance (s1 s2 : string) :
  distance s1 s2 = Some (edit_distance s1 s2).
Proof.
  unfold distance, edit_distance.
  rewrite <- (length_toLowerCase s1), <- (length_toLowerCase s2).
  eapply holds_row_get; [apply distance_rows | lia].
Qed.

Lemma same_char_refl (a : option ascii) : same_char a a = true.
Proof. destruct a; simpl; [apply Ascii.eqb_refl | reflexivity]. Qed.

Lemma same_char_sym (a b : option ascii) : same_char a b = same_char b a.
Proof. destruct a, b; simpl; try reflexivity. apply Ascii.eqb_sym. Qed.

Lemma lev_sym (s1 s2 : string) (i j : nat) :
  lev s1 s2 i j = lev s2 s1 j i.
Proof.
  revert j. induction i as [|i IHi]; intros j.
  - destruct j; reflexivity.
  - induction j as [|j IHj]; [reflexivity|].
    rewrite !lev_S_S, same_char_sym, IHj, !IHi.
    destruct (same_char (String.get j s2) (String.get i s1));
      [reflexivity | lia].
Qed.

Lemma lev_lower (s1 s2 : string) (i j : nat) :
  (i <= j + lev s1 s2 i j /\ j <= i + lev s1 s2 i j)%nat.
Proof.
  revert j. induction i as [|i IHi]; intros j.
  - rewrite lev_0. lia.
  - induction j as [|j IHj]; [rewrite lev_S_0; lia|].
    rewrite lev_S_S. pose proof (IHi j). pose proof (IHi (S j)).
    destruct (same_char (String.get i s1) (String.get j s2)); lia.
Qed.

Lemma lev_upper (s1 s2 : string) (i j : nat) :
  (lev s1 s2 i j <= Nat.max i j)%nat.
Proof.
  revert j. induction i as [|i IHi]; intros j.
  - rewrite lev_0. lia.
  - induction j as [|j IHj]; [rewrite lev_S_0; lia|].
    rewrite lev_S_S. pose proof (IHi j).
    destruct (same_char (String.get i s1) (String.get j s2)); lia.
Qed.

Lemma lev_same (s : string) (i : nat) : lev s s i i = 0%nat.
Proof.
  induction i as [|i IH]; [reflexivity|].
  rewrite lev_S_S, same_char_refl. exact IH.
Qed.

Lemma lev_zero (s1 s2 : string) (i j : nat) :
  lev s1 s2 i j = 0%nat ->
  i = j /\
  forall k, (k < i)%nat ->
    same_char (String.get k s1) (String.get k s2) = true.
Proof.
  revert j. induction i as [|i IHi]; intros j H.
  - rewrite lev_0 in H. subst j. split; [reflexivity|]. intros k Hk. lia.
  - destruct j as [|j]; [rewrite lev_S_0 in H; discriminate|].
    rewrite lev_S_S in H.
    destruct (same_char (String.get i s1) (String.get j s2)) eqn:E;
      [|discriminate].
    destruct (IHi j H) as [-> Hs]. split; [reflexivity|].
    intros k Hk. destruct (Nat.eq_dec k j) as [->|Hne]; [exact E|].
    apply Hs. lia.
Qed.

Lemma same_chars_eq (s1 s2 : string) :
  String.length s1 = String.length s2 ->
  (forall k, (k < String.length s1)%nat ->
     same_char (String.get k s1) (String.get k s2) = true) ->
  s1 = s2.
Proof.
  revert s2. induction s1 as [|c s1 IH]; intros [|c2 s2] Hl H;
    simpl in Hl; try discriminate; [reflexivity|].
  f_equal.
  - specialize (H 0%nat). simpl in H. apply Ascii.eqb_eq, H. lia.
  - apply IH; [congruence|]. intros k Hk. apply (H (S k)). simpl. lia.
Qed.

Lemma edit_distance_zero (s1 s2 : string) :
  edit_distance s1 s2 = 0%nat <-> JS.toLowerCase s1 = JS.toLowerCase s2.
Proof.
  unfold edit_distance. split.
  - intros H. apply lev_zero in H. destruct H as [Hl H].
    apply same_chars_eq; rewrite !length_toLowerCase; assumption.
  - intros E. rewrite <- E.
    replace (String.length s2) with (String.length s1)
      by (rewrite <- (length_toLowerCase s1), E; apply length_toLowerCase).
    apply lev_same.
Qed.

Lemma edit_distance_upper (s1 s2 : string) :
  (edit_distance s1 s2 <= Nat.max (String.length s1) (String.length s2))%nat.
Proof. apply lev_upper. Qed.

Lemma edit_distance_lower (s1 s2 : string) :
  (String.length s1 <= String.length s2 + edit_distance s1 s2 /\
   String.length s2 <= String.length s1 + edit_distance s1 s2)%nat.
Proof. apply lev_lower. Qed.

(** X11.  The loop of [distance], which keeps one row in the array
    [costs], never reads a hole of the array and computes the
    Wagner-Fischer matrix of the two lower-cased strings: after the pass
    for [i] the array holds row [i] of the matrix, and the result is the
    last entry of the last row. *)
Theorem distance_computes_the_edit_distance_matrix :
  forall (s1 s2 : string),
    (forall i,
       holds_row
         (fold_left (distance_outer (JS.toLowerCase s1) (JS.toLowerCase s2))
            (seq 0 (S i)) [])
         (lev (JS.toLowerCase s1) (JS.toLowerCase s2) i)
         (S (String.length s2))) /\
    distance s1 s2
    = Some (lev (JS.toLowerCase s1) (JS.toLowerCase s2)
              (String.length s1) (String.length s2)).
Proof.
  intros s1 s2. split.
  - intros i. rewrite <- (length_toLowerCase s2). apply distance_rows.
  - apply distance_edit_distance.
Qed.

(** X12.  The distance of [findSuggestion] is symmetric, it is zero exactly
    for two strings that are equal up to the case of their letters, it is
    at least the difference of the two lengths and at most the greater
    length. *)
Theorem distance_is_symmetric_bounded_and_zero_on_equal_strings :
  forall (s1 s2 : string),
    distance s1 s2 = distance s2 s1 /\
    (distance s1 s2 = Some 0%nat
     <-> JS.toLowerCase s1 = JS.toLowerCase s2) /\
    exists d,
      distance s1 s2 = Some d /\
      (String.length s1 <= String.length s2 + d)%nat /\
      (String.length s2 <= String.length s1 + d)%nat /\
      (d <= Nat.max (String.length s1) (String.length s2))%nat.
Proof.
  intros s1 s2. rewrite !distance_edit_distance. split; [|split].
  - f_equal. apply lev_sym.
  - rewrite <- edit_distance_zero. split; [|congruence].
    intros H. injection H as H. exact H.
  - exists (edit_distance s1 s2). split; [reflexivity|].
    pose proof (edit_distance_lower s1 s2).
    pose proof (edit_distance_upper s1 s2). lia.
Qed.

Lemma findSuggestion_step_inv (unknown : string) (seen : list string)
    (best : Best) (item : string) :
  suggestion_so_far unknown seen best ->
  suggestion_so_far unknown (seen ++ [item])
    (findSuggestion_step unknown best item).
Proof.
  unfold suggestion_so_far, findSuggestion_step.
  rewrite distance_edit_distance. unfold improves.
  destruct best as [[d|] [m|]]; cbn [minDistance match_]; try tauto.
  - intros [Hd [before [after [El [Ed [Hb Ha]]]]]].
    destruct (Nat.ltb (edit_distance unknown item) d) eqn:E1; cbn [andb].
    + apply Nat.ltb_lt in E1.
      replace (Nat.leb (edit_distance unknown item) 2) with true
        by (symmetry; apply Nat.leb_le; lia).
      cbn [minDistance match_]. split; [lia|].
      exists seen, []. split; [reflexivity|]. split; [reflexivity|].
      split; [|constructor].
      subst seen. apply Forall_app. split.
      * eapply Forall_impl; [|exact Hb]. simpl. intros; lia.
      * constructor; [lia|].
        eapply Forall_impl; [|exact Ha]. simpl. intros; lia.
    + apply Nat.ltb_ge in E1. cbn [minDistance match_]. split; [exact Hd|].
      exists before, (after ++ [item]). subst seen.
      rewrite <- app_assoc. split; [reflexivity|]. split; [exact Ed|].
      split; [exact Hb|]. apply Forall_app. split; [exact Ha|].
      constructor; [exact E1 | constructor].
  - intros Hs.
    destruct (Nat.leb (edit_distance unknown item) 2) eqn:E1;
      cbn [andb minDistance match_].
    + apply Nat.leb_le in E1. split; [exact E1|].
      exists seen, []. split; [reflexivity|]. split; [reflexivity|].
      split; [|constructor].
      eapply Forall_impl; [|exact Hs]. simpl. intros; lia.
    + apply Nat.leb_gt in E1. apply Forall_app. split; [exact Hs|].
      constructor; [exact E1 | constructor].
Qed.

Lemma findSuggestion_fold_inv (unknown : string) (rest seen : list string)
    (best : Best) :
  suggestion_so_far unknown seen best ->
  suggestion_so_far unknown (seen ++ rest)
    (fold_left (findSuggestion_step unknown) rest best).
Proof.
  revert seen best. induction rest as [|item rest IH]; intros seen best H.
  - rewrite app_nil_r. exact H.
  - cbn [fold_left].
    replace (seen ++ item :: rest) with ((seen ++ [item]) ++ rest)
      by (rewrite <- app_assoc; reflexivity).
    apply IH, findSuggestion_step_inv, H.
Qed.

Lemma findSuggestion_spec (unknown : string) (list : list string) :
  suggestion_is_first_nearest unknown list.
Proof.
  unfold suggestion_is_first_nearest, findSuggestion.
  pose proof (findSuggestion_fold_inv unknown list []
                {| minDistance := None; match_ := None |}) as H.
  cbn [app] in H. unfold suggestion_so_far in H at 1.
  cbn [minDistance match_] in H. specialize (H (Forall_nil _)).
  unfold suggestion_so_far in H.
  destruct (fold_left (findSuggestion_step unknown) list
              {| minDistance := None; match_ := None |}) as [[d|] [m|]];
    cbn [minDistance match_] in *; try contradiction.
  - destruct H as [Hd Hf]. exists d. split; assumption.
  - exact H.
Qed.

(** X13.  [findSuggestion] returns the first entry of the list that is
    nearest to the unknown word, provided that entry is at distance at most
    two; it returns nothing exactly when every entry of the list is at
    distance three or more. *)
Theorem findSuggestion_returns_the_first_nearest_entry_within_two :
  forall (unknown : string) (list : list string),
    match findSuggestion unknown list with
    | Some item =>
        In item list /\
        exists d,
          distance unknown item = Some d /\ (d <= 2)%nat /\
          first_nearest unknown list item d
    | None =>
        forall other, In other list ->
          exists d, distance unknown other = Some d /\ (2 < d)%nat
    end.
Proof.
  intros unknown list. pose proof (findSuggestion_spec unknown list) as H.
  unfold suggestion_is_first_nearest in H.
  destruct (findSuggestion unknown list) as [item|].
  - destruct H as [d [Hd Hf]]. split.
    + destruct Hf as [before [after [El _]]]. subst list.
      apply in_or_app. right. left. reflexivity.
    + exists d. rewrite distance_edit_distance.
      split; [|split; assumption].
      destruct Hf as [before [after [_ [Ed _]]]]. congruence.
  - intros other Hin. rewrite distance_edit_distance.
    exists (edit_distance unknown other). split; [reflexivity|].
    rewrite Forall_forall in H. apply H, Hin.
Qed.

Lemma allValidCommands_nonempty (c : string) :
  In c allValidCommands -> String.eqb c "" = false.
Proof.
  assert (H : forallb (fun c => negb (String.eqb c "")) allValidCommands
              = true) by reflexivity.
  rewrite forallb_forall in H. intros Hin. apply H in Hin.
  apply negb_true_iff in Hin. exact Hin.
Qed.

Lemma has_allValidCommands (c : string) :
  existsb (String.eqb c) allValidCommands = true <-> In c allValidCommands.
Proof.
  rewrite existsb_exists. split.
  - intros [x [Hin E]]. apply String.eqb_eq in E. subst x. exact Hin.
  - intros Hin. exists c. split; [exact Hin | apply String.eqb_refl].
Qed.

(** X14.  The check for command typos of [main] lets the first argument
    through exactly when it is empty, starts with a dash or is a command
    name.  A suggestion it makes is a command name other than the argument,
    the first of the nearest ones and at distance at most two.  It reports
    an unknown command without a suggestion only when the argument has at
    least three characters and every command name is at distance three or
    more. *)
Theorem unknown_commands_get_the_nearest_command_name :
  forall (potentialCommand : string),
    (check_command_typo potentialCommand = Proceeds
     <-> potentialCommand = ""%string
         \/ startsWith_dash potentialCommand = true
         \/ In potentialCommand allValidCommands) /\
    (forall suggestion,
       check_command_typo potentialCommand
       = UnknownCommandDidYouMean suggestion ->
       In suggestion allValidCommands /\
       suggestion <> potentialCommand /\
       exists d, (d <= 2)%nat /\
         first_nearest potentialCommand allValidCommands suggestion d) /\
    (check_command_typo potentialCommand = UnknownCommand ->
     (3 <= String.length potentialCommand)%nat /\
     forall name, In name allValidCommands ->
       (3 <= edit_distance potentialCommand name)%nat).
Proof.
  intros cmd. pose proof (findSuggestion_spec cmd allValidCommands) as S.
  unfold suggestion_is_first_nearest in S. unfold check_command_typo.
  destruct (String.eqb cmd "") eqn:E0; cbn [negb andb].
  { apply String.eqb_eq in E0.
    split; [|split]; [tauto | discriminate | discriminate]. }
  destruct (startsWith_dash cmd) eqn:E1; cbn [negb andb].
  { split; [|split]; [tauto | discriminate | discriminate]. }
  destruct (existsb (String.eqb cmd) allValidCommands) eqn:E2; cbn [negb].
  { apply has_allValidCommands in E2.
    split; [|split]; [tauto | discriminate | discriminate]. }
  assert (N : ~ In cmd allValidCommands).
  { intros Hin. apply has_allValidCommands in Hin. congruence. }
  assert (P : ~ (cmd = ""%string \/ false = true \/ In cmd allValidCommands)).
  { intros [H|[H|H]]; [|discriminate|contradiction].
    subst cmd. discriminate E0. }
  destruct (findSuggestion cmd allValidCommands) as [s|].
  - destruct S as [d [Hd Hf]].
    assert (Hin : In s allValidCommands).
    { destruct Hf as [before [after [El _]]]. rewrite El.
      apply in_or_app. right. left. reflexivity. }
    rewrite (allValidCommands_nonempty s Hin). cbn [negb].
    split; [|split].
    + split; [discriminate | intros H; contradiction].
    + intros s' H. injection H as <-. split; [exact Hin|]. split.
      * intros ->. contradiction.
      * exists d. split; assumption.
    + discriminate.
  - split; [|split].
    + split; [discriminate | intros H; contradiction].
    + discriminate.
    + intros _. rewrite Forall_forall in S. split.
      * assert (Ha : In "a"%string allValidCommands)
          by (right; left; reflexivity).
        pose proof (S _ Ha) as H2.
        pose proof (edit_distance_upper cmd "a") as H3.
        change (String.length "a") with 1%nat in H3. lia.
      * intros name Hin. apply (S name Hin).
Qed.

(** * Properties of the CSV export *)

Lemma string_app_nil_r (s : string) : (s ++ "")%string = s.
Proof. induction s as [|c s IH]; simpl; congruence. Qed.

Lemma string_app_assoc (a b c : string) :
  ((a ++ b) ++ c)%string = (a ++ (b ++ c))%string.
Proof. induction a as [|x a IH]; simpl; congruence. Qed.

Lemma csv_decode_quoted (t rest field : string) (record : list string)
    (table : list (list string)) :
  csv_decode (replace_quotes t ++ String double_quote rest) InQuoted field
    record table
  = csv_decode rest QuoteSeen (field ++ t) record table.
Proof.
  revert field. induction t as [|c t IH]; intros field.
  - rewrite string_app_nil_r. reflexivity.
  - cbn [replace_quotes]. destruct (Ascii.eqb c double_quote) eqn:E.
    + apply Ascii.eqb_eq in E. subst c.
      cbn [append csv_decode]. rewrite Ascii.eqb_refl. rewrite IH.
      unfold snoc_char. rewrite string_app_assoc. reflexivity.
    + cbn [append csv_decode]. rewrite E. rewrite IH.
      unfold snoc_char. rewrite string_app_assoc. reflexivity.
Qed.

Lemma csv_decode_comma (rest field : string) (record : list string)
    (table : list (list string)) :
  csv_decode (String comma rest) QuoteSeen field record table
  = csv_decode rest FieldStart "" (record ++ [field]) table.
Proof. reflexivity. Qed.

Lemma csv_decode_line_feed (rest field : string) (record : list string)
    (table : list (list string)) :
  csv_decode (String line_feed rest) QuoteSeen field record table
  = csv_decode rest FieldStart "" [] (table ++ [record ++ [field]]).
Proof. reflexivity. Qed.

Section CsvProperties.

Variable toLocaleString : Timestamp -> string.
Variable String_of_number : Z -> string.

Lemma csv_decode_cell (text : Cell) (rest : string) (record : list string)
    (table : list (list string)) :
  csv_decode (escapeCsv String_of_number text ++ rest) FieldStart ""
    record table
  = csv_decode rest QuoteSeen (String_of_cell String_of_number text)
      record table.
Proof.
  unfold escapeCsv. cbn [append csv_decode]. rewrite Ascii.eqb_refl.
  rewrite string_app_assoc. cbn [append]. apply csv_decode_quoted.
Qed.

Lemma csv_decode_cells (cells : list Cell) (cell : Cell) (rest : string)
    (record : list string) (table : list (list string)) :
  exists firsts final,
    map (String_of_cell String_of_number) (cell :: cells)
    = firsts ++ [final] /\
    csv_decode
      (String.concat (String comma EmptyString)
         (map (escapeCsv String_of_number) (cell :: cells)) ++ rest)
      FieldStart "" record table
    = csv_decode rest QuoteSeen final (record ++ firsts) table.
Proof.
  revert cell record. induction cells as [|next cells IH]; intros cell record.
  - exists [], (String_of_cell String_of_number cell).
    split; [reflexivity|]. cbn [map String.concat].
    rewrite csv_decode_cell, app_nil_r. reflexivity.
  - destruct (IH next (record ++ [String_of_cell String_of_number cell]))
      as [firsts [final [Em Ed]]].
    exists (String_of_cell String_of_number cell :: firsts), final. split.
    + cbn [map app] in *. rewrite Em. reflexivity.
    + change (String.concat (String comma EmptyString)
                (map (escapeCsv String_of_number) (cell :: next :: cells)))
        with (escapeCsv String_of_number cell
              ++ String comma EmptyString
              ++ String.concat (String comma EmptyString)
                   (map (escapeCsv String_of_number) (next :: cells)))%string.
      rewrite !string_app_assoc, csv_decode_cell.
      cbn [append]. rewrite csv_decode_comma, Ed, <- app_assoc.
      reflexivity.
Qed.

Lemma csv_decode_rows (rest : list Instruction) (i : Instruction)
    (table : list (list string)) :
  csv_decode (csv_rows toLocaleString String_of_number (i :: rest))
    FieldStart "" [] table
  = Some (table
          ++ map (fun r => map (String_of_cell String_of_number)
                             (csv_cells toLocaleString r)) (i :: rest)).
Proof.
  revert i table. induction rest as [|next rest IH]; intros i table.
  - unfold csv_rows, csv_row. cbn [map String.concat].
    destruct (csv_decode_cells
                (tl (csv_cells toLocaleString i))
                (CellNumber (id i)) "" [] table)
      as [firsts [final [Em Ed]]].
    rewrite string_app_nil_r in Ed.
    change (CellNumber (id i) :: tl (csv_cells toLocaleString i))
      with (csv_cells toLocaleString i) in *.
    rewrite Ed, Em. reflexivity.
  - change (csv_rows toLocaleString String_of_number (i :: next :: rest))
      with (csv_row toLocaleString String_of_number i
            ++ String line_feed EmptyString
            ++ csv_rows toLocaleString String_of_number (next :: rest))%string.
    unfold csv_row at 1.
    destruct (csv_decode_cells
                (tl (csv_cells toLocaleString i))
                (CellNumber (id i))
                (String line_feed EmptyString
                 ++ csv_rows toLocaleString String_of_number (next :: rest))
                [] table)
      as [firsts [final [Em Ed]]].
    change (CellNumber (id i) :: tl (csv_cells toLocaleString i))
      with (csv_cells toLocaleString i) in *.
    rewrite Ed. cbn [append]. rewrite csv_decode_line_feed, IH.
    cbn [map app]. rewrite Em, <- app_assoc. reflexivity.
Qed.

Lemma csv_decode_headers (rest : string) :
  csv_decode (csv_headers ++ rest) FieldStart "" [] []
  = csv_decode rest FieldStart "" [] [csv_header_names].
Proof. reflexivity. Qed.

End CsvProperties.

(** The reader on line breaks: a carriage return before the line feed, and
    a line break after the last record, change nothing. *)
Example csv_table_line_breaks :
  csv_table (String double_quote (String "a" (String double_quote
              (String carriage_return (String line_feed
                (String double_quote (String "b" (String double_quote
                  (String line_feed EmptyString)))))))))
  = Some [["a"%string]; ["b"%string]].
Proof. reflexivity. Qed.

(** X15.  The CSV text the export handler writes reads back as the table
    it was made from.  The handler separates the records by line feeds
    alone; a reader that takes the fields as RFC 4180 defines them (quoted
    fields, doubled double quotes) and a line feed, with or without a
    carriage return before it, as the end of a record finds, after the
    byte order mark, the header record and then one record of nine fields
    for each matching instruction, in order, each field being the exact
    text of the cell, whatever commas, double quotes, carriage returns or
    line feeds it contains.  The handler writes only when a record
    matches. *)
Theorem exported_csv_reads_back_as_the_table :
  forall (toLocaleString : Timestamp -> string)
         (String_of_number : Z -> string)
         (w : World) (argv : Filters) (st : State) (content : string),
    export_csv toLocaleString String_of_number w argv st
    = Ok (Some content) ->
    exists matching body,
      filterInstructions w (instructions st) argv = Ok matching /\
      matching <> [] /\
      content = (byte_order_mark ++ body)%string /\
      csv_table body
      = Some (csv_header_names
              :: map (fun i => map (String_of_cell String_of_number)
                                 (csv_cells toLocaleString i)) matching).
Proof.
  intros toLocaleString String_of_number w argv st content.
  unfold export_csv, loadInstructions.
  destruct (filterInstructions w (instructions st) argv) as [matching|e];
    cbn [bind]; [|discriminate].
  destruct matching as [|i rest]; cbn [length Nat.eqb]; [discriminate|].
  intros H. injection H as <-.
  exists (i :: rest),
    (csv_headers
     ++ csv_rows toLocaleString String_of_number (i :: rest))%string.
  split; [reflexivity|]. split; [discriminate|]. split; [reflexivity|].
  unfold csv_table. rewrite csv_decode_headers. apply csv_decode_rows.
Qed.

Lemma exported_csv_reads_back_as_the_table_witness :
  exists matching body,
    filterInstructions sample_world [scenario_1] no_filters = Ok matching /\
    matching <> [] /\
    csv_content isoDay (fun _ => "1"%string) [scenario_1]
    = (byte_order_mark ++ body)%string /\
    csv_table body
    = Some (csv_header_names
            :: map (fun i => map (String_of_cell (fun _ => "1"%string))
                               (csv_cells isoDay i)) matching).
Proof.
  apply (exported_csv_reads_back_as_the_table isoDay (fun _ => "1"%string)
           sample_world no_filters (mkState [scenario_1] [] [])
           (csv_content isoDay (fun _ => "1"%string) [scenario_1])).
  reflexivity.
Defined.

(** * Properties of the line wrapping *)

Lemma concat_all_split_spaces_from (s : string) (b : bool) (current : string) :
  concat_all (split_spaces_from s b current) = (current ++ s)%string.
Proof.
  revert b current. induction s as [|c s IH]; intros b current.
  - destruct b; simpl; rewrite ?string_app_nil_r; reflexivity.
  - cbn [split_spaces_from].
    destruct (Bool.eqb (JS.is_space c) b).
    + rewrite IH, string_app_assoc. reflexivity.
    + unfold concat_all. cbn [fold_right]. fold (concat_all
        (split_spaces_from s (JS.is_space c) (String c EmptyString))).
      rewrite IH. reflexivity.
Qed.

Lemma uniform_snoc (b : bool) (s : string) (c : ascii) :
  uniform b s = true -> Bool.eqb (JS.is_space c) b = true ->
  uniform b (s ++ String c EmptyString) = true.
Proof.
  intros Hs Hc. induction s as [|x s IH]; cbn [append uniform] in *.
  - rewrite Hc. reflexivity.
  - apply andb_true_iff in Hs. destruct Hs as [Hx Hs].
    rewrite Hx, (IH Hs). reflexivity.
Qed.

Lemma split_spaces_from_runs (s : string) (b : bool) (current : string) :
  uniform b current = true ->
  Forall (fun w => exists b', uniform b' w = true)
    (split_spaces_from s b current).
Proof.
  revert b current. induction s as [|c s IH]; intros b current H.
  - destruct b; cbn [split_spaces_from].
    + constructor; [exists true; exact H|].
      constructor; [exists false; reflexivity | constructor].
    + constructor; [exists false; exact H | constructor].
  - cbn [split_spaces_from].
    destruct (Bool.eqb (JS.is_space c) b) eqn:E.
    + apply IH, uniform_snoc; assumption.
    + constructor; [exists b; exact H|]. apply IH.
      cbn [uniform]. rewrite Bool.eqb_reflx. reflexivity.
Qed.

Lemma trimStart_run (b : bool) (w : string) :
  uniform b w = true -> JS.trimStart w = w \/ JS.trimStart w = ""%string.
Proof.
  destruct b.
  - intros H. right. induction w as [|c w IH]; [reflexivity|].
    cbn [uniform] in H. apply andb_true_iff in H. destruct H as [Hc Hw].
    apply Bool.eqb_prop in Hc. cbn [JS.trimStart]. rewrite Hc. apply IH, Hw.
  - intros H. left. destruct w as [|c w]; [reflexivity|].
    cbn [uniform] in H. apply andb_true_iff in H. destruct H as [Hc _].
    apply Bool.eqb_prop in Hc. cbn [JS.trimStart]. rewrite Hc. reflexivity.
Qed.

Lemma visible_app (a b : string) :
  visible (a ++ b) = (visible a ++ visible b)%string.
Proof.
  induction a as [|c a IH]; [reflexivity|]. cbn [append visible].
  destruct (JS.is_space c); rewrite IH; reflexivity.
Qed.

Lemma visible_trimStart (w : string) : visible (JS.trimStart w) = visible w.
Proof.
  induction w as [|c w IH]; [reflexivity|]. cbn [JS.trimStart visible].
  destruct (JS.is_space c) eqn:E; [exact IH|].
  cbn [visible]. rewrite E. reflexivity.
Qed.

Lemma concat_all_app (l1 l2 : list string) :
  concat_all (l1 ++ l2) = (concat_all l1 ++ concat_all l2)%string.
Proof.
  induction l1 as [|x l1 IH]; [reflexivity|].
  unfold concat_all in *. cbn [app fold_right]. rewrite IH.
  rewrite string_app_assoc. reflexivity.
Qed.

Lemma concat_all_snoc (l : list string) (s : string) :
  concat_all (l ++ [s]) = (concat_all l ++ s)%string.
Proof.
  rewrite concat_all_app. unfold concat_all at 2. cbn [fold_right].
  rewrite string_app_nil_r. reflexivity.
Qed.

Section WrappingProperties.

Variable exceeds : string -> bool.

Lemma wrap_fold_visible (words lines : list string) (currentLine : string) :
  let '(lines', currentLine') :=
    fold_left (wrap_step exceeds) words (lines, currentLine) in
  visible (concat_all (lines' ++ [currentLine']))
  = (visible (concat_all (lines ++ [currentLine]))
     ++ visible (concat_all words))%string.
Proof.
  revert lines currentLine.
  induction words as [|w words IH]; intros lines currentLine.
  - cbn [fold_left]. unfold concat_all at 3. cbn [fold_right].
    rewrite string_app_nil_r. reflexivity.
  - cbn [fold_left]. unfold wrap_step at 2.
    destruct (exceeds (currentLine ++ w)
              && negb (String.eqb currentLine "")).
    + specialize (IH (lines ++ [currentLine]) (JS.trimStart w)).
      destruct (fold_left (wrap_step exceeds) words
                  (lines ++ [currentLine], JS.trimStart w)) as [l c].
      rewrite IH. rewrite !concat_all_snoc.
      change (concat_all (w :: words)) with (w ++ concat_all words)%string.
      rewrite !visible_app, visible_trimStart, !string_app_assoc.
      reflexivity.
    + specialize (IH lines (currentLine ++ w)%string).
      destruct (fold_left (wrap_step exceeds) words
                  (lines, (currentLine ++ w)%string)) as [l c].
      rewrite IH. rewrite !concat_all_snoc.
      change (concat_all (w :: words)) with (w ++ concat_all words)%string.
      rewrite !visible_app, !string_app_assoc. reflexivity.
Qed.

Lemma wrap_fold_lines (all words lines : list string) (currentLine : string) :
  (forall w, In w words ->
     In w all /\ exists b, uniform b w = true) ->
  Forall (fun line => line <> ""%string
                      /\ line_fits_or_is_one_run exceeds all line) lines ->
  line_fits_or_is_one_run exceeds all currentLine ->
  let '(lines', currentLine') :=
    fold_left (wrap_step exceeds) words (lines, currentLine) in
  Forall (fun line => line <> ""%string
                      /\ line_fits_or_is_one_run exceeds all line) lines' /\
  line_fits_or_is_one_run exceeds all currentLine'.
Proof.
  revert lines currentLine.
  induction words as [|w words IH]; intros lines currentLine Hw Hl Hc.
  - cbn [fold_left]. split; assumption.
  - cbn [fold_left]. unfold wrap_step at 2.
    assert (Hw' : forall w', In w' words ->
                    In w' all /\ exists b, uniform b w' = true).
    { intros w' Hin. apply Hw. right. exact Hin. }
    destruct (Hw w (or_introl eq_refl)) as [Hin [b Hb]].
    destruct (exceeds (currentLine ++ w)) eqn:E1;
      [destruct (String.eqb currentLine "") eqn:E2|]; cbn [andb negb].
    + apply String.eqb_eq in E2. subst currentLine.
      apply IH; [exact Hw' | exact Hl |].
      right. right. exact Hin.
    + apply String.eqb_neq in E2.
      apply IH; [exact Hw' | |].
      * apply Forall_app. split; [exact Hl|].
        constructor; [split; assumption | constructor].
      * destruct (trimStart_run b w Hb) as [-> | ->].
        -- right. right. exact Hin.
        -- right. left. reflexivity.
    + apply IH; [exact Hw' | exact Hl |]. left. exact E1.
Qed.

Lemma wrap_fold_fits (text : string) (words : list string)
    (currentLine : string) :
  (forall p q, text = (p ++ q)%string -> exceeds p = false) ->
  text = (currentLine ++ concat_all words)%string ->
  fold_left (wrap_step exceeds) words ([], currentLine) = ([], text).
Proof.
  intros Hfit. revert currentLine.
  induction words as [|w words IH]; intros currentLine Ht.
  - cbn [fold_left]. unfold concat_all in Ht. cbn [fold_right] in Ht.
    rewrite string_app_nil_r in Ht. congruence.
  - cbn [fold_left]. unfold wrap_step at 2.
    change (concat_all (w :: words)) with (w ++ concat_all words)%string in Ht.
    rewrite (Hfit (currentLine ++ w)%string (concat_all words))
      by (rewrite string_app_assoc; exact Ht).
    cbn [andb]. apply IH. rewrite string_app_assoc. exact Ht.
Qed.

End WrappingProperties.

Lemma String_of_text (text : option string) :
  (if JS.truthy_str text
   then match text with Some t => t | None => ""%string end
   else ""%string)
  = match text with Some t => t | None => ""%string end.
Proof.
  destruct text as [t|]; [|reflexivity]. unfold JS.truthy_str.
  destruct (String.eqb t "") eqn:E; [|reflexivity].
  apply String.eqb_eq in E. subst t. reflexivity.
Qed.

(** X16.  Wrapping a text loses and reorders no visible character: the
    lines put end to end have the characters of the text other than white
    space, in the same order.  Every line but the last is non-empty, and a
    line that exceeds the width is one run of the text on its own, which
    could not be broken. *)
Theorem wrapped_lines_keep_the_text_and_fit :
  forall (exceeds : string -> bool) (text : string),
    let lines := wrapTextForPdf exceeds (Some text) in
    visible (concat_all lines) = visible text /\
    lines <> [] /\
    Forall (fun line => line <> ""%string) (removelast lines) /\
    Forall (line_fits_or_is_one_run exceeds (split_spaces text)) lines.
Proof.
  intros exceeds text. cbv zeta. unfold wrapTextForPdf.
  rewrite String_of_text.
  pose proof (wrap_fold_visible exceeds (split_spaces text) [] "") as V.
  pose proof (wrap_fold_lines exceeds (split_spaces text) (split_spaces text)
                [] "") as L.
  destruct (fold_left (wrap_step exceeds) (split_spaces text) ([], ""%string))
    as [lines currentLine].
  split; [|split; [|split]].
  - rewrite V. unfold split_spaces. rewrite concat_all_split_spaces_from.
    reflexivity.
  - destruct lines; discriminate.
  - rewrite removelast_last.
    destruct L as [L _].
    + intros w Hin. split; [exact Hin|].
      pose proof (split_spaces_from_runs text false "" eq_refl) as R.
      rewrite Forall_forall in R. apply R, Hin.
    + constructor.
    + right. left. reflexivity.
    + eapply Forall_impl; [|exact L]. simpl. intros a [Ha _]. exact Ha.
  - destruct L as [L1 L2].
    + intros w Hin. split; [exact Hin|].
      pose proof (split_spaces_from_runs text false "" eq_refl) as R.
      rewrite Forall_forall in R. apply R, Hin.
    + constructor.
    + right. left. reflexivity.
    + apply Forall_app. split.
      * eapply Forall_impl; [|exact L1]. simpl. intros a [_ Ha]. exact Ha.
      * constructor; [exact L2 | constructor].
Qed.

(** X17.  A text of which every initial part fits in the width is
    returned as one line, unchanged; a missing or empty text gives one
    empty line. *)
Theorem text_that_fits_stays_on_one_line :
  forall (exceeds : string -> bool) (text : string),
    (forall p q, text = (p ++ q)%string -> exceeds p = false) ->
    wrapTextForPdf exceeds (Some text) = [text] /\
    wrapTextForPdf exceeds None = [""%string].
Proof.
  intros exceeds text Hfit. split.
  2:{ unfold wrapTextForPdf. cbn [JS.truthy_str split_spaces
        split_spaces_from fold_left wrap_step append String.eqb negb].
      rewrite andb_false_r. reflexivity. }
  unfold wrapTextForPdf. rewrite String_of_text.
  rewrite (wrap_fold_fits exceeds text (split_spaces text) "" Hfit).
  - reflexivity.
  - unfold split_spaces. rewrite concat_all_split_spaces_from. reflexivity.
Qed.

Lemma string_length_app (a b : string) :
  String.length (a ++ b) = (String.length a + String.length b)%nat.
Proof. induction a as [|c a IH]; simpl; congruence. Qed.

Lemma text_that_fits_stays_on_one_line_witness :
  wrapTextForPdf long_lines (Some "buy milk"%string) = ["buy milk"%string] /\
  wrapTextForPdf long_lines None = [""%string].
Proof.
  apply (text_that_fits_stays_on_one_line long_lines "buy milk").
  intros p q H. unfold long_lines. apply Nat.ltb_ge.
  apply (f_equal String.length) in H. rewrite string_length_app in H.
  simpl in H. lia.
Defined.

(** * Properties of the failure handler *)

Lemma prefix_before_quote (p t : string) :
  plain_chars p = true ->
  String.prefix p (t ++ "'.") = true -> String.prefix p t = true.
Proof.
  revert t. induction p as [|a p IH]; intros t Hp H.
  - destruct t; reflexivity.
  - cbn [plain_chars] in Hp. apply andb_true_iff in Hp.
    destruct Hp as [Ha Hp]. apply andb_true_iff in Ha.
    destruct Ha as [Ha1 Ha2].
    apply negb_true_iff, Ascii.eqb_neq in Ha1.
    apply negb_true_iff, Ascii.eqb_neq in Ha2.
    destruct t as [|b t].
    + cbn [append String.prefix] in H.
      destruct (ascii_dec a "'"%char) as [E|_]; [contradiction|].
      discriminate.
    + cbn [append String.prefix] in *.
      destruct (ascii_dec a b); [|discriminate]. apply IH; assumption.
Qed.

Lemma includes_before_quote (p s : string) :
  plain_chars p = true -> p <> ""%string ->
  includes (s ++ "'.") p = true -> includes s p = true.
Proof.
  intros Hp Hn. induction s as [|c s IH]; intros H.
  - exfalso. destruct p as [|a p]; [contradiction|].
    cbn [plain_chars] in Hp. apply andb_true_iff in Hp.
    destruct Hp as [Ha Hp]. apply andb_true_iff in Ha.
    destruct Ha as [Ha1 Ha2].
    apply negb_true_iff, Ascii.eqb_neq in Ha1.
    apply negb_true_iff, Ascii.eqb_neq in Ha2.
    cbn [append includes String.prefix] in H.
    destruct (ascii_dec a "'"%char) as [E|_]; [contradiction|].
    destruct (ascii_dec a "."%char) as [E|_]; [contradiction|].
    destruct p; discriminate.
  - cbn [append includes] in *. apply orb_true_iff in H.
    apply orb_true_iff. destruct H as [H|H].
    + left. apply (prefix_before_quote p (String c s) Hp H).
    + right. apply IH, H.
Qed.

Lemma includes_invalid_month_week (s : string) :
  includes (invalid_month_message s) "Invalid week value" = true ->
  includes s "Invalid week value" = true.
Proof.
  intros H. apply includes_before_quote; [reflexivity | discriminate |].
  exact H.
Qed.

Lemma includes_invalid_month (s : string) :
  includes (invalid_month_message s) "Invalid month:" = true.
Proof. reflexivity. Qed.

Lemma validateFilterOptions_messages (w : World) (f : Filters) (m : string) :
  validateFilterOptions w f = Some m ->
  m = msg_invalid_date \/ m = msg_date_with_others
  \/ m = msg_week_without_month.
Proof.
  unfold validateFilterOptions.
  destruct (f_date f) as [s|].
  - destruct (JS.truthy_str (Some s)).
    + destruct (negb (matches_date_pattern s)
                || match Date_parse w s with
                   | None => true
                   | Some _ => false
                   end)%bool.
      * intros H. injection H as <-. auto.
      * destruct (JS.truthy_str (f_day f) || truthy_month (f_month f)
                  || JS.truthy_num (f_week f)
                  || JS.truthy_num (f_year f))%bool.
        -- intros H. injection H as <-. auto.
        -- destruct (JS.truthy_num (f_week f)
                     && negb (truthy_month (f_month f)))%bool;
             [|discriminate].
           intros H. injection H as <-. auto.
    + destruct (JS.truthy_num (f_week f)
                && negb (truthy_month (f_month f)))%bool; [|discriminate].
      intros H. injection H as <-. auto.
  - destruct (JS.truthy_num (f_week f)
              && negb (truthy_month (f_month f)))%bool; [|discriminate].
    intros H. injection H as <-. auto.
Qed.

(** X18.  Every rejection of the filter options of show, total and export
    is an error with a message, and the failure handler recognises it: an
    invalid week, an invalid month, a week without a month and a date
    given with other time filters each reach their own report, and a
    malformed date is reported with its message as it is.  The one
    crossing is an invalid month whose text contains the words of the week
    message, which is reported as an invalid week. *)
Theorem rejected_filter_options_reach_their_report :
  forall (w : World) (argv : FilterArgv) (e : Exception),
    parse_filters w argv = Throw e ->
    exists m, e = Error m /\ report_matches_rejection argv m.
Proof.
  intros w argv e. unfold parse_filters.
  destruct (weekCoercion (a_week argv)) as [week|e1] eqn:Ew; cbn [bind].
  2:{ intros H. injection H as <-. unfold weekCoercion in Ew.
      destruct (a_week argv) as [n|]; [|discriminate].
      destruct (JS.less_than n (Integer 1) || JS.less_than (Integer 5) n)%bool;
        [|discriminate].
      injection Ew as <-. exists invalid_week_message.
      split; [reflexivity|]. left. reflexivity. }
  destruct (monthCoercion (a_month argv)) as [month|e2] eqn:Em; cbn [bind].
  2:{ intros H. injection H as <-. unfold monthCoercion in Em.
      destruct (a_month argv) as [s|] eqn:Ea; [|discriminate].
      destruct (parseMonth s); [discriminate|]. injection Em as <-.
      exists (invalid_month_message s). split; [reflexivity|].
      unfold report_matches_rejection, customFailureHandler.
      change (JS.truthy_str (Some (invalid_month_message s))) with true.
      cbv iota. cbn [or_empty].
      destruct (includes (invalid_month_message s) "Invalid week value")
        eqn:E.
      - right. exists s. split; [exact Ea|]. split; [reflexivity|].
        apply includes_invalid_month_week, E.
      - rewrite includes_invalid_month. exists s.
        split; [exact Ea | reflexivity]. }
  destruct (validateFilterOptions w _) as [m|] eqn:Ev; [|discriminate].
  intros H. injection H as <-. exists m. split; [reflexivity|].
  apply validateFilterOptions_messages in Ev.
  destruct Ev as [-> | [-> | ->]].
  - split; reflexivity.
  - reflexivity.
  - reflexivity.
Qed.

Lemma rejected_filter_options_reach_their_report_witness :
  exists m,
    Error invalid_week_message = Error m /\
    report_matches_rejection
      (mkFilterArgv None None None None None None None None None
         (Some (Integer 9))) m.
Proof.
  apply (rejected_filter_options_reach_their_report sample_world
           (mkFilterArgv None None None None None None None None None
              (Some (Integer 9)))
           (Error invalid_week_message)).
  reflexivity.
Defined.

(** * The listing commands together *)

